(** * Keyboarder: layout geometry, export and history, checked against the code

    A shallow embedding of the TypeScript sources of the keycap label
    designer (units.ts, types.ts, keys.ts, store.ts, exporters.ts,
    CanvasStage.tsx, App.tsx) together with the properties the design
    document states about them.

    Numbers.  A JavaScript [number] is modelled as an exact rational [Q]:
    every operation of the geometry code is +, -, *, / and comparison, and
    the divisors are either constants (25.4, 2) or shown to be non-zero
    from the hypotheses of the theorem at hand.  The one place where the
    code can divide by zero, the image-fit computation, is modelled over
    [jsnum], rationals extended with the two infinities and NaN, with the
    IEEE 754 rules for division, multiplication and comparison.

    Strings are [string]; the empty string is written [EmptyString]. *)

From Stdlib Require Import String Ascii.
From Stdlib Require Import QArith Qround Lqa Lia ZArith List Bool.
From Stdlib Require Import Permutation.
Import ListNotations.

Open Scope Q_scope.

(** ** JavaScript operators used throughout *)

(** [a ?? d]: the default applies only when the value is absent. *)
Definition nullish {A : Type} (o : option A) (d : A) : A :=
  match o with
  | Some v => v
  | None => d
  end.

(** [a || d] on an optional number: absent and zero are both falsy. *)
Definition orElse (o : option Q) (d : Q) : Q :=
  match o with
  | Some v => if Qeq_bool v 0 then d else v
  | None => d
  end.

(** [a || d] on an optional string: absent and empty are both falsy. *)
Definition orElseStr (o : option string) (d : string) : string :=
  match o with
  | Some EmptyString => d
  | Some v => v
  | None => d
  end.

(** [arr.slice(-n)]: the last [n] entries. *)
Definition slice_last {A : Type} (n : nat) (l : list A) : list A :=
  skipn (length l - n) l.

(** [arr.slice(0, n)]. *)
Definition slice_first {A : Type} (n : nat) (l : list A) : list A :=
  firstn n l.

(** [arr.slice(0, -1)]. *)
Definition slice_drop_last {A : Type} (l : list A) : list A :=
  firstn (length l - 1) l.

(** [arr.slice(1)]. *)
Definition slice_from_1 {A : Type} (l : list A) : list A :=
  skipn 1 l.

(** [Array.prototype.sort] with a comparator: the sort is stable, so with a
    consistent comparator its result is the one of a stable insertion
    sort.  [cmp a b] is the sign test [compare(a, b) <= 0]. *)
Section StableSort.
Context {A : Type} (leb : A -> A -> bool).

Fixpoint insert_sorted (a : A) (l : list A) : list A :=
  match l with
  | [] => [a]
  | b :: l' => if leb a b then a :: l else b :: insert_sorted a l'
  end.

(** Elements are inserted from the right, so that among equal elements
    the earlier one of the input stays first. *)
Fixpoint sortBy (l : list A) : list A :=
  match l with
  | [] => []
  | a :: l' => insert_sorted a (sortBy l')
  end.
End StableSort.

(** [Math.max(...xs)] of a non-empty list given as head and tail. *)
Definition Qmax (a b : Q) : Q := if Qlt_le_dec a b then b else a.

Definition maxOf (x0 : Q) (xs : list Q) : Q := fold_left Qmax xs x0.

(** ** units.ts *)

Definition MM_PER_INCH : Q := 25.4.
Definition POINTS_PER_INCH : Q := 72.

Definition mmToPixels (mm dpi : Q) : Q := (mm / MM_PER_INCH) * dpi.

Definition mmToPoints (mm : Q) : Q := (mm / MM_PER_INCH) * POINTS_PER_INCH.

Inductive PaperSize := A4 | Letter | A3 | Tabloid.
Inductive Orientation := portrait | landscape.

Record Size := { sz_width : Q; sz_height : Q }.

Definition paperSizeMm (size : PaperSize) (orientation : Orientation) : Size :=
  let base :=
    match size with
    | Letter => {| sz_width := 215.9; sz_height := 279.4 |}
    | A3 => {| sz_width := 297; sz_height := 420 |}
    | Tabloid => {| sz_width := 279.4; sz_height := 431.8 |}
    | A4 => {| sz_width := 210; sz_height := 297 |}
    end in
  match orientation with
  | portrait => base
  | landscape => {| sz_width := sz_height base; sz_height := sz_width base |}
  end.

(** ** types.ts *)

Record Snap := { snap_enabled : bool; snap_mm : Q }.

Record PaperSettings := {
  paper_size : PaperSize;
  paper_orientation : option Orientation;
  marginMm : Q;
  dpi : Q;
  paper_snap : option Snap
}.

Inductive AlignX := ax_left | ax_center | ax_right.
Inductive AlignY := ay_top | ay_center | ay_bottom | ay_middle.

(** [fit] is typed 'contain' | 'cover'; a loaded project is not validated,
    so any other value can reach the renderers: [fit_other]. *)
Inductive Fit := contain | cover | fit_other.

Record TextProps := {
  text : option string;
  fontFamily : string;
  fontSize : option Q;
  fontWeight : Q;
  color : option string
}.

Record ImageProps := {
  dataUrl : option string;
  fit : Fit
}.

Record ShapeProps := {
  shape_background : option string;
  shape_cornerRadius : option Q
}.

Inductive ElementKind :=
| text_el (t : TextProps)
| image_el (i : ImageProps)
| shape_el (s : ShapeProps).

(** The renderers treat offset, size and padding of an element as optional
    ([el.x || 0], [el.width || key.width], [el.padding ?? ...]). *)
Record KeyElement := {
  el_id : string;
  el_kind : ElementKind;
  el_x : option Q;
  el_y : option Q;
  el_width : option Q;
  el_height : option Q;
  el_zIndex : Q;
  el_alignX : option AlignX;
  el_alignY : option AlignY;
  el_padding : option Q
}.

Inductive KeyType := rect | iso_enter | big_enter.

Record KeyModel := {
  k_id : string;
  k_x : Q;
  k_y : Q;
  k_width : Q;
  k_height : Q;
  k_keyType : option KeyType;
  k_rotation : option Q;
  k_padding : Q;
  k_cornerRadius : Q;
  k_background : option string;
  k_elements : list KeyElement
}.

Record KeyboardLayout := {
  layout_id : string;
  layout_name : string;
  keys : list KeyModel
}.

Record ProjectModel := {
  project_id : string;
  project_name : string;
  paper : PaperSettings;
  layout : KeyboardLayout;
  updatedAt : string
}.

Definition set_keys (l : KeyboardLayout) (ks : list KeyModel) : KeyboardLayout :=
  {| layout_id := layout_id l; layout_name := layout_name l; keys := ks |}.

Definition set_layout (p : ProjectModel) (l : KeyboardLayout) : ProjectModel :=
  {| project_id := project_id p; project_name := project_name p;
     paper := paper p; layout := l; updatedAt := updatedAt p |}.

(** [{ ...key, x, y, rotation: 0 }] *)
Definition place_key (k : KeyModel) (x y : Q) : KeyModel :=
  {| k_id := k_id k; k_x := x; k_y := y;
     k_width := k_width k; k_height := k_height k;
     k_keyType := k_keyType k; k_rotation := Some 0;
     k_padding := k_padding k; k_cornerRadius := k_cornerRadius k;
     k_background := k_background k; k_elements := k_elements k |}.

(** ** keys.ts *)

Definition DEFAULT_KEY_SIZE : Q := 13.5.
Definition DEFAULT_KEY_GAP : Q := 2.

(** [Partial<KeyModel>] with the four required geometry fields.  The
    identifier comes from [nanoid()] when absent: it is a parameter. *)
Record KeyInput := {
  in_id : option string;
  in_x : Q;
  in_y : Q;
  in_width : Q;
  in_height : Q;
  in_keyType : option KeyType;
  in_rotation : option Q;
  in_padding : option Q;
  in_cornerRadius : option Q;
  in_background : option string;
  in_elements : option (list KeyElement)
}.

Definition createKey (fresh_id : string) (input : KeyInput) : KeyModel :=
  {| k_id := nullish (in_id input) fresh_id;
     k_x := in_x input;
     k_y := in_y input;
     k_width := in_width input;
     k_height := in_height input;
     k_keyType := Some (nullish (in_keyType input) rect);
     k_rotation := Some (nullish (in_rotation input) 0);
     k_padding := nullish (in_padding input) 2;
     k_cornerRadius := nullish (in_cornerRadius input) 2;
     k_background := Some (nullish (in_background input) "transparent"%string);
     k_elements := nullish (in_elements input) [] |}.

(** ** store.ts: the history manager *)

Module History.

Record HistoryState := {
  past : list ProjectModel;
  future : list ProjectModel
}.

Record EditorState := {
  project : ProjectModel;
  history : HistoryState;
  selectedKeys : list string;
  zoom : Q;
  snapToGrid : bool;
  gridSize : Q
}.

(** [set({ project, history })] merges into the state: the other fields
    stay as they are. *)
Definition set_project_history
    (s : EditorState) (p : ProjectModel) (h : HistoryState) : EditorState :=
  {| project := p; history := h;
     selectedKeys := selectedKeys s; zoom := zoom s;
     snapToGrid := snapToGrid s; gridSize := gridSize s |}.

(** [JSON.parse(JSON.stringify(p))]: a deep copy.  On the immutable
    values of this model, whose numbers are finite and whose optional
    fields are either present or absent, the copy is the value itself. *)
Definition jsonClone (p : ProjectModel) : ProjectModel := p.

(** [produce(project, updater)]: the updater as a pure function. *)
Definition withHistory
    (updater : ProjectModel -> ProjectModel) (s : EditorState) : EditorState :=
  let snapshot := jsonClone (project s) in
  let next := updater (project s) in
  set_project_history s next
    {| past := slice_last 30 (past (history s)) ++ [snapshot];
       future := [] |}.

Definition initialState (p : ProjectModel) : EditorState :=
  {| project := p;
     history := {| past := []; future := [] |};
     selectedKeys := []; zoom := 1; snapToGrid := true; gridSize := 2 |}.

Definition setProject (p : ProjectModel) (s : EditorState) : EditorState :=
  {| project := p;
     history := {| past := []; future := [] |};
     selectedKeys := selectedKeys s; zoom := zoom s;
     snapToGrid :=
       match paper_snap (paper p) with
       | Some sn => snap_enabled sn
       | None => true
       end;
     gridSize :=
       match paper_snap (paper p) with
       | Some sn => snap_mm sn
       | None => 2
       end |}.

(** [history.past[history.past.length - 1]] *)
Definition last_opt {A : Type} (l : list A) : option A :=
  nth_error l (length l - 1).

Definition undo (s : EditorState) : EditorState :=
  match last_opt (past (history s)) with
  | None => s
  | Some previous =>
      set_project_history s previous
        {| past := slice_drop_last (past (history s));
           future := slice_first 30 (project s :: future (history s)) |}
  end.

Definition redo (s : EditorState) : EditorState :=
  match nth_error (future (history s)) 0 with
  | None => s
  | Some next =>
      set_project_history s next
        {| past := slice_last 30 (past (history s) ++ [project s]);
           future := slice_from_1 (future (history s)) |}
  end.

(** The store operations that touch the history. *)
Inductive step : EditorState -> EditorState -> Prop :=
| step_mutation updater s : step s (withHistory updater s)
| step_undo s : step s (undo s)
| step_redo s : step s (redo s).

Inductive reachable (p0 : ProjectModel) : EditorState -> Prop :=
| reach_init : reachable p0 (initialState p0)
| reach_step s s' : reachable p0 s -> step s s' -> reachable p0 s'.

Definition history_bounded (s : EditorState) : Prop :=
  (length (past (history s)) <= 31)%nat /\
  (length (future (history s)) <= 30)%nat.

End History.

(** ** store.ts: the placement solver of [addKey] *)

(** [Partial<KeyModel>]: what [addKey] receives. *)
Record KeyPartial := {
  p_id : option string;
  p_x : option Q;
  p_y : option Q;
  p_width : option Q;
  p_height : option Q;
  p_keyType : option KeyType;
  p_rotation : option Q;
  p_padding : option Q;
  p_cornerRadius : option Q;
  p_background : option string;
  p_elements : option (list KeyElement)
}.

Definition emptyPartial : KeyPartial :=
  {| p_id := None; p_x := None; p_y := None; p_width := None;
     p_height := None; p_keyType := None; p_rotation := None;
     p_padding := None; p_cornerRadius := None; p_background := None;
     p_elements := None |}.

Module Placement.

Section Solver.
(** Size of the new key and the keys already in the layout. *)
Variables (width height : Q) (existing : list KeyModel).

Definition gap : Q := DEFAULT_KEY_GAP.

(** The test applied to one existing key [k] with [buffer = gap]. *)
Definition clear_of (x y : Q) (k : KeyModel) : bool :=
  Qle_bool (x + width + gap) (k_x k)
  || Qle_bool (k_x k + k_width k + gap) x
  || Qle_bool (y + height + gap) (k_y k)
  || Qle_bool (k_y k + k_height k + gap) y.

Definition collides (x y : Q) : bool :=
  existsb (fun k => negb (clear_of x y k)) existing.

Definition stepX : Q := width + gap.
Definition stepY : Q := height + gap.
Definition maxX : Q := 800.
Definition maxY : Q := 800.

(** The inner loop [for (x = ..; x < maxX; x += stepX)], started at
    [x].  [None]: the fuel ran out; [Some None]: the row has no free
    cell; [Some (Some x')]: the first free cell of the row.  [x + stepX]
    is the sum of two rationals; [dyadic] below names the lengths on which
    the code's sum of two doubles is that sum. *)
Fixpoint scanRow (fuel : nat) (x y : Q) : option (option Q) :=
  match fuel with
  | O => None
  | S fuel' =>
      if Qlt_le_dec x maxX then
        if collides x y then scanRow fuel' (x + stepX) y
        else Some (Some x)
      else Some None
  end.

(** The outer loop [for (y = ..; y < maxY && !found; y += stepY)]. *)
Fixpoint scanRows (fuel : nat) (y : Q) : option (option (Q * Q)) :=
  match fuel with
  | O => None
  | S fuel' =>
      if Qlt_le_dec y maxY then
        match scanRow fuel 0 y with
        | None => None
        | Some (Some x) => Some (Some (x, y))
        | Some None => scanRows fuel' (y + stepY)
        end
      else Some None
  end.

(** [placeX], [placeY]: both start at 0 and stay there when nothing is
    found. *)
Definition place (fuel : nat) : option (Q * Q) :=
  match scanRows fuel 0 with
  | None => None
  | Some (Some xy) => Some xy
  | Some None => Some (0, 0)
  end.

(** The grid cells, accumulated as the loops do. *)
Fixpoint cellX (i : nat) : Q :=
  match i with
  | O => 0
  | S i' => cellX i' + stepX
  end.

Fixpoint cellY (j : nat) : Q :=
  match j with
  | O => 0
  | S j' => cellY j' + stepY
  end.

(** Numbers of steps after which a row, and the rows, are exhausted. *)
Definition lastX : nat := Z.to_nat (Qceiling (maxX / stepX)).
Definition lastY : nat := Z.to_nat (Qceiling (maxY / stepY)).

(** What a finished scan of a row, started at cell [i], has found. *)
Definition rowResult (y : Q) (i : nat) (r : option Q) : Prop :=
  match r with
  | Some x =>
      exists n, x = cellX n /\ (i <= n)%nat /\ x < maxX /\
                collides x y = false /\
                forall m, (i <= m < n)%nat -> collides (cellX m) y = true
  | None =>
      forall m, (i <= m)%nat -> cellX m < maxX -> collides (cellX m) y = true
  end.

(** What a finished scan of the rows from row [j] on has found. *)
Definition gridResult (j : nat) (r : option (Q * Q)) : Prop :=
  match r with
  | Some (x, y) =>
      exists n j',
        x = cellX n /\ y = cellY j' /\ (j <= j')%nat /\
        x < maxX /\ y < maxY /\ collides x y = false /\
        (forall m, (m < n)%nat -> collides (cellX m) y = true) /\
        (forall j'' m, (j <= j'' < j')%nat -> cellX m < maxX ->
                       collides (cellX m) (cellY j'') = true)
  | None =>
      forall j'' m, (j <= j'')%nat -> cellY j'' < maxY -> cellX m < maxX ->
                    collides (cellX m) (cellY j'') = true
  end.

End Solver.

(** The key handed to [createKey]: [{ ...key, x, y, width, height }]. *)
Definition placedInput (key : KeyPartial) (x y w h : Q) : KeyInput :=
  {| in_id := p_id key; in_x := x; in_y := y; in_width := w; in_height := h;
     in_keyType := p_keyType key; in_rotation := p_rotation key;
     in_padding := p_padding key; in_cornerRadius := p_cornerRadius key;
     in_background := p_background key; in_elements := p_elements key |}.

(** The updater of [addKey]; [fresh_id] stands for [nanoid()] and [now]
    for the time stamp. *)
Definition addKeyDraft (fuel : nat) (fresh_id now : string)
    (key : KeyPartial) (draft : ProjectModel) : option ProjectModel :=
  let width := nullish (p_width key) DEFAULT_KEY_SIZE in
  let height := nullish (p_height key) DEFAULT_KEY_SIZE in
  let existing := keys (layout draft) in
  match place width height existing fuel with
  | None => None
  | Some (placeX, placeY) =>
      let k := createKey fresh_id (placedInput key placeX placeY width height) in
      Some {| project_id := project_id draft;
              project_name := project_name draft;
              paper := paper draft;
              layout := set_keys (layout draft) (existing ++ [k]);
              updatedAt := now |}
  end.

Definition addKey (fuel : nat) (fresh_id now : string)
    (key : KeyPartial) (s : History.EditorState) : option History.EditorState :=
  match addKeyDraft fuel fresh_id now key (History.project s) with
  | None => None
  | Some next => Some (History.withHistory (fun _ => next) s)
  end.

(** Rectangles as the design document speaks of them. *)
Record Rect := { r_x : Q; r_y : Q; r_w : Q; r_h : Q }.

Definition expand (g : Q) (r : Rect) : Rect :=
  {| r_x := r_x r - g; r_y := r_y r - g;
     r_w := r_w r + 2 * g; r_h := r_h r + 2 * g |}.

Definition intersects (a b : Rect) : Prop :=
  r_x a < r_x b + r_w b /\ r_x b < r_x a + r_w a /\
  r_y a < r_y b + r_h b /\ r_y b < r_y a + r_h a.

Definition rect_of (k : KeyModel) : Rect :=
  {| r_x := k_x k; r_y := k_y k; r_w := k_width k; r_h := k_height k |}.

(** The rectangle of the key to be added, at a candidate position. *)
Definition newRect (x y width height : Q) : Rect :=
  {| r_x := x; r_y := y; r_w := width; r_h := height |}.

(** A layout whose gap-expanded rectangles are pairwise non-overlapping. *)
Definition pairwise_apart (existing : list KeyModel) : Prop :=
  forall i j ki kj,
    i <> j -> nth_error existing i = Some ki -> nth_error existing j = Some kj ->
    ~ intersects (expand gap (rect_of ki)) (expand gap (rect_of kj)).

(** Every scanned cell is taken. *)
Definition grid_full (width height : Q) (existing : list KeyModel) : Prop :=
  forall i j,
    cellX width i < maxX -> cellY height j < maxY ->
    collides width height existing (cellX width i) (cellY height j) = true.

(** A position is free for the new key when the key's rectangle, grown by
    the gap on all sides, meets no existing key's rectangle: the new key
    keeps one gap from every existing key along x or along y.  It is
    taken when the grown rectangle meets the rectangle of some existing
    key. *)
Definition free (width height : Q) (existing : list KeyModel) (x y : Q)
    : Prop :=
  forall e, In e existing ->
    ~ intersects (expand gap (newRect x y width height)) (rect_of e).

Definition taken (width height : Q) (existing : list KeyModel) (x y : Q)
    : Prop :=
  exists e, In e existing /\
    intersects (expand gap (newRect x y width height)) (rect_of e).

(** The numbers here are rationals and their sums are exact, where the
    code adds doubles: [x += stepX] rounds, and with a width of 16.9 the
    fourth value of [x] is 56.699999999999996 and not 56.7.  The two agree
    on lengths that are multiples of 1/1024 mm and at most 2^40 mm in
    size: a double holds such a length, and every sum the scan and its
    test form of them, exactly. *)
Definition dyadic (q : Q) : bool :=
  Qeq_bool (inject_Z (Qfloor (q * 1024)) / 1024) q
  && (Z.abs (Qfloor (q * 1024)) <=? 2 ^ 50)%Z.

Definition dyadicKey (k : KeyModel) : bool :=
  dyadic (k_x k) && dyadic (k_y k)
  && dyadic (k_width k) && dyadic (k_height k).

End Placement.

(** ** App.tsx and CanvasStage.tsx: the cut-sheet reflow *)

Module CutSheet.

(** The comparator [(a, b) => a.y - b.y || a.x - b.x], as the test
    [compare(a, b) <= 0]. *)
Definition key_leb (a b : KeyModel) : bool :=
  if Qeq_bool (k_y a - k_y b) 0
  then Qle_bool (k_x a - k_x b) 0
  else Qle_bool (k_y a - k_y b) 0.

(** [sorted.map((key, idx) => ...)] from index [idx] on. *)
Fixpoint mapi_from {A B : Type} (f : nat -> A -> B) (idx : nat) (l : list A)
    : list B :=
  match l with
  | [] => []
  | a :: l' => f idx a :: mapi_from f (S idx) l'
  end.

(** [Math.max(1, Math.floor((usableWidth + gap) / (maxW + gap)))].
    [None]: the divisor is zero; the quotient is then an infinity or NaN
    and lies outside the rational model. *)
Definition perRowOf (usableWidth gap maxW : Q) : option Z :=
  if Qeq_bool (maxW + gap) 0 then None
  else Some (Z.max 1 (Qfloor ((usableWidth + gap) / (maxW + gap)))).

Definition placeAt (margin gap maxW maxH : Q) (perRow : Z)
    (idx : nat) (key : KeyModel) : KeyModel :=
  let row := (Z.of_nat idx / perRow)%Z in
  let col := (Z.of_nat idx mod perRow)%Z in
  place_key key
    (margin + inject_Z col * (maxW + gap))
    (margin + inject_Z row * (maxH + gap)).

(** The body shared by [buildCutProject] and [derivedKeys], after the
    sort; on an empty list nothing is placed. *)
Definition arrange (gap margin usableWidth : Q) (sorted : list KeyModel)
    : option (list KeyModel) :=
  match sorted with
  | [] => Some []
  | k0 :: rest =>
      let maxW := maxOf (k_width k0) (map k_width rest) in
      let maxH := maxOf (k_height k0) (map k_height rest) in
      match perRowOf usableWidth gap maxW with
      | None => None
      | Some perRow =>
          Some (mapi_from (placeAt margin gap maxW maxH perRow) 0 sorted)
      end
  end.

Definition pageWidth (project : ProjectModel) : Q :=
  sz_width (paperSizeMm (paper_size (paper project))
                        (nullish (paper_orientation (paper project)) portrait)).

(** App.tsx, [buildCutProject(project, gap = 0.3)]. *)
Definition buildCutProject (project : ProjectModel) : option ProjectModel :=
  let gap := 0.3 in
  let clone := project in
  let margin := marginMm (paper project) in
  let usableWidth := pageWidth project - margin * 2 in
  let sorted := sortBy key_leb (keys (layout project)) in
  match sorted with
  | [] => Some clone
  | _ =>
      match arrange gap margin usableWidth sorted with
      | None => None
      | Some arranged =>
          Some (set_layout clone
                  {| layout_id := layout_id (layout clone);
                     layout_name :=
                       (match layout_name (layout project) with
                        | EmptyString => "Layout"
                        | n => n
                        end ++ " (cut sheet)")%string;
                     keys := arranged |})
      end
  end.

Inductive ViewMode := view_layout | view_cut.

(** CanvasStage.tsx, the [derivedKeys] memo. *)
Definition derivedKeys (viewMode : ViewMode) (project : ProjectModel)
    : option (list KeyModel) :=
  match viewMode with
  | view_layout => Some (keys (layout project))
  | view_cut =>
      let gap := 0.8 in
      let sorted := sortBy key_leb (keys (layout project)) in
      let usableWidth := pageWidth project - marginMm (paper project) * 2 in
      arrange gap (marginMm (paper project)) usableWidth sorted
  end.

(** Axis-aligned bounding boxes (x, y, width, height) overlap. *)
Definition overlap (a b : KeyModel) : Prop :=
  k_x a < k_x b + k_width b /\ k_x b < k_x a + k_width a /\
  k_y a < k_y b + k_height b /\ k_y b < k_y a + k_height a.

(** Two keys that differ at most in x, y and rotation. *)
Definition same_but_position (a b : KeyModel) : Prop :=
  k_id a = k_id b /\ k_width a = k_width b /\ k_height a = k_height b /\
  k_keyType a = k_keyType b /\ k_padding a = k_padding b /\
  k_cornerRadius a = k_cornerRadius b /\ k_background a = k_background b /\
  k_elements a = k_elements b.

(** Size of a key as the data model has it: both dimensions positive. *)
Definition wellFormedKey (k : KeyModel) : Prop :=
  0 < k_width k /\ 0 < k_height k.

(** What the design document promises of the reflow of [input] into
    [output]. *)
Definition reflowed (input output : list KeyModel) : Prop :=
  length output = length input /\
  (forall k, In k output -> k_rotation k = Some 0) /\
  (forall i j ki kj,
      i <> j -> nth_error output i = Some ki -> nth_error output j = Some kj ->
      ~ overlap ki kj) /\
  (exists sorted,
      Permutation input sorted /\ Forall2 same_but_position sorted output).

End CutSheet.

(** ** Geometry shared by the three renderers *)

Record Point := { pt_x : Q; pt_y : Q }.

Definition Qmin (a b : Q) : Q := if Qlt_le_dec b a then b else a.

(** Axis-aligned bounding box of a non-empty vertex list:
    (min x, min y, max x, max y). *)
Record BBox := { min_x : Q; min_y : Q; max_x : Q; max_y : Q }.

Definition bbox_add (b : BBox) (p : Point) : BBox :=
  {| min_x := Qmin (min_x b) (pt_x p); min_y := Qmin (min_y b) (pt_y p);
     max_x := Qmax (max_x b) (pt_x p); max_y := Qmax (max_y b) (pt_y p) |}.

Definition bbox (pts : list Point) : option BBox :=
  match pts with
  | [] => None
  | p :: rest =>
      Some (fold_left bbox_add rest
              {| min_x := pt_x p; min_y := pt_y p;
                 max_x := pt_x p; max_y := pt_y p |})
  end.

Definition bbox_width (b : BBox) : Q := max_x b - min_x b.
Definition bbox_height (b : BBox) : Q := max_y b - min_y b.

(** An outline of six vertices whose bounding box is [w] by [h]. *)
Definition sixVerticesIn (outline : list Point) (w h : Q) : Prop :=
  length outline = 6%nat /\
  exists b, bbox outline = Some b /\ bbox_width b == w /\ bbox_height b == h.

(** The region enclosed by a closed outline, by the even-odd rule: a
    horizontal ray from [p] to the right crosses an odd number of edges.
    The crossing test divides by the edge's height only when the edge is
    not horizontal. *)
Definition Qltb (a b : Q) : bool := if Qlt_le_dec a b then true else false.

Definition crosses (p a b : Point) : bool :=
  negb (Bool.eqb (Qltb (pt_y p) (pt_y a)) (Qltb (pt_y p) (pt_y b)))
  && Qltb (pt_x p)
       ((pt_x b - pt_x a) * (pt_y p - pt_y a) / (pt_y b - pt_y a) + pt_x a).

Fixpoint edges_from (first prev : Point) (rest : list Point)
    : list (Point * Point) :=
  match rest with
  | [] => [(prev, first)]
  | q :: rest' => (prev, q) :: edges_from first q rest'
  end.

(** Consecutive vertices, the last one joined back to the first. *)
Definition edges (outline : list Point) : list (Point * Point) :=
  match outline with
  | [] => []
  | p :: rest => edges_from p p rest
  end.

Definition inside (outline : list Point) (p : Point) : bool :=
  Nat.odd (List.length (filter (fun e => crosses p (fst e) (snd e)) (edges outline))).

Definition mkPoint (x y : Q) : Point := {| pt_x := x; pt_y := y |}.

(** An L of six vertices between the lines x = [xl], [xm], [xr] and
    y = [yt], [ym], [yb]: the band from [yt] to [ym] over [xl]..[xr] and
    the band from [ym] to [yb] over [xm]..[xr]. *)
Definition ellOutline (xl xr xm yt ym yb : Q) : list Point :=
  [ mkPoint xl yt; mkPoint xr yt; mkPoint xr yb;
    mkPoint xm yb; mkPoint xm ym; mkPoint xl ym ].

Definition ellRegion (xl xr xm yt ym yb : Q) (p : Point) : Prop :=
  (yt <= pt_y p /\ pt_y p < ym /\ xl <= pt_x p /\ pt_x p < xr)
  \/ (ym <= pt_y p /\ pt_y p < yb /\ xm <= pt_x p /\ pt_x p < xr).

(** The L of an ISO enter key as the SVG exporter and the canvas draw it,
    in a frame with y pointing down: the top half of the height over the
    full width, the bottom half over the right-hand strip of width
    [h / 2].  The part left out is the bottom-left rectangle. *)
Definition isoEnterRegion (x y w h : Q) (p : Point) : Prop :=
  (y <= pt_y p /\ pt_y p < y + h / 2 /\ x <= pt_x p /\ pt_x p < x + w)
  \/ (y + h / 2 <= pt_y p /\ pt_y p < y + h /\
      x + w - h / 2 <= pt_x p /\ pt_x p < x + w).

(** The key's own rectangle, and its bottom-left part beside the strip:
    [w - h / 2] wide and [h / 2] high. *)
Definition keyBox (x y w h : Q) (p : Point) : Prop :=
  x <= pt_x p /\ pt_x p < x + w /\ y <= pt_y p /\ pt_y p < y + h.

Definition bottomLeftPart (x y w h : Q) (p : Point) : Prop :=
  x <= pt_x p /\ pt_x p < x + w - h / 2 /\
  y + h / 2 <= pt_y p /\ pt_y p < y + h.

(** The part of the strip left of the key's left edge, on a key narrower
    than half its height. *)
Definition overhang (x y w h : Q) (p : Point) : Prop :=
  x + w - h / 2 <= pt_x p /\ pt_x p < x /\
  y + h / 2 <= pt_y p /\ pt_y p < y + h.

(** The L the design document describes: the bounding box without a
    square of side [h / 2] at its top-right corner. *)
Definition notchTopRightRegion (x y w h : Q) (p : Point) : Prop :=
  (y <= pt_y p /\ pt_y p < y + h /\ x <= pt_x p /\ pt_x p < x + w)
  /\ ~ (pt_y p < y + h / 2 /\ x + w - h / 2 <= pt_x p).

(** The padding in force for an element in the exporters:
    [el.padding ?? key.padding ?? 0]; [key.padding] is a required field,
    so the last default is never taken. *)
Definition effectivePadding (key : KeyModel) (el : KeyElement) : Q :=
  nullish (el_padding el) (k_padding key).

(** A rectangle in some unit: origin and size. *)
Record Box := { box_x : Q; box_y : Q; box_w : Q; box_h : Q }.

Definition Box_eq (a b : Box) : Prop :=
  box_x a == box_x b /\ box_y a == box_y b /\
  box_w a == box_w b /\ box_h a == box_h b.

(** The element placer as the design document words it: in key-local
    millimetres, with the y axis pointing down,
    (x_local + p, y_local + p, width - 2p, height - 2p), where p is the
    element's padding when present and the key's otherwise, and offset and
    size default to the key's bounds. *)
Definition placerBox (key : KeyModel) (el : KeyElement) : Box :=
  let p := effectivePadding key el in
  {| box_x := orElse (el_x el) 0 + p;
     box_y := orElse (el_y el) 0 + p;
     box_w := orElse (el_width el) (k_width key) - 2 * p;
     box_h := orElse (el_height el) (k_height key) - 2 * p |}.

(** A text element that covers its key. *)
Definition fillsKey (key : KeyModel) (el : KeyElement) : Prop :=
  orElse (el_x el) 0 == 0 /\ orElse (el_y el) 0 == 0 /\
  orElse (el_width el) (k_width key) == k_width key /\
  orElse (el_height el) (k_height key) == k_height key.

(** ** JavaScript numbers with infinities and NaN, for the image fit *)

Module JSNum.

(** Zero stands for +0; the sign of a zero is not tracked. *)
Inductive jsnum := Fin (q : Q) | PInf | NInf | NaN.

Definition sign_inf (positive : bool) : jsnum :=
  if positive then PInf else NInf.

Definition div (a b : jsnum) : jsnum :=
  match a, b with
  | NaN, _ | _, NaN => NaN
  | Fin x, Fin y =>
      if Qeq_bool y 0 then
        if Qeq_bool x 0 then NaN else sign_inf (Qle_bool 0 x)
      else Fin (x / y)
  | Fin _, PInf | Fin _, NInf => Fin 0
  | PInf, Fin y => sign_inf (Qle_bool 0 y)
  | NInf, Fin y => sign_inf (negb (Qle_bool 0 y))
  | _, _ => NaN
  end.

Definition mul (a b : jsnum) : jsnum :=
  match a, b with
  | NaN, _ | _, NaN => NaN
  | Fin x, Fin y => Fin (x * y)
  | Fin x, PInf | PInf, Fin x =>
      if Qeq_bool x 0 then NaN else sign_inf (Qle_bool 0 x)
  | Fin x, NInf | NInf, Fin x =>
      if Qeq_bool x 0 then NaN else sign_inf (negb (Qle_bool 0 x))
  | PInf, PInf | NInf, NInf => PInf
  | PInf, NInf | NInf, PInf => NInf
  end.

Definition add (a b : jsnum) : jsnum :=
  match a, b with
  | NaN, _ | _, NaN => NaN
  | Fin x, Fin y => Fin (x + y)
  | PInf, NInf | NInf, PInf => NaN
  | PInf, _ | _, PInf => PInf
  | NInf, _ | _, NInf => NInf
  end.

Definition neg (a : jsnum) : jsnum :=
  match a with
  | Fin x => Fin (- x)
  | PInf => NInf
  | NInf => PInf
  | NaN => NaN
  end.

Definition sub (a b : jsnum) : jsnum := add a (neg b).

(** [a < b]; false as soon as one side is NaN. *)
Definition lt (a b : jsnum) : bool :=
  match a, b with
  | NaN, _ | _, NaN => false
  | Fin x, Fin y => if Qlt_le_dec x y then true else false
  | NInf, NInf | PInf, _ => false
  | NInf, _ => true
  | Fin _, PInf => true
  | Fin _, NInf => false
  end.

Definition gt (a b : jsnum) : bool := lt b a.

End JSNum.

(** ** The image fit, written out alike in exporters.ts and CanvasStage.tsx *)

Module ImageFit.
Import JSNum.

Record Drawn := {
  offsetX : jsnum; offsetY : jsnum; drawW : jsnum; drawH : jsnum
}.

(** [drawW], [drawH] from the available size and the natural size of the
    image.  There is no test on [image.height]. *)
Definition drawSize (fit : Fit) (availW availH imgW imgH : jsnum)
    : jsnum * jsnum :=
  let naturalRatio := div imgW imgH in
  let areaRatio := div availW availH in
  match fit with
  | contain =>
      if gt areaRatio naturalRatio
      then (mul availH naturalRatio, availH)
      else (availW, div availW naturalRatio)
  | cover =>
      if lt areaRatio naturalRatio
      then (mul availH naturalRatio, availH)
      else (availW, div availW naturalRatio)
  | fit_other => (availW, availH)
  end.

(** [x], [y]: origin of the available rectangle ([elX], [elY] in the PDF
    exporter). *)
Definition imageFit (fit : Fit) (alignX : option AlignX) (alignY : option AlignY)
    (x y availW availH imgW imgH : jsnum) : Drawn :=
  let '(dW, dH) := drawSize fit availW availH imgW imgH in
  let aX := nullish alignX ax_center in
  let aY := nullish alignY ay_center in
  {| offsetX :=
       match aX with
       | ax_center => add x (div (sub availW dW) (Fin 2))
       | ax_right => add x (sub availW dW)
       | ax_left => x
       end;
     offsetY :=
       match aY with
       | ay_center => add y (div (sub availH dH) (Fin 2))
       | ay_bottom => add y (sub availH dH)
       | _ => y
       end;
     drawW := dW;
     drawH := dH |}.

End ImageFit.

(** ** exporters.ts: the SVG exporter *)

Module Svg.

Definition pt (x y : Q) : Point := {| pt_x := x; pt_y := y |}.

(** Vertices of the key outline in page millimetres; [x], [y] are
    [margin + key.x] and [margin + key.y].  A rect key is emitted as a
    [<rect>]; its four corners are listed clockwise from the top left. *)
Definition outline (x y : Q) (key : KeyModel) : list Point :=
  match k_keyType key with
  | Some iso_enter =>
      let topH := k_height key / 2 in
      let squareW := k_height key / 2 in
      [ pt x y;
        pt (x + k_width key) y;
        pt (x + k_width key) (y + k_height key);
        pt (x + k_width key - squareW) (y + k_height key);
        pt (x + k_width key - squareW) (y + topH);
        pt x (y + topH) ]
  | Some big_enter =>
      let topH := k_height key / 2 in
      let topW := Qmin (k_width key) 20.25 in
      [ pt x (y + k_height key);
        pt (x + k_width key) (y + k_height key);
        pt (x + k_width key) y;
        pt (x + k_width key - topW) y;
        pt (x + k_width key - topW) (y + topH);
        pt x (y + topH) ]
  | _ =>
      [ pt x y;
        pt (x + k_width key) y;
        pt (x + k_width key) (y + k_height key);
        pt x (y + k_height key) ]
  end.

(** x, y, width, height attributes of a shape or image element. *)
Definition elementBox (x y : Q) (key : KeyModel) (el : KeyElement) : Box :=
  let pad := effectivePadding key el in
  {| box_x := x + orElse (el_x el) 0 + pad;
     box_y := y + orElse (el_y el) 0 + pad;
     box_w := orElse (el_width el) (k_width key) - pad * 2;
     box_h := orElse (el_height el) (k_height key) - pad * 2 |}.

(** x and y attributes of a [<text>]: y is the baseline. *)
Definition textPos (x y : Q) (key : KeyModel) (el : KeyElement)
    (t : TextProps) : Point :=
  let pad := effectivePadding key el in
  pt (x + orElse (el_x el) 0 + pad + 2)
     (y + orElse (el_y el) 0 + pad + orElse (fontSize t) 10 + 2).

(** Where the text starts, relative to the key's top-left corner, in
    millimetres. *)
Definition textOffset (margin : Q) (key : KeyModel) (el : KeyElement)
    (t : TextProps) : Point :=
  let x := margin + k_x key in
  let y := margin + k_y key in
  let p := textPos x y key el t in
  pt (pt_x p - x) (pt_y p - y).

End Svg.

(** ** exporters.ts: the PDF exporter (points, origin bottom left, y up) *)

Module Pdf.

Definition pt (x y : Q) : Point := {| pt_x := x; pt_y := y |}.

Section Exporter.
(** [Math.cos(degToRad(d))] and [Math.sin(degToRad(d))] of an angle in
    degrees. *)
Variables (cosDeg sinDeg : Q -> Q).

Record KeyFrame := {
  originX : Q; originY : Q;
  keyWidthPt : Q; keyHeightPt : Q;
  rotationDeg : Q;
  cx : Q; cy : Q
}.

(** [height] is the page height in millimetres. *)
Definition keyFrame (height margin : Q) (key : KeyModel) : KeyFrame :=
  let keyWidthPt := mmToPoints (k_width key) in
  let keyHeightPt := mmToPoints (k_height key) in
  let originX := mmToPoints (margin + k_x key) in
  let originY := mmToPoints (height - margin - k_y key - k_height key) in
  {| originX := originX; originY := originY;
     keyWidthPt := keyWidthPt; keyHeightPt := keyHeightPt;
     rotationDeg := - orElse (k_rotation key) 0;
     cx := originX + keyWidthPt / 2;
     cy := originY + keyHeightPt / 2 |}.

Definition rotPt (f : KeyFrame) (x y : Q) : Point :=
  if Qeq_bool (rotationDeg f) 0 then pt x y
  else
    let dx := x - cx f in
    let dy := y - cy f in
    pt (cx f + dx * cosDeg (rotationDeg f) - dy * sinDeg (rotationDeg f))
       (cy f + dx * sinDeg (rotationDeg f) + dy * cosDeg (rotationDeg f)).

Definition rawOutline (f : KeyFrame) (key : KeyModel) : list Point :=
  match k_keyType key with
  | Some iso_enter =>
      let topH := k_height key / 2 in
      let squareW := k_height key / 2 in
      [ pt (originX f) (originY f);
        pt (originX f + keyWidthPt f) (originY f);
        pt (originX f + keyWidthPt f) (originY f + keyHeightPt f);
        pt (originX f + keyWidthPt f - mmToPoints squareW)
           (originY f + keyHeightPt f);
        pt (originX f + keyWidthPt f - mmToPoints squareW)
           (originY f + mmToPoints topH);
        pt (originX f) (originY f + mmToPoints topH) ]
  | Some big_enter =>
      let topH := k_height key / 2 in
      let topW := Qmin (k_width key) 20.25 in
      [ pt (originX f) (originY f + keyHeightPt f);
        pt (originX f + keyWidthPt f) (originY f + keyHeightPt f);
        pt (originX f + keyWidthPt f) (originY f);
        pt (originX f + keyWidthPt f - mmToPoints topW) (originY f);
        pt (originX f + keyWidthPt f - mmToPoints topW)
           (originY f + mmToPoints topH);
        pt (originX f) (originY f + mmToPoints topH) ]
  | _ =>
      [ pt (originX f) (originY f);
        pt (originX f + keyWidthPt f) (originY f);
        pt (originX f + keyWidthPt f) (originY f + keyHeightPt f);
        pt (originX f) (originY f + keyHeightPt f) ]
  end.

Definition outline (f : KeyFrame) (key : KeyModel) : list Point :=
  map (fun p => rotPt f (pt_x p) (pt_y p)) (rawOutline f key).

(** [elX], [elY], [elWidth], [elHeight], before rotation. *)
Definition elementBox (f : KeyFrame) (key : KeyModel) (el : KeyElement) : Box :=
  let pad := effectivePadding key el in
  {| box_x := originX f + mmToPoints (orElse (el_x el) 0 + pad);
     box_y := originY f
              + mmToPoints (k_height key - orElse (el_y el) 0
                            - orElse (el_height el) (k_height key) + pad);
     box_w := mmToPoints (orElse (el_width el) (k_width key) - pad * 2);
     box_h := mmToPoints (orElse (el_height el) (k_height key) - pad * 2) |}.

(** [textX], [textY] of a text element, before rotation. *)
Definition textXY (f : KeyFrame) (key : KeyModel) (el : KeyElement)
    (t : TextProps) : Point :=
  let b := elementBox f key el in
  pt (box_x b + 2) (box_y b + box_h b / 2 - orElse (fontSize t) 10 / 2).

(** The origin handed to [page.drawText]. *)
Definition textOrigin (f : KeyFrame) (key : KeyModel) (el : KeyElement)
    (t : TextProps) : Point :=
  let p := textXY f key el t in
  rotPt f (pt_x p) (pt_y p).

(** The image fit of an image element whose embedded image has size
    [imgW] by [imgH]. *)
Definition imageDrawn (f : KeyFrame) (key : KeyModel) (el : KeyElement)
    (i : ImageProps) (imgW imgH : Q) : ImageFit.Drawn :=
  let b := elementBox f key el in
  ImageFit.imageFit (fit i) (el_alignX el) (el_alignY el)
    (JSNum.Fin (box_x b)) (JSNum.Fin (box_y b))
    (JSNum.Fin (box_w b)) (JSNum.Fin (box_h b))
    (JSNum.Fin imgW) (JSNum.Fin imgH).
End Exporter.

Definition pageHeight (project : ProjectModel) : Q :=
  sz_height (paperSizeMm (paper_size (paper project))
                         (nullish (paper_orientation (paper project)) portrait)).

(** Where the text starts, relative to the key's top-left corner, in
    points: to the right of the left edge and below the top edge. *)
Definition textOffset (cosDeg sinDeg : Q -> Q) (f : KeyFrame) (key : KeyModel)
    (el : KeyElement) (t : TextProps) : Point :=
  let o := textOrigin cosDeg sinDeg f key el t in
  pt (pt_x o - originX f) (originY f + keyHeightPt f - pt_y o).

End Pdf.

(** ** CanvasStage.tsx: the interactive renderer (pixels, key-local frame) *)

Module Canvas.

Definition pt (x y : Q) : Point := {| pt_x := x; pt_y := y |}.

(** [wPx], [hPx] of a key. *)
Definition wPx (dpi effectiveScale : Q) (key : KeyModel) : Q :=
  mmToPixels (k_width key) dpi * effectiveScale.

Definition hPx (dpi effectiveScale : Q) (key : KeyModel) : Q :=
  mmToPixels (k_height key) dpi * effectiveScale.

(** The points of the closed [Line] of an enter key, or the corners of
    the [Rect], in the frame of the key's group. *)
Definition outline (dpi effectiveScale : Q) (key : KeyModel) : list Point :=
  let w := wPx dpi effectiveScale key in
  let h := hPx dpi effectiveScale key in
  match k_keyType key with
  | Some iso_enter =>
      let topH := h / 2 in
      let squareW := h / 2 in
      [ pt 0 0; pt w 0; pt w h; pt (w - squareW) h;
        pt (w - squareW) topH; pt 0 topH ]
  | Some big_enter =>
      let topH := h / 2 in
      let squareW := Qmin w (mmToPixels 20.25 dpi * effectiveScale) in
      [ pt 0 h; pt w h; pt w 0; pt (w - squareW) 0;
        pt (w - squareW) topH; pt 0 topH ]
  | _ => [ pt 0 0; pt w 0; pt w h; pt 0 h ]
  end.

(** [ElementRenderer]: x, y, width, height.  [dpi] is the value the
    component receives, [project.paper.dpi * effectiveScale]. *)
Definition elementBox (dpi : Q) (keyModel : KeyModel) (element : KeyElement)
    : Box :=
  {| box_x := mmToPixels (orElse (el_x element) 0 + k_padding keyModel) dpi;
     box_y := mmToPixels (orElse (el_y element) 0 + k_padding keyModel) dpi;
     box_w := mmToPixels (orElse (el_width element) (k_width keyModel)) dpi
              - mmToPixels (k_padding keyModel * 2) dpi;
     box_h := mmToPixels (orElse (el_height element) (k_height keyModel)) dpi
              - mmToPixels (k_padding keyModel * 2) dpi |}.

Definition imageDrawn (dpi : Q) (keyModel : KeyModel) (element : KeyElement)
    (i : ImageProps) (imgW imgH : Q) : ImageFit.Drawn :=
  let b := elementBox dpi keyModel element in
  ImageFit.imageFit (fit i) (el_alignX element) (el_alignY element)
    (JSNum.Fin (box_x b)) (JSNum.Fin (box_y b))
    (JSNum.Fin (box_w b)) (JSNum.Fin (box_h b))
    (JSNum.Fin imgW) (JSNum.Fin imgH).

End Canvas.

(** ** exporters.ts: the SVG markup *)

Module SvgMarkup.
Open Scope string_scope.

(** The double quote character, and the single quote. *)
Definition dquote : ascii := "034"%char.
Definition squote : ascii := "039"%char.
Definition dq : string := String dquote EmptyString.

(** [str.replace(/c/g, r)] for a one-character pattern. *)
Fixpoint replaceAll (c : ascii) (r : string) (str : string) : string :=
  match str with
  | EmptyString => EmptyString
  | String a rest =>
      if Ascii.eqb a c then r ++ replaceAll c r rest
      else String a (replaceAll c r rest)
  end.

Definition escapeHtml (str : string) : string :=
  replaceAll squote "&#039;"
    (replaceAll dquote "&quot;"
      (replaceAll ">" "&gt;"
        (replaceAll "<" "&lt;"
          (replaceAll "&" "&amp;" str)))).

Section Exporter.
(** The conversion of a number inside a template literal. *)
Variable show : Q -> string.

Definition quoted (s : string) : string := dq ++ s ++ dq.

(** [el.fontFamily], [el.color] and the identifiers are interpolated as
    they are. *)
Definition textOpenTag (x y : Q) (key : KeyModel) (el : KeyElement)
    (t : TextProps) : string :=
  let p := Svg.textPos x y key el t in
  "<text x=" ++ quoted (show (pt_x p))
  ++ " y=" ++ quoted (show (pt_y p))
  ++ " font-family=" ++ quoted (fontFamily t)
  ++ " font-size=" ++ quoted (show (orElse (fontSize t) 10))
  ++ " fill=" ++ quoted (orElseStr (color t) "#f8fafc")
  ++ ">".

Definition textMarkup (x y : Q) (key : KeyModel) (el : KeyElement)
    (t : TextProps) : string :=
  textOpenTag x y key el t
  ++ escapeHtml (orElseStr (text t) EmptyString) ++ "</text>".

Definition shapeMarkup (x y : Q) (key : KeyModel) (el : KeyElement)
    (s : ShapeProps) : string :=
  let b := Svg.elementBox x y key el in
  "<rect x=" ++ quoted (show (box_x b))
  ++ " y=" ++ quoted (show (box_y b))
  ++ " width=" ++ quoted (show (box_w b))
  ++ " height=" ++ quoted (show (box_h b))
  ++ " rx=" ++ quoted (show (orElse (shape_cornerRadius s) 0))
  ++ " fill=" ++ quoted (orElseStr (shape_background s) "#1e293b")
  ++ " />".

Definition imageMarkup (x y : Q) (key : KeyModel) (el : KeyElement)
    (i : ImageProps) (url : string) : string :=
  let b := Svg.elementBox x y key el in
  "<image href=" ++ quoted url
  ++ " x=" ++ quoted (show (box_x b))
  ++ " y=" ++ quoted (show (box_y b))
  ++ " width=" ++ quoted (show (box_w b))
  ++ " height=" ++ quoted (show (box_h b))
  ++ " preserveAspectRatio="
  ++ quoted (match fit i with
             | contain => "xMidYMid meet"
             | _ => "xMidYMid slice"
             end)
  ++ " />".

(** What one element pushes onto [svgParts]. *)
Definition elementParts (x y : Q) (key : KeyModel) (el : KeyElement)
    : list string :=
  match el_kind el with
  | shape_el s => [shapeMarkup x y key el s]
  | text_el t => [textMarkup x y key el t]
  | image_el i =>
      match dataUrl i with
      | Some (String c u) => [imageMarkup x y key el i (String c u)]
      | _ => []
      end
  end.

Definition zIndex_leb (a b : KeyElement) : bool :=
  Qle_bool (el_zIndex a - el_zIndex b) 0.

Definition fillOf (key : KeyModel) : string :=
  match k_background key with
  | Some EmptyString | None => "none"
  | Some b => if String.eqb b "transparent" then "none" else b
  end.

Definition pathCommand (cmd : string) (p : Point) : string :=
  cmd ++ " " ++ show (pt_x p) ++ " " ++ show (pt_y p).

(** [['M x y', 'L x y', ..., 'Z'].join(' ')] *)
Definition pathData (outline : list Point) : string :=
  match outline with
  | [] => "Z"
  | p :: rest =>
      String.concat " "
        (pathCommand "M" p :: map (pathCommand "L") rest ++ ["Z"])
  end.

Definition outlineMarkup (x y : Q) (key : KeyModel) : string :=
  match k_keyType key with
  | Some iso_enter | Some big_enter =>
      "<path d=" ++ quoted (pathData (Svg.outline x y key))
      ++ " fill=" ++ quoted (fillOf key)
      ++ " stroke=" ++ quoted "#000"
      ++ " stroke-width=" ++ quoted "0.3" ++ " />"
  | _ =>
      "<rect x=" ++ quoted (show x)
      ++ " y=" ++ quoted (show y)
      ++ " width=" ++ quoted (show (k_width key))
      ++ " height=" ++ quoted (show (k_height key))
      ++ " rx=" ++ quoted (show (k_cornerRadius key))
      ++ " fill=" ++ quoted (fillOf key)
      ++ " stroke=" ++ quoted "#000"
      ++ " stroke-width=" ++ quoted "0.3" ++ " />"
  end.

Definition keyParts (margin : Q) (key : KeyModel) : list string :=
  let x := (margin + k_x key)%Q in
  let y := (margin + k_y key)%Q in
  let cx := (x + k_width key / 2)%Q in
  let cy := (y + k_height key / 2)%Q in
  let rotation := orElse (k_rotation key) 0 in
  let transform :=
    if Qeq_bool rotation 0 then EmptyString
    else " transform=" ++ quoted ("rotate(" ++ show rotation ++ " "
                                  ++ show cx ++ " " ++ show cy ++ ")") in
  ("<g id=" ++ quoted (k_id key) ++ transform ++ ">")
  :: outlineMarkup x y key
  :: flat_map (elementParts x y key) (sortBy zIndex_leb (k_elements key))
  ++ ["</g>"].

Definition svgParts (project : ProjectModel) : list string :=
  let sz := paperSizeMm (paper_size (paper project))
              (nullish (paper_orientation (paper project)) portrait) in
  let width := sz_width sz in
  let height := sz_height sz in
  let margin := marginMm (paper project) in
  ("<svg xmlns=" ++ quoted "http://www.w3.org/2000/svg"
   ++ " width=" ++ quoted (show width ++ "mm")
   ++ " height=" ++ quoted (show height ++ "mm")
   ++ " viewBox=" ++ quoted ("0 0 " ++ show width ++ " " ++ show height)
   ++ ">")
  :: flat_map (keyParts margin) (keys (layout project))
  ++ ["</svg>"].

Definition exportProjectToSvg (project : ProjectModel) : string :=
  String.concat EmptyString (svgParts project).
End Exporter.

(** The five characters the escape replaces, and their entities. *)
Definition escapeChar (a : ascii) : string :=
  if Ascii.eqb a "&" then "&amp;"
  else if Ascii.eqb a "<" then "&lt;"
  else if Ascii.eqb a ">" then "&gt;"
  else if Ascii.eqb a dquote then "&quot;"
  else if Ascii.eqb a squote then "&#039;"
  else String a EmptyString.

(** The escape in one pass over the text. *)
Fixpoint escapeAll (str : string) : string :=
  match str with
  | EmptyString => EmptyString
  | String a rest => escapeChar a ++ escapeAll rest
  end.

Definition special (a : ascii) : bool :=
  Ascii.eqb a "&" || Ascii.eqb a "<" || Ascii.eqb a ">"
  || Ascii.eqb a dquote || Ascii.eqb a squote.

Definition entities : list string :=
  ["&amp;"; "&lt;"; "&gt;"; "&quot;"; "&#039;"].

Fixpoint occurs (a : ascii) (s : string) : bool :=
  match s with
  | EmptyString => false
  | String b rest => Ascii.eqb a b || occurs a rest
  end.

(** Text in which the five characters occur only inside entities. *)
Inductive escaped : string -> Prop :=
| escaped_nil : escaped EmptyString
| escaped_plain a s : special a = false -> escaped s -> escaped (String a s)
| escaped_entity e s : In e entities -> escaped s -> escaped (e ++ s).

End SvgMarkup.

(** ** Sample values used to exercise the definitions *)

Module Samples.
Open Scope string_scope.

Definition a4Paper : PaperSettings :=
  {| paper_size := A4; paper_orientation := Some portrait;
     marginMm := 6; dpi := 300; paper_snap := None |}.

Definition projectOf (name : string) (ks : list KeyModel) : ProjectModel :=
  {| project_id := "p"; project_name := name; paper := a4Paper;
     layout := {| layout_id := "l"; layout_name := "Macro Pad"; keys := ks |};
     updatedAt := "2024-01-01T00:00:00.000Z" |}.

Definition keyAt (id : string) (ty : KeyType) (x y w h : Q)
    (els : list KeyElement) : KeyModel :=
  createKey id
    {| in_id := None; in_x := x; in_y := y; in_width := w; in_height := h;
       in_keyType := Some ty; in_rotation := None; in_padding := None;
       in_cornerRadius := None; in_background := None;
       in_elements := Some els |}.

(** [createTextElement] of store.ts with a given label, stretched over a
    key of the given size. *)
Definition textElement (label : string) (w h : Q) (pad : option Q)
    (size : option Q) : KeyElement :=
  {| el_id := "t";
     el_kind := text_el {| text := Some label; fontFamily := "Inter";
                           fontSize := size; fontWeight := 600;
                           color := Some "#f8fafc" |};
     el_x := Some 0; el_y := Some 0;
     el_width := Some w; el_height := Some h;
     el_zIndex := 2; el_alignX := Some ax_center;
     el_alignY := Some ay_middle; el_padding := pad |}.

Definition imageProps (f : Fit) : ImageProps :=
  {| dataUrl := Some "data:image/png;base64,AAAA"; fit := f |}.

Definition imageElement (f : Fit) (w h : Q) : KeyElement :=
  {| el_id := "i";
     el_kind := image_el (imageProps f);
     el_x := Some 0; el_y := Some 0;
     el_width := Some w; el_height := Some h;
     el_zIndex := 3; el_alignX := None; el_alignY := None;
     el_padding := None |}.

Definition emptyProject : ProjectModel := projectOf "Keyboarder" [].
Definition editedProject : ProjectModel := projectOf "Edited" [].

(** One mutation, then undo: nothing left to undo, one step to redo. *)
Definition afterUndo : History.EditorState :=
  History.undo
    (History.withHistory (fun _ => editedProject)
       (History.initialState emptyProject)).

(** A key that covers the whole extent the solver scans. *)
Definition giantKey : KeyModel := keyAt "big" rect 0 0 800 800 [].

(** The label [createTextElement] makes, with its own padding of 2 mm. *)
Definition paddedLabel : KeyElement :=
  textElement "A" DEFAULT_KEY_SIZE DEFAULT_KEY_SIZE (Some 2) (Some 11).

(** A key of the default size whose padding was set to 1 mm, holding that
    label. *)
Definition thinPaddedKey : KeyModel :=
  createKey "k"
    {| in_id := None; in_x := 0; in_y := 0;
       in_width := DEFAULT_KEY_SIZE; in_height := DEFAULT_KEY_SIZE;
       in_keyType := None; in_rotation := None; in_padding := Some 1;
       in_cornerRadius := None; in_background := None;
       in_elements := Some [paddedLabel] |}.

Definition labelProps : TextProps :=
  {| text := Some "A"; fontFamily := "Inter"; fontSize := Some 11;
     fontWeight := 600; color := Some "#f8fafc" |}.

(** The scenario of the design document: one rect key at (0, 0), 18 mm by
    18 mm, rotation 0, with one label over the whole key. *)
Definition wideLabel : KeyElement :=
  textElement "A" 18 18 (Some 2) (Some 11).

Definition labelledKey : KeyModel := keyAt "k" rect 0 0 18 18 [wideLabel].

Definition labelledProject : ProjectModel := projectOf "scenario" [labelledKey].



(** Cosine and sine as far as a key without rotation needs them. *)
(** A stand-in for the conversion of numbers in template literals. *)
Definition showInteger (q : Q) : string :=
  match Qfloor q with
  | Z0 => "0"
  | Zpos _ => "+"
  | Zneg _ => "-"
  end.

Definition markupLabel : KeyElement :=
  textElement "<b> & 'c'" 18 18 (Some 2) (Some 11).

Definition markupProps : TextProps :=
  {| text := Some "<b> & 'c'"; fontFamily := "Inter"; fontSize := Some 11;
     fontWeight := 600; color := Some "#f8fafc" |}.

Definition markupKey : KeyModel := keyAt "k" rect 0 0 18 18 [markupLabel].

Definition cosAtZero (d : Q) : Q := 1.
Definition sinAtZero (d : Q) : Q := 0.

(** The ISO enter key of the design document's scenario. *)
Definition isoEnterKey : KeyModel := keyAt "enter" iso_enter 0 0 20.25 27 [].

Definition threeKeys : list KeyModel :=
  [ keyAt "k1" rect 40 0 18 18 [];
    keyAt "k2" iso_enter 0 20 20.25 27 [];
    keyAt "k3" rect 0 0 18 18 [] ].

Fixpoint mutate (n : nat) (s : History.EditorState) : History.EditorState :=
  match n with
  | O => s
  | S n' => History.withHistory (fun p => p) (mutate n' s)
  end.
End Samples.

From Stdlib Require Import Sorted.

(** ** store.ts: the other mutations *)

Module Store.
Import History.

(** [ids.includes(id)] *)
Definition includes (ids : list string) (id : string) : bool :=
  existsb (String.eqb id) ids.

(** [keys.find((k) => k.id === id)] *)
Definition findKey (id : string) (ks : list KeyModel) : option KeyModel :=
  find (fun k => String.eqb (k_id k) id) ks.

(** A change made through the draft to the key that [find] returns: the
    first key with that identifier. *)
Fixpoint updateFirst (id : string) (f : KeyModel -> KeyModel)
    (ks : list KeyModel) : list KeyModel :=
  match ks with
  | [] => []
  | k :: rest =>
      if String.eqb (k_id k) id then f k :: rest
      else k :: updateFirst id f rest
  end.

(** The draft with its keys replaced and [updatedAt] renewed. *)
Definition touch (draft : ProjectModel) (ks : list KeyModel) (now : string)
    : ProjectModel :=
  {| project_id := project_id draft; project_name := project_name draft;
     paper := paper draft; layout := set_keys (layout draft) ks;
     updatedAt := now |}.

(** [Object.assign(key, patch)] *)
Definition assignKey (patch : KeyPartial) (k : KeyModel) : KeyModel :=
  {| k_id := nullish (p_id patch) (k_id k);
     k_x := nullish (p_x patch) (k_x k);
     k_y := nullish (p_y patch) (k_y k);
     k_width := nullish (p_width patch) (k_width k);
     k_height := nullish (p_height patch) (k_height k);
     k_keyType := match p_keyType patch with
                  | Some t => Some t
                  | None => k_keyType k
                  end;
     k_rotation := match p_rotation patch with
                   | Some r => Some r
                   | None => k_rotation k
                   end;
     k_padding := nullish (p_padding patch) (k_padding k);
     k_cornerRadius := nullish (p_cornerRadius patch) (k_cornerRadius k);
     k_background := match p_background patch with
                     | Some b => Some b
                     | None => k_background k
                     end;
     k_elements := nullish (p_elements patch) (k_elements k) |}.

Definition updateKeyDraft (id : string) (patch : KeyPartial) (now : string)
    (draft : ProjectModel) : ProjectModel :=
  match findKey id (keys (layout draft)) with
  | Some _ => touch draft (updateFirst id (assignKey patch) (keys (layout draft))) now
  | None => draft
  end.

Definition updateKey (id : string) (patch : KeyPartial) (now : string)
    (s : EditorState) : EditorState :=
  withHistory (updateKeyDraft id patch now) s.

Definition set_elements (k : KeyModel) (els : list KeyElement) : KeyModel :=
  {| k_id := k_id k; k_x := k_x k; k_y := k_y k;
     k_width := k_width k; k_height := k_height k;
     k_keyType := k_keyType k; k_rotation := k_rotation k;
     k_padding := k_padding k; k_cornerRadius := k_cornerRadius k;
     k_background := k_background k; k_elements := els |}.

(** [key.elements.push(el)] *)
Definition addElementDraft (keyId : string) (el : KeyElement) (now : string)
    (draft : ProjectModel) : ProjectModel :=
  match findKey keyId (keys (layout draft)) with
  | Some _ =>
      touch draft
        (updateFirst keyId (fun k => set_elements k (k_elements k ++ [el]))
           (keys (layout draft))) now
  | None => draft
  end.

Definition addElementToKey (keyId : string) (el : KeyElement) (now : string)
    (s : EditorState) : EditorState :=
  withHistory (addElementDraft keyId el now) s.

(** [key.elements = key.elements.filter((e) => e.id !== elId)] *)
Definition removeElementDraft (keyId elId : string) (now : string)
    (draft : ProjectModel) : ProjectModel :=
  match findKey keyId (keys (layout draft)) with
  | Some _ =>
      touch draft
        (updateFirst keyId
           (fun k => set_elements k
                       (filter (fun e => negb (String.eqb (el_id e) elId))
                               (k_elements k)))
           (keys (layout draft))) now
  | None => draft
  end.

Definition removeElement (keyId elId : string) (now : string)
    (s : EditorState) : EditorState :=
  withHistory (removeElementDraft keyId elId now) s.

Definition set_position (k : KeyModel) (x y : Q) : KeyModel :=
  {| k_id := k_id k; k_x := x; k_y := y;
     k_width := k_width k; k_height := k_height k;
     k_keyType := k_keyType k; k_rotation := k_rotation k;
     k_padding := k_padding k; k_cornerRadius := k_cornerRadius k;
     k_background := k_background k; k_elements := k_elements k |}.

Record Position := { pos_id : string; pos_x : Q; pos_y : Q }.

(** [positions.forEach((pos) => { ... key.x = pos.x; key.y = pos.y })] *)
Definition moveSelectedKeysDraft (positions : list Position) (now : string)
    (draft : ProjectModel) : ProjectModel :=
  touch draft
    (fold_left
       (fun ks pos =>
          updateFirst (pos_id pos)
            (fun k => set_position k (pos_x pos) (pos_y pos)) ks)
       positions (keys (layout draft)))
    now.

Definition moveSelectedKeys (positions : list Position) (now : string)
    (s : EditorState) : EditorState :=
  withHistory (moveSelectedKeysDraft positions now) s.

(** [Math.round]: to the nearest integer, halves upwards. *)
Definition round (q : Q) : Q := inject_Z (Qfloor (q + (1 # 2))).

(** [snap ? Math.round(v / snap) * snap : v] *)
Definition snapTo (snap v : Q) : Q :=
  if Qeq_bool snap 0 then v else round (v / snap) * snap.

Definition nudgeSelectedDraft (selected : list string) (snap dx dy : Q)
    (now : string) (draft : ProjectModel) : ProjectModel :=
  touch draft
    (map (fun k =>
            if includes selected (k_id k)
            then set_position k (snapTo snap (k_x k + dx))
                                (snapTo snap (k_y k + dy))
            else k)
         (keys (layout draft)))
    now.

Definition nudgeSelected (dx dy : Q) (now : string) (s : EditorState)
    : EditorState :=
  let snap := if snapToGrid s then gridSize s else 0 in
  withHistory (nudgeSelectedDraft (selectedKeys s) snap dx dy now) s.

(** [!aId]: an identifier that is absent or empty. *)
Definition falsyId (id : string) : bool :=
  match id with
  | EmptyString => true
  | _ => false
  end.

Definition swapSelectedDraft (selected : list string) (now : string)
    (draft : ProjectModel) : ProjectModel :=
  match selected with
  | aId :: bId :: _ =>
      if falsyId aId || falsyId bId then draft
      else
        match findKey aId (keys (layout draft)),
              findKey bId (keys (layout draft)) with
        | Some a, Some b =>
            let ks1 := updateFirst aId
                         (fun k => set_position k (k_x b) (k_y b))
                         (keys (layout draft)) in
            let ks2 := updateFirst bId
                         (fun k => set_position k (k_x a) (k_y a)) ks1 in
            touch draft ks2 now
        | _, _ => draft
        end
  | _ => draft
  end.

Definition swapSelected (now : string) (s : EditorState) : EditorState :=
  withHistory (swapSelectedDraft (selectedKeys s) now) s.

(** [undo] and [redo], [n] times in a row. *)
Fixpoint undoTimes (n : nat) (s : EditorState) : EditorState :=
  match n with
  | O => s
  | S n' => undoTimes n' (undo s)
  end.

Fixpoint redoTimes (n : nat) (s : EditorState) : EditorState :=
  match n with
  | O => s
  | S n' => redoTimes n' (redo s)
  end.

(** Mutations one after the other. *)
Definition mutateAll (updaters : list (ProjectModel -> ProjectModel))
    (s : EditorState) : EditorState :=
  fold_left (fun st u => withHistory u st) updaters s.

End Store.

(** ** importers.ts: the grid template *)

Module Templates.

(** A key with geometry only, as [createKey({ x, y, width, height })]
    makes it; [fresh_id] stands for [nanoid()]. *)
Definition plainKey (fresh_id : string) (x y w h : Q) : KeyModel :=
  createKey fresh_id
    {| in_id := None; in_x := x; in_y := y; in_width := w; in_height := h;
       in_keyType := None; in_rotation := None; in_padding := None;
       in_cornerRadius := None; in_background := None;
       in_elements := None |}.

(** The key pushed in row [r], column [c]: the [r * cols + c]-th one. *)
Definition gridCell (fresh : nat -> string) (cols : nat)
    (keySizeMm gapMm startX startY : Q) (r c : nat) : KeyModel :=
  plainKey (fresh (r * cols + c)%nat)
    (startX + inject_Z (Z.of_nat c) * (keySizeMm + gapMm))
    (startY + inject_Z (Z.of_nat r) * (keySizeMm + gapMm))
    keySizeMm keySizeMm.

(** The two counting loops of [buildUniformGrid]. *)
Definition buildUniformGrid (fresh : nat -> string) (rows cols : nat)
    (keySizeMm gapMm startX startY : Q) : list KeyModel :=
  flat_map
    (fun r => map (gridCell fresh cols keySizeMm gapMm startX startY r)
                  (seq 0 cols))
    (seq 0 rows).

Definition buildGridTemplate (fresh : nat -> string) (rows cols : nat)
    (keySizeMm gapMm : Q) : list KeyModel :=
  buildUniformGrid fresh rows cols keySizeMm gapMm 0 0.

(** The updater of [applyTemplate]; [gridName] stands for the template
    literal that names the layout. *)
Definition applyTemplateDraft (fresh : nat -> string) (gridName now : string)
    (rows cols : nat) (keySize gap : Q) (draft : ProjectModel) : ProjectModel :=
  {| project_id := project_id draft; project_name := project_name draft;
     paper := paper draft;
     layout := {| layout_id := layout_id (layout draft);
                  layout_name := gridName;
                  keys := buildGridTemplate fresh rows cols keySize gap |};
     updatedAt := now |}.

End Templates.

(** ** importers.ts: the matrix and split templates *)

Module Layouts.

(** [CellDef]: width and height in units, and a key type. *)
Record CellDef := {
  cell_u : option Q;
  cell_h : option Q;
  cell_type : option KeyType
}.

Definition UNIT_MM : Q := DEFAULT_KEY_SIZE.
Definition GAP_MM : Q := DEFAULT_KEY_GAP.
Definition STEP_MM : Q := UNIT_MM + GAP_MM.

Definition cellWidth (cell : CellDef) : Q := nullish (cell_u cell) 1 * UNIT_MM.
Definition cellHeight (cell : CellDef) : Q := nullish (cell_h cell) 1 * UNIT_MM.

(** The key one cell makes; [fresh_id] stands for [nanoid()]. *)
Definition cellKey (fresh_id : string) (x y : Q) (cell : CellDef) : KeyModel :=
  createKey fresh_id
    {| in_id := None; in_x := x; in_y := y;
       in_width := cellWidth cell; in_height := cellHeight cell;
       in_keyType := cell_type cell; in_rotation := None; in_padding := None;
       in_cornerRadius := None; in_background := None;
       in_elements := None |}.

(** [row.forEach((cell) => { ...; x += w + GAP_MM })], for the cells from
    [x] on; [n] counts the keys made so far. *)
Fixpoint rowKeys (fresh : nat -> string) (n : nat) (x y : Q)
    (row : list CellDef) : list KeyModel :=
  match row with
  | [] => []
  | cell :: rest =>
      cellKey (fresh n) x y cell
      :: rowKeys fresh (S n) (x + (cellWidth cell + GAP_MM)) y rest
  end.

(** [rowDefs.forEach((row, r) => ...)], for the rows from index [r] on. *)
Fixpoint matrixRows (fresh : nat -> string) (n r : nat) (startX startY : Q)
    (rowDefs : list (list CellDef)) : list KeyModel :=
  match rowDefs with
  | [] => []
  | row :: rest =>
      rowKeys fresh n startX (startY + inject_Z (Z.of_nat r) * STEP_MM) row
      ++ matrixRows fresh (n + length row) (S r) startX startY rest
  end.

Definition buildMatrixTemplate (fresh : nat -> string)
    (rowDefs : list (list CellDef)) (startX startY : Q) : list KeyModel :=
  matrixRows fresh 0 0 startX startY rowDefs.

(** [makeRow(count)]: [count] cells without a field. *)
Definition makeRow (count : nat) : list CellDef :=
  repeat {| cell_u := None; cell_h := None; cell_type := None |} count.

Definition ARROW_CLUSTER : list (list CellDef) := [makeRow 2; makeRow 3].

(** An entry of [MIRYOKU_LEFT]. *)
Record HalfPos := { hp_x : Q; hp_y : Q; hp_rotation : Q }.

Definition halfPos (x y rotation : Q) : HalfPos :=
  {| hp_x := x; hp_y := y; hp_rotation := rotation |}.

Definition MIRYOKU_LEFT_first : HalfPos := halfPos 27 32 0.

Definition MIRYOKU_LEFT_rest : list HalfPos :=
  [ halfPos 27 48 0; halfPos 27 64 0;
    halfPos 43 26 0; halfPos 43 42 0; halfPos 43 58 0;
    halfPos 59 20 0; halfPos 59 36 0; halfPos 59 52 0;
    halfPos 75 26 0; halfPos 75 42 0; halfPos 75 58 0;
    halfPos 91 28 0; halfPos 91 45 0; halfPos 91 61 0;
    halfPos 82 82 0; halfPos 99 83 6; halfPos 116 86 12 ].

(** The local [addKey] of [buildCheapinoTemplate]. *)
Definition halfKey (fresh_id : string) (keySizeMm : Q) (pos : HalfPos)
    : KeyModel :=
  createKey fresh_id
    {| in_id := None; in_x := hp_x pos; in_y := hp_y pos;
       in_width := keySizeMm; in_height := keySizeMm;
       in_keyType := None; in_rotation := Some (hp_rotation pos);
       in_padding := None; in_cornerRadius := None; in_background := None;
       in_elements := None |}.

(** The position pushed for the right half:
    [{ x: mirrorLine * 2 - pos.x - keySizeMm, y: pos.y,
       rotation: pos.rotation ? -pos.rotation : 0 }]. *)
Definition mirrored (mirrorLine keySizeMm : Q) (pos : HalfPos) : HalfPos :=
  {| hp_x := mirrorLine * 2 - hp_x pos - keySizeMm;
     hp_y := hp_y pos;
     hp_rotation := if Qeq_bool (hp_rotation pos) 0 then 0
                    else - hp_rotation pos |}.

Definition mirrorLineOf (first : HalfPos) (rest : list HalfPos)
    (keySizeMm paperWidthMm : Q) : Q :=
  let maxLeftX := maxOf (hp_x first) (map hp_x rest) in
  let minCenter := maxLeftX + keySizeMm + 6 in
  Qmin (paperWidthMm - keySizeMm - 6) (minCenter + 5.75).

(** [buildCheapinoTemplate] over a table of left-hand positions given as
    its first entry and the others. *)
Definition splitTemplate (fresh : nat -> string) (first : HalfPos)
    (rest : list HalfPos) (keySizeMm paperWidthMm : Q) : list KeyModel :=
  let left := first :: rest in
  let mirrorLine := mirrorLineOf first rest keySizeMm paperWidthMm in
  CutSheet.mapi_from (fun i pos => halfKey (fresh i) keySizeMm pos) 0 left
  ++ CutSheet.mapi_from
       (fun i pos => halfKey (fresh i) keySizeMm
                       (mirrored mirrorLine keySizeMm pos))
       (length left) left.

Definition buildCheapinoTemplate (fresh : nat -> string)
    (keySizeMm paperWidthMm : Q) : list KeyModel :=
  splitTemplate fresh MIRYOKU_LEFT_first MIRYOKU_LEFT_rest
    keySizeMm paperWidthMm.

End Layouts.

(** ** exporters.ts: colours for the PDF *)

Module Colour.
Open Scope string_scope.

(** [str.replace('#', '')]: a string pattern replaces its first
    occurrence only. *)
Fixpoint removeFirst (c : ascii) (s : string) : string :=
  match s with
  | EmptyString => EmptyString
  | String a rest =>
      if Ascii.eqb a c then rest else String a (removeFirst c rest)
  end.

Definition code (a : ascii) : Z := Z.of_N (N_of_ascii a).

(** White space among the code units below 256: tab, the line
    terminators, space and the no-break space. *)
Definition isWhiteSpace (a : ascii) : bool :=
  (((9 <=? code a) && (code a <=? 13)) || (code a =? 32)
   || (code a =? 160))%Z.

Fixpoint trimStart (s : string) : string :=
  match s with
  | EmptyString => EmptyString
  | String a rest => if isWhiteSpace a then trimStart rest else s
  end.

(** A leading sign: whether it is a minus, and the rest. *)
Definition stripSign (s : string) : bool * string :=
  match s with
  | String "-" rest => (true, rest)
  | String "+" rest => (false, rest)
  | _ => (false, s)
  end.

(** With radix 16 a leading [0x] or [0X] is skipped. *)
Definition stripPrefix (s : string) : string :=
  match s with
  | String "0" (String "x" rest) => rest
  | String "0" (String "X" rest) => rest
  | _ => s
  end.

Definition hexDigit (a : ascii) : option Z :=
  (if (48 <=? code a) && (code a <=? 57) then Some (code a - 48)
   else if (97 <=? code a) && (code a <=? 102) then Some (code a - 87)
   else if (65 <=? code a) && (code a <=? 70) then Some (code a - 55)
   else None)%Z.

(** The digits at the head of a string: their value, most significant
    first, and their number. *)
Fixpoint digitsValue (acc : Z) (count : nat) (s : string) : Z * nat :=
  match s with
  | EmptyString => (acc, count)
  | String a rest =>
      match hexDigit a with
      | Some d => digitsValue (16 * acc + d)%Z (S count) rest
      | None => (acc, count)
      end
  end.

(** The result of [parseInt(s, 16)]: NaN, an integer, or a number of
    more than thirteen digits, which a double need not hold exactly and
    which is left out of this model. *)
Inductive Parsed := notANumber | integer (z : Z) | beyondExact.

Definition parseInt16 (s : string) : Parsed :=
  let '(negative, unsigned) := stripSign (trimStart s) in
  let '(v, n) := digitsValue 0 0 (stripPrefix unsigned) in
  match n with
  | O => notANumber
  | _ => if (13 <? n)%nat then beyondExact
         else integer (if negative then - v else v)%Z
  end.

(** The conversion the bitwise operators apply to their left operand:
    NaN becomes 0, an integer is taken modulo 2^32 into the signed
    range. *)
Definition toInt32 (p : Parsed) : option Z :=
  match p with
  | notANumber => Some 0%Z
  | integer z => Some ((z + 2 ^ 31) mod 2 ^ 32 - 2 ^ 31)%Z
  | beyondExact => None
  end.

(** The arguments handed to [rgb]. *)
Record Rgb := { red : Q; green : Q; blue : Q }.

Definition rgbFromHex (hex : string) : option Rgb :=
  let clean := removeFirst "#" hex in
  match toInt32 (parseInt16 clean) with
  | None => None
  | Some num =>
      let r := Z.land (Z.shiftr num 16) 255 in
      let g := Z.land (Z.shiftr num 8) 255 in
      let b := Z.land num 255 in
      Some {| red := (inject_Z r / 255)%Q;
              green := (inject_Z g / 255)%Q;
              blue := (inject_Z b / 255)%Q |}
  end.

(** A first character with which the text handed to [rgbFromHex] can
    still be read as a number: a hash, white space, a sign or a digit. *)
Definition opensNumber (a : ascii) : bool :=
  Ascii.eqb a "#" || isWhiteSpace a || Ascii.eqb a "-" || Ascii.eqb a "+"
  || match hexDigit a with Some _ => true | None => false end.

(** A colour given by its three bytes. *)
Definition bytes (r g b : Z) : Rgb :=
  {| red := (inject_Z r / 255)%Q; green := (inject_Z g / 255)%Q;
     blue := (inject_Z b / 255)%Q |}.

End Colour.

(** ** CanvasStage.tsx: selection and scale *)

Module CanvasView.

(** [handleSelect(id, multi)]: the selection handed to [setSelectedKeys]. *)
Definition handleSelect (selectedKeys : list string) (id : string)
    (multi : bool) : list string :=
  if multi then
    if Store.includes selectedKeys id
    then filter (fun k => negb (String.eqb k id)) selectedKeys
    else selectedKeys ++ [id]
  else [id].

(** [Math.min(a, b, 1)] of the two ratios.  [None]: a page side of zero
    pixels; the ratio is then an infinity or NaN and lies outside the
    rational model. *)
Definition fitScale (frameWidth frameHeight pageWidthPx pageHeightPx : Q)
    : option Q :=
  if Qeq_bool pageWidthPx 0 || Qeq_bool pageHeightPx 0 then None
  else Some (Qmin (Qmin ((frameWidth - 80) / pageWidthPx)
                        ((frameHeight - 120) / pageHeightPx)) 1).

(** [zoom * (Number.isFinite(fitScale) && fitScale > 0 ? fitScale : 1)] *)
Definition effectiveScale (zoom : Q) (frameWidth frameHeight : Q)
    (project : ProjectModel) : option Q :=
  let sz := paperSizeMm (paper_size (paper project))
              (nullish (paper_orientation (paper project)) portrait) in
  let pageWidthPx := mmToPixels (sz_width sz) (dpi (paper project)) in
  let pageHeightPx := mmToPixels (sz_height sz) (dpi (paper project)) in
  match fitScale frameWidth frameHeight pageWidthPx pageHeightPx with
  | None => None
  | Some fit => Some (zoom * (if Qlt_le_dec 0 fit then fit else 1))
  end.

End CanvasView.

(** ** Regions and measures used in the statements below *)

(** The L of a big enter key in a frame with y pointing down: the bottom
    half of the height over the full width, the top half over the
    right-hand strip of width [topW]. *)
Definition bigEnterRegion (x y w h topW : Q) (p : Point) : Prop :=
  (y + h / 2 <= pt_y p /\ pt_y p < y + h /\ x <= pt_x p /\ pt_x p < x + w)
  \/ (y <= pt_y p /\ pt_y p < y + h / 2 /\
      x + w - topW <= pt_x p /\ pt_x p < x + w).

(** The image of a point of the SVG page (millimetres, y down) on the PDF
    page (points, y up). *)
Definition toPdfPoint (pageHeight : Q) (p : Point) : Point :=
  mkPoint (mmToPoints (pt_x p)) (mmToPoints (pageHeight - pt_y p)).

(** Width of the strip of an enter key: [squareW] of an ISO enter,
    [topW] of a big enter. *)
Definition stripWidth (key : KeyModel) : Q :=
  match k_keyType key with
  | Some big_enter => Qmin (k_width key) 20.25
  | _ => k_height key / 2
  end.

(** The image of a rectangle of the SVG page (millimetres, y down) on the
    PDF page (points, y up, origin at the rectangle's bottom-left). *)
Definition toPdfBox (pageHeight : Q) (b : Box) : Box :=
  {| box_x := mmToPoints (box_x b);
     box_y := mmToPoints (pageHeight - box_y b - box_h b);
     box_w := mmToPoints (box_w b);
     box_h := mmToPoints (box_h b) |}.

(** The right edge of every key of a list stays left of [limit], and its
    left edge right of [margin]. *)
Definition withinWidth (margin limit : Q) (ks : list KeyModel) : Prop :=
  forall k, In k ks -> margin <= k_x k /\ k_x k + k_width k <= limit.

(** Elements in ascending z-order. *)
Definition zOrdered (els : list KeyElement) : Prop :=
  forall i j a b,
    (i < j)%nat -> nth_error els i = Some a -> nth_error els j = Some b ->
    el_zIndex a <= el_zIndex b.

(** What [contain] and [cover] ask of the drawn size [dw] by [dh] of an
    image of natural size [iw] by [ih] in an available rectangle of size
    [aw] by [ah]: the image's proportions, one side equal to the
    rectangle's, and the other within it ([contain]) or beyond it
    ([cover]). *)
Definition fitted (fit : Fit) (aw ah iw ih dw dh : Q) : Prop :=
  dw * ih == dh * iw /\ (dw == aw \/ dh == ah) /\
  match fit with
  | contain => dw <= aw /\ dh <= ah
  | cover => aw <= dw /\ ah <= dh
  | fit_other => True
  end.

(** The drawn rectangle lies in the available one ([contain]) or covers
    it ([cover]). *)
Definition placedIn (fit : Fit) (x y aw ah ox oy dw dh : Q) : Prop :=
  match fit with
  | contain => x <= ox /\ ox + dw <= x + aw /\ y <= oy /\ oy + dh <= y + ah
  | cover => ox <= x /\ x + aw <= ox + dw /\ oy <= y /\ y + ah <= oy + dh
  | fit_other => True
  end.

(** The edge or centre an alignment keeps in common with the available
    rectangle.  On the y axis only [center] and [bottom] are told apart
    from the default. *)
Definition alignedX (a : AlignX) (x aw ox dw : Q) : Prop :=
  match a with
  | ax_left => ox == x
  | ax_center => ox + dw / 2 == x + aw / 2
  | ax_right => ox + dw == x + aw
  end.

Definition alignedY (a : AlignY) (y ah oy dh : Q) : Prop :=
  match a with
  | ay_center => oy + dh / 2 == y + ah / 2
  | ay_bottom => oy + dh == y + ah
  | _ => oy == y
  end.

(** What a move may change of a key: x and y, and only when the key is
    named. *)
Definition movedOnly (named : string -> bool) (k k' : KeyModel) : Prop :=
  CutSheet.same_but_position k k' /\ k_rotation k = k_rotation k' /\
  (named (k_id k) = false -> k' = k).

(** The first key ends at least [gap] before the second begins, to its
    left or above it. *)
Definition clearBefore (gap : Q) (a b : KeyModel) : Prop :=
  k_x a + k_width a + gap <= k_x b \/ k_y a + k_height a + gap <= k_y b.

(** A cell of positive width that is at most one unit high. *)
Definition unitCell (cell : Layouts.CellDef) : Prop :=
  0 < nullish (Layouts.cell_u cell) 1 /\
  0 < nullish (Layouts.cell_h cell) 1 /\ nullish (Layouts.cell_h cell) 1 <= 1.

(** The elements of a list that are at level [z], in the list's order. *)
Definition atLevel (z : Q) (els : list KeyElement) : list KeyElement :=
  filter (fun e => Qeq_bool (el_zIndex e) z) els.

Module MoreSamples.
Open Scope string_scope.

Definition freshId (n : nat) : string :=
  String (Ascii.ascii_of_nat (65 + n)) EmptyString.

Definition twoKeys : list KeyModel :=
  [ Samples.keyAt "a" rect 0 0 18 18 [];
    Samples.keyAt "b" rect 20 0 18 18 [] ].

Definition twoKeyState : History.EditorState :=
  {| History.project := Samples.projectOf "demo" twoKeys;
     History.history := {| History.past := [Samples.emptyProject];
                           History.future := [] |};
     History.selectedKeys := ["a"; "b"];
     History.zoom := 1; History.snapToGrid := true; History.gridSize := 2 |}.

Definition bigEnterKey : KeyModel :=
  Samples.keyAt "enter" big_enter 0 0 33.75 27 [].

Definition tallIsoKey : KeyModel :=
  Samples.keyAt "enter" iso_enter 0 0 10 27 [].

(** An image element aligned to the bottom of its key. *)
Definition bottomImage : KeyElement :=
  {| el_id := "i";
     el_kind := image_el (Samples.imageProps contain);
     el_x := Some 0; el_y := Some 0;
     el_width := Some DEFAULT_KEY_SIZE; el_height := Some DEFAULT_KEY_SIZE;
     el_zIndex := 3; el_alignX := None; el_alignY := Some ay_bottom;
     el_padding := None |}.

Definition bottomImageKey : KeyModel :=
  Samples.keyAt "k" rect 0 0 DEFAULT_KEY_SIZE DEFAULT_KEY_SIZE [bottomImage].

End MoreSamples.

(** * Properties *)

(** ** Tactics *)

(** Division by a literal, as a product, for the linear solver. *)
Ltac qdiv := unfold Qdiv in *; cbn [Qinv Qnum Qden] in *.

(** Case analysis on every comparison of the goal, innermost first. *)
Ltac split_tests :=
  unfold Qltb, Qmin, Qmax;
  repeat match goal with
         | |- context [Qlt_le_dec ?a ?b] =>
             lazymatch a with
             | context [Qlt_le_dec] => fail
             | _ => idtac
             end;
             lazymatch b with
             | context [Qlt_le_dec] => fail
             | _ => idtac
             end;
             destruct (Qlt_le_dec a b)
         end.

(** ** Lists and slices *)

Lemma slice_last_length {A : Type} (n : nat) (l : list A) :
  (length (slice_last n l) <= n)%nat.
Proof.
  unfold slice_last. rewrite length_skipn. lia.
Qed.

Lemma slice_last_suffix {A : Type} (n : nat) (l : list A) :
  firstn (length l - n) l ++ slice_last n l = l.
Proof.
  unfold slice_last. apply firstn_skipn.
Qed.

Lemma slice_first_length {A : Type} (n : nat) (l : list A) :
  (length (slice_first n l) <= n)%nat.
Proof.
  unfold slice_first. rewrite length_firstn. lia.
Qed.

Lemma slice_drop_last_length {A : Type} (l : list A) :
  length (slice_drop_last l) = (length l - 1)%nat.
Proof.
  unfold slice_drop_last. rewrite length_firstn. lia.
Qed.

Lemma slice_from_1_length {A : Type} (l : list A) :
  length (slice_from_1 l) = (length l - 1)%nat.
Proof.
  unfold slice_from_1. rewrite length_skipn. reflexivity.
Qed.

(** The stable sort returns a permutation of its input. *)
Lemma insert_sorted_perm {A : Type} (leb : A -> A -> bool) a l :
  Permutation (a :: l) (insert_sorted leb a l).
Proof.
  induction l as [|b l IH]; simpl.
  - apply Permutation_refl.
  - destruct (leb a b).
    + apply Permutation_refl.
    + eapply perm_trans; [apply perm_swap|]. now apply perm_skip.
Qed.

Lemma sortBy_perm {A : Type} (leb : A -> A -> bool) l :
  Permutation l (sortBy leb l).
Proof.
  induction l as [|a l IH]; simpl.
  - apply perm_nil.
  - eapply perm_trans; [apply perm_skip, IH | apply insert_sorted_perm].
Qed.

Lemma sortBy_In {A : Type} (leb : A -> A -> bool) a l :
  In a l -> In a (sortBy leb l).
Proof.
  intros H. eapply Permutation_in; [apply sortBy_perm | exact H].
Qed.

(** ** The history manager *)

Module HistoryFacts.
Import History.

#[local] Arguments slice_first : simpl never.
#[local] Arguments slice_last : simpl never.
#[local] Arguments slice_drop_last : simpl never.
#[local] Arguments slice_from_1 : simpl never.

Lemma last_opt_nonempty {A : Type} (l : list A) :
  l <> [] -> exists a, last_opt l = Some a.
Proof.
  intros Hne. unfold last_opt.
  destruct (nth_error l (length l - 1)) as [a|] eqn:E.
  - now exists a.
  - apply nth_error_None in E. destruct l; [congruence | simpl in E; lia].
Qed.

Lemma last_opt_empty {A : Type} : last_opt (@nil A) = None.
Proof. reflexivity. Qed.

Lemma undo_nonempty s previous :
  last_opt (past (history s)) = Some previous ->
  project (undo s) = previous /\
  future (history (undo s))
    = project s :: slice_first 29 (future (history s)) /\
  past (history (undo s)) = slice_drop_last (past (history s)).
Proof.
  intros E. unfold undo. rewrite E. simpl. auto.
Qed.

Lemma undo_empty s :
  past (history s) = [] -> undo s = s.
Proof.
  intros E. unfold undo. rewrite E. reflexivity.
Qed.

Lemma redo_empty s :
  future (history s) = [] -> redo s = s.
Proof.
  intros E. unfold redo. rewrite E. reflexivity.
Qed.

Lemma withHistory_bounded updater s : history_bounded (withHistory updater s).
Proof.
  unfold history_bounded, withHistory; simpl. split; [|lia].
  rewrite length_app. simpl.
  pose proof (slice_last_length 30 (past (history s))). lia.
Qed.

Lemma undo_bounded s : history_bounded s -> history_bounded (undo s).
Proof.
  intros [Hp Hf]. unfold undo.
  destruct (last_opt (past (history s))); [|split; assumption].
  unfold history_bounded; simpl. split.
  - rewrite slice_drop_last_length. lia.
  - pose proof (slice_first_length 29 (future (history s))). lia.
Qed.

Lemma redo_bounded s : history_bounded s -> history_bounded (redo s).
Proof.
  intros [Hp Hf]. unfold redo.
  destruct (nth_error (future (history s)) 0); [|split; assumption].
  unfold history_bounded; simpl. split.
  - pose proof (slice_last_length 30 (past (history s) ++ [project s])). lia.
  - rewrite slice_from_1_length. lia.
Qed.

Lemma step_bounded s s' :
  history_bounded s -> step s s' -> history_bounded s'.
Proof.
  intros Hb Hstep. destruct Hstep.
  - apply withHistory_bounded.
  - apply undo_bounded, Hb.
  - apply redo_bounded, Hb.
Qed.

Lemma mutate_past_length n p :
  length (past (history (Samples.mutate n (initialState p)))) = Nat.min n 31.
Proof.
  induction n as [|n IH]; [reflexivity|].
  simpl. rewrite length_app. unfold slice_last.
  rewrite length_skipn, IH. simpl. lia.
Qed.

Lemma mutate_reachable n p : reachable p (Samples.mutate n (initialState p)).
Proof.
  induction n as [|n IH]; simpl.
  - constructor.
  - eapply reach_step; [exact IH | constructor].
Qed.

(** C3, as stated, fails: with nothing to undo and something to redo, undo
    is a no-op and redo then moves the project forward. *)
Lemma undo_redo_not_identity_when_past_empty :
  ~ (forall s : EditorState, project (redo (undo s)) = project s).
Proof.
  intros H. specialize (H Samples.afterUndo).
  vm_compute in H. discriminate H.
Qed.

(** C3 (amended): when there is something to undo, or nothing to redo,
    undo immediately followed by redo leaves the current project as it
    was before the undo. *)
Theorem undo_then_redo_restores_project (s : EditorState) :
  past (history s) <> [] \/ future (history s) = [] ->
  project (redo (undo s)) = project s.
Proof.
  intros [Hne | Hf].
  - destruct (last_opt_nonempty _ Hne) as [previous E].
    destruct (undo_nonempty s previous E) as (_ & Hfut & _).
    unfold redo. rewrite Hfut. reflexivity.
  - destruct (past (history s)) as [|a l] eqn:Hp.
    + rewrite (undo_empty s Hp), (redo_empty s Hf). reflexivity.
    + assert (Hne : past (history s) <> []) by (rewrite Hp; discriminate).
      destruct (last_opt_nonempty _ Hne) as [previous E].
      destruct (undo_nonempty s previous E) as (_ & Hfut & _).
      unfold redo. rewrite Hfut. reflexivity.
Qed.

Lemma undo_then_redo_restores_project_witness :
  project (redo (undo (withHistory (fun _ => Samples.editedProject)
                                   (initialState Samples.emptyProject))))
  = Samples.editedProject.
Proof.
  apply (undo_then_redo_restores_project
           (withHistory (fun _ => Samples.editedProject)
                        (initialState Samples.emptyProject))).
  left. simpl. discriminate.
Defined.

(** C9: every store operation keeps at most 31 snapshots in [past] and at
    most 30 in [future]; a mutation keeps the 30 most recent entries of
    [past] and appends the new snapshot, so that the entries dropped are
    the oldest ones; 31 entries are reached. *)
Theorem history_bounds_invariant :
  (forall s s', history_bounded s -> step s s' -> history_bounded s') /\
  (forall p, history_bounded (initialState p)) /\
  (forall updater s,
      past (history (withHistory updater s))
      = slice_last 30 (past (history s)) ++ [jsonClone (project s)] /\
      firstn (length (past (history s)) - 30) (past (history s))
        ++ past (history (withHistory updater s))
      = past (history s) ++ [jsonClone (project s)] /\
      future (history (withHistory updater s)) = []) /\
  (forall p, exists s,
      reachable p s /\ length (past (history s)) = 31%nat).
Proof.
  split; [exact step_bounded|].
  split; [intros p; split; simpl; lia|].
  split.
  - intros updater s. split; [reflexivity|]. split; [|reflexivity].
    simpl. rewrite app_assoc, slice_last_suffix. reflexivity.
  - intros p. exists (Samples.mutate 31 (initialState p)). split.
    + apply mutate_reachable.
    + apply mutate_past_length.
Qed.

Lemma history_bounds_invariant_witness :
  history_bounded (redo Samples.afterUndo).
Proof.
  apply (proj1 history_bounds_invariant Samples.afterUndo).
  - unfold history_bounded. simpl. lia.
  - apply step_redo.
Defined.

End HistoryFacts.

(** ** The cut-sheet reflow *)

Module CutSheetFacts.
Import CutSheet.

Lemma mapi_from_length {A B : Type} (f : nat -> A -> B) idx l :
  length (mapi_from f idx l) = length l.
Proof.
  revert idx. induction l as [|a l IH]; intros idx; simpl; [|rewrite IH]; reflexivity.
Qed.

Lemma mapi_from_nth_error {A B : Type} (f : nat -> A -> B) l :
  forall idx n b,
    nth_error (mapi_from f idx l) n = Some b ->
    exists a, nth_error l n = Some a /\ b = f (idx + n)%nat a.
Proof.
  induction l as [|a l IH]; intros idx n b H.
  - destruct n; discriminate H.
  - destruct n as [|n]; simpl in H.
    + injection H as <-. exists a. split; [reflexivity|].
      now rewrite Nat.add_0_r.
    + destruct (IH _ _ _ H) as (a' & Ha & ->). exists a'. split; [exact Ha|].
      f_equal. lia.
Qed.

Lemma mapi_from_Forall2 {A B : Type} (f : nat -> A -> B) (R : A -> B -> Prop) l :
  (forall i a, R a (f i a)) ->
  forall idx, Forall2 R l (mapi_from f idx l).
Proof.
  intros HR. induction l as [|a l IH]; intros idx; simpl; constructor; auto.
Qed.

Lemma mapi_from_In {A B : Type} (f : nat -> A -> B) l :
  forall idx b, In b (mapi_from f idx l) -> exists i a, In a l /\ b = f i a.
Proof.
  induction l as [|a l IH]; intros idx b H; simpl in H; [contradiction|].
  destruct H as [<-|H].
  - exists idx, a. split; [now left | reflexivity].
  - destruct (IH _ _ H) as (i & a' & Ha & ->). exists i, a'. split; [now right | reflexivity].
Qed.

Lemma Qmax_ge_l a b : a <= Qmax a b.
Proof. unfold Qmax. destruct (Qlt_le_dec a b); lra. Qed.

Lemma Qmax_ge_r a b : b <= Qmax a b.
Proof. unfold Qmax. destruct (Qlt_le_dec a b); lra. Qed.

Lemma maxOf_ge_init xs : forall x0, x0 <= maxOf x0 xs.
Proof.
  unfold maxOf. induction xs as [|x xs IH]; intros x0; simpl.
  - lra.
  - eapply Qle_trans; [apply (Qmax_ge_l x0 x) | apply IH].
Qed.

Lemma maxOf_ge_in xs : forall x0 x, In x xs -> x <= maxOf x0 xs.
Proof.
  unfold maxOf. induction xs as [|y xs IH]; intros x0 x H; simpl in *.
  - contradiction.
  - destruct H as [->|H].
    + eapply Qle_trans; [apply (Qmax_ge_r x0 x) | apply (maxOf_ge_init xs)].
    + now apply IH.
Qed.

Lemma maxOf_upper (f : KeyModel -> Q) k0 rest k :
  In k (k0 :: rest) -> f k <= maxOf (f k0) (map f rest).
Proof.
  intros [<-|H].
  - apply maxOf_ge_init.
  - apply maxOf_ge_in. now apply in_map.
Qed.

(** Two cells of one axis, [c1] and [c2] steps of [maxv + gap] from the
    margin, holding extents of at most [maxv]: the extents do not
    overlap. *)
Lemma cells_apart (c1 c2 : Z) (m maxv gap w1 w2 : Q) :
  c1 <> c2 -> 0 <= gap -> w1 <= maxv -> w2 <= maxv ->
  ~ (m + inject_Z c1 * (maxv + gap) < m + inject_Z c2 * (maxv + gap) + w2 /\
     m + inject_Z c2 * (maxv + gap) < m + inject_Z c1 * (maxv + gap) + w1).
Proof.
  intros Hne Hgap Hw1 Hw2 [H1 H2].
  assert (Hd : (c1 + 1 <= c2)%Z \/ (c2 + 1 <= c1)%Z) by lia.
  destruct Hd as [Hd|Hd]; rewrite Zle_Qle in Hd;
    rewrite inject_Z_plus in Hd; change (inject_Z 1) with 1 in Hd;
    set (a := inject_Z c1) in *; set (b := inject_Z c2) in *;
    destruct (Qlt_le_dec (maxv + gap) 0); nra.
Qed.

Lemma placeAt_apart margin gap maxW maxH perRow i j ki kj :
  (1 <= perRow)%Z -> 0 <= gap -> i <> j ->
  k_width ki <= maxW -> k_width kj <= maxW ->
  k_height ki <= maxH -> k_height kj <= maxH ->
  ~ overlap (placeAt margin gap maxW maxH perRow i ki)
            (placeAt margin gap maxW maxH perRow j kj).
Proof.
  intros Hp Hgap Hij Hwi Hwj Hhi Hhj (Hx1 & Hx2 & Hy1 & Hy2).
  unfold placeAt in *; simpl in *.
  destruct (Z.eq_dec (Z.of_nat i mod perRow) (Z.of_nat j mod perRow)) as [Hc|Hc].
  - destruct (Z.eq_dec (Z.of_nat i / perRow) (Z.of_nat j / perRow)) as [Hr|Hr].
    + apply Hij, Nat2Z.inj.
      rewrite (Z.div_mod (Z.of_nat i) perRow), (Z.div_mod (Z.of_nat j) perRow) by lia.
      now rewrite Hc, Hr.
    + apply (cells_apart _ _ margin maxH gap (k_height ki) (k_height kj) Hr);
        auto.
  - apply (cells_apart _ _ margin maxW gap (k_width ki) (k_width kj) Hc); auto.
Qed.

Lemma place_key_same k x y : same_but_position k (place_key k x y).
Proof. unfold same_but_position; simpl; repeat split. Qed.

Lemma maxOf_positive (f : KeyModel -> Q) k0 rest :
  0 < f k0 -> 0 < maxOf (f k0) (map f rest).
Proof.
  intros H. pose proof (maxOf_ge_init (map f rest) (f k0)). lra.
Qed.

(** Under the data model's sizes the divisor of [perRow] is not zero: the
    quotient is a rational and [perRow] is at least 1. *)
Lemma perRowOf_defined usableWidth gap maxW :
  0 <= gap -> 0 < maxW ->
  exists perRow,
    perRowOf usableWidth gap maxW = Some perRow /\ (1 <= perRow)%Z.
Proof.
  intros Hgap Hw. unfold perRowOf.
  destruct (Qeq_bool (maxW + gap) 0) eqn:E.
  - apply Qeq_bool_eq in E. lra.
  - eexists. split; [reflexivity | lia].
Qed.

(** The arrangement of a sorted list of well-formed keys is defined and
    meets the promise with respect to any list it is a permutation of. *)
Lemma arrange_reflowed gap margin usableWidth input sorted :
  0 <= gap -> Permutation input sorted ->
  (forall k, In k sorted -> wellFormedKey k) ->
  exists output,
    arrange gap margin usableWidth sorted = Some output /\
    reflowed input output.
Proof.
  intros Hgap Hperm Hwf. unfold arrange.
  destruct sorted as [|k0 rest].
  - apply Permutation_sym, Permutation_nil in Hperm. subst input.
    exists []. split; [reflexivity|].
    repeat split; simpl; try contradiction.
    + intros [|i] [|j] ki kj _ H; discriminate H.
    + exists []. split; constructor.
  - set (maxW := maxOf (k_width k0) (map k_width rest)).
    set (maxH := maxOf (k_height k0) (map k_height rest)).
    assert (HmaxW : 0 < maxW).
    { apply (maxOf_positive k_width), (Hwf k0). now left. }
    destruct (perRowOf_defined usableWidth gap maxW Hgap HmaxW)
      as (perRow & -> & Hp).
    eexists. split; [reflexivity|].
    split; [|split; [|split]].
    + rewrite mapi_from_length. symmetry. now apply Permutation_length.
    + intros k Hk. apply mapi_from_In in Hk. destruct Hk as (i & a & _ & ->).
      reflexivity.
    + intros i j ki kj Hij Hi Hj.
      apply mapi_from_nth_error in Hi. destruct Hi as (ai & Hai & ->).
      apply mapi_from_nth_error in Hj. destruct Hj as (aj & Haj & ->).
      apply nth_error_In in Hai, Haj. simpl Nat.add.
      apply placeAt_apart; auto.
      * apply (maxOf_upper k_width); exact Hai.
      * apply (maxOf_upper k_width); exact Haj.
      * apply (maxOf_upper k_height); exact Hai.
      * apply (maxOf_upper k_height); exact Haj.
    + exists (k0 :: rest). split; [exact Hperm|].
      apply mapi_from_Forall2. intros i a. apply place_key_same.
Qed.

(** C1: for a project with a non-empty list of keys, each of positive
    size, the cut-sheet reflow (of the exporter, gap 0.3, and of the
    canvas, gap 0.8) returns as many keys as it received, all with
    rotation 0, no two bounding boxes overlapping, and each input key
    exactly once, changed at most in x, y and rotation. *)
Theorem cut_sheet_reflow (project : ProjectModel) :
  keys (layout project) <> [] ->
  (forall k, In k (keys (layout project)) -> wellFormedKey k) ->
  exists cut shown,
    buildCutProject project = Some cut /\
    derivedKeys view_cut project = Some shown /\
    reflowed (keys (layout project)) (keys (layout cut)) /\
    reflowed (keys (layout project)) shown.
Proof.
  intros Hne Hwf.
  pose proof (sortBy_perm key_leb (keys (layout project))) as Hperm.
  assert (Hwf' : forall k, In k (sortBy key_leb (keys (layout project))) ->
                           wellFormedKey k).
  { intros k Hk. apply Hwf.
    eapply Permutation_in; [apply Permutation_sym, Hperm | exact Hk]. }
  destruct (arrange_reflowed 0.3 (marginMm (paper project))
              (pageWidth project - marginMm (paper project) * 2)
              _ _ ltac:(lra) Hperm Hwf') as (out1 & E1 & R1).
  destruct (arrange_reflowed 0.8 (marginMm (paper project))
              (pageWidth project - marginMm (paper project) * 2)
              _ _ ltac:(lra) Hperm Hwf') as (out2 & E2 & R2).
  unfold buildCutProject, derivedKeys.
  rewrite E1, E2.
  destruct (sortBy key_leb (keys (layout project))) as [|k0 rest] eqn:E.
  - apply Permutation_sym, Permutation_nil in Hperm. contradiction.
  - eexists _, out2. split; [reflexivity|]. split; [reflexivity|].
    split; [exact R1 | exact R2].
Qed.

Lemma cut_sheet_reflow_witness :
  exists cut shown,
    buildCutProject (Samples.projectOf "demo" Samples.threeKeys) = Some cut /\
    derivedKeys view_cut (Samples.projectOf "demo" Samples.threeKeys)
      = Some shown /\
    reflowed Samples.threeKeys (keys (layout cut)) /\
    reflowed Samples.threeKeys shown.
Proof.
  apply (cut_sheet_reflow (Samples.projectOf "demo" Samples.threeKeys)).
  - simpl. discriminate.
  - intros k Hk. simpl in Hk.
    destruct Hk as [<-|[<-|[<-|[]]]]; split; reflexivity.
Defined.

End CutSheetFacts.

(** ** The placement solver *)

Module PlacementFacts.
Import Placement.

Section Solver.
Variables (width height : Q) (existing : list KeyModel).

Local Abbreviation stepX := (stepX width).
Local Abbreviation stepY := (stepY height).
Local Abbreviation cellX := (cellX width).
Local Abbreviation cellY := (cellY height).
Local Abbreviation collides := (collides width height existing).
Local Abbreviation scanRow := (scanRow width height existing).
Local Abbreviation scanRows := (scanRows width height existing).
Local Abbreviation lastX := (lastX width).
Local Abbreviation lastY := (lastY height).
Local Abbreviation rowResult := (rowResult width height existing).
Local Abbreviation gridResult := (gridResult width height existing).

Hypothesis stepX_pos : 0 < stepX.
Hypothesis stepY_pos : 0 < stepY.

Lemma cellX_mono i j : (i <= j)%nat -> cellX i <= cellX j.
Proof.
  induction 1 as [|j _ IH]; [lra|]. cbn [Placement.cellX Placement.cellY]. lra.
Qed.

Lemma cellY_mono i j : (i <= j)%nat -> cellY i <= cellY j.
Proof.
  induction 1 as [|j _ IH]; [lra|]. cbn [Placement.cellX Placement.cellY]. lra.
Qed.

Lemma cellX_linear n : cellX n == inject_Z (Z.of_nat n) * stepX.
Proof.
  induction n as [|n IH].
  - cbn [Placement.cellX Z.of_nat]. change (inject_Z 0) with 0. ring.
  - rewrite Nat2Z.inj_succ. unfold Z.succ. rewrite inject_Z_plus.
    cbn [Placement.cellX]. rewrite IH. change (inject_Z 1) with 1. ring.
Qed.

Lemma cellY_linear n : cellY n == inject_Z (Z.of_nat n) * stepY.
Proof.
  induction n as [|n IH].
  - cbn [Placement.cellY Z.of_nat]. change (inject_Z 0) with 0. ring.
  - rewrite Nat2Z.inj_succ. unfold Z.succ. rewrite inject_Z_plus.
    cbn [Placement.cellY]. rewrite IH. change (inject_Z 1) with 1. ring.
Qed.

(** A number of steps that leaves the scanned extent. *)
Lemma steps_reach (limit step : Q) :
  0 < step ->
  limit <= inject_Z (Z.of_nat (Z.to_nat (Qceiling (limit / step)))) * step.
Proof.
  intros Hs.
  pose proof (Qle_ceiling (limit / step)) as Hc.
  assert (Hz : (Qceiling (limit / step)
                <= Z.of_nat (Z.to_nat (Qceiling (limit / step))))%Z) by lia.
  rewrite Zle_Qle in Hz.
  assert (Hl : limit == limit / step * step) by (field; lra).
  rewrite Hl at 1.
  apply Qmult_le_compat_r; lra.
Qed.

Lemma lastX_out : maxX <= cellX lastX.
Proof. rewrite cellX_linear. apply steps_reach, stepX_pos. Qed.

Lemma lastY_out : maxY <= cellY lastY.
Proof. rewrite cellY_linear. apply steps_reach, stepY_pos. Qed.

Lemma scanRow_sound y fuel :
  forall i r, scanRow fuel (cellX i) y = Some r -> rowResult y i r.
Proof.
  induction fuel as [|fuel IH]; intros i r H; simpl in H; [discriminate|].
  destruct (Qlt_le_dec (cellX i) maxX) as [Hlt|Hge].
  - destruct (collides (cellX i) y) eqn:Hc.
    + specialize (IH (S i) r H). destruct r as [x|]; simpl in *.
      * destruct IH as (n & -> & Hn & Hx & Hfree & Hbefore).
        exists n. repeat split; auto; [lia|].
        intros m Hm. destruct (Nat.eq_dec m i) as [->|]; [exact Hc|].
        apply Hbefore. lia.
      * intros m Hm Hmx. destruct (Nat.eq_dec m i) as [->|]; [exact Hc|].
        apply IH; [lia | exact Hmx].
    + injection H as <-. simpl. exists i. repeat split; auto.
      intros m Hm. lia.
  - injection H as <-. simpl. intros m Hm Hmx.
    pose proof (cellX_mono i m Hm). lra.
Qed.

Lemma scanRow_total y fuel :
  forall i, (i <= lastX)%nat -> (lastX + 1 <= i + fuel)%nat ->
            exists r, scanRow fuel (cellX i) y = Some r.
Proof.
  induction fuel as [|fuel IH]; intros i Hi Hf; [lia|]. simpl.
  destruct (Qlt_le_dec (cellX i) maxX) as [Hlt|Hge]; [|eauto].
  destruct (collides (cellX i) y); [|eauto].
  assert (i <> lastX) by (intros ->; pose proof lastX_out; lra).
  apply (IH (S i)); lia.
Qed.

Lemma scanRows_sound fuel :
  forall j r, scanRows fuel (cellY j) = Some r -> gridResult j r.
Proof.
  induction fuel as [|fuel IH]; intros j r H; [discriminate|].
  cbn [Placement.scanRows] in H.
  destruct (Qlt_le_dec (cellY j) maxY) as [Hlt|Hge].
  - destruct (scanRow (S fuel) 0 (cellY j)) as [[x|]|] eqn:Hrow;
      [| |discriminate].
    + injection H as <-.
      apply (scanRow_sound (cellY j) (S fuel) 0%nat) in Hrow.
      destruct Hrow as (n & -> & _ & Hx & Hfree & Hbefore).
      exists n, j. repeat split; auto.
      * intros m Hm. apply Hbefore. lia.
      * intros j'' m Hj. lia.
    + apply (scanRow_sound (cellY j) (S fuel) 0%nat) in Hrow.
      simpl in Hrow.
      specialize (IH (S j) r H). destruct r as [[x y]|]; simpl in *.
      * destruct IH as (n & j' & -> & -> & Hj & Hx & Hy & Hfree & Hrowb & Hrows).
        exists n, j'. repeat split; auto; [lia|].
        intros j'' m Hj'' Hm.
        destruct (Nat.eq_dec j'' j) as [->|].
        -- apply Hrow; [lia | exact Hm].
        -- apply Hrows; [lia | exact Hm].
      * intros j'' m Hj'' Hy Hm.
        destruct (Nat.eq_dec j'' j) as [->|].
        -- apply Hrow; [lia | exact Hm].
        -- apply IH; [lia | exact Hy | exact Hm].
  - injection H as <-. simpl. intros j'' m Hj Hy Hm.
    pose proof (cellY_mono j j'' Hj). lra.
Qed.

Lemma scanRows_total fuel :
  forall j, (j <= lastY)%nat -> (lastY + lastX + 1 <= j + fuel)%nat ->
            exists r, scanRows fuel (cellY j) = Some r.
Proof.
  induction fuel as [|fuel IH]; intros j Hj Hf; [lia|].
  cbn [Placement.scanRows].
  destruct (Qlt_le_dec (cellY j) maxY) as [Hlt|Hge]; [|eauto].
  assert (j <> lastY) by (intros ->; pose proof lastY_out; lra).
  destruct (scanRow_total (cellY j) (S fuel) 0%nat) as [r Hr]; [lia | lia |].
  change (cellX 0) with 0 in Hr. rewrite Hr.
  destruct r as [x|]; [eauto|].
  apply (IH (S j)); lia.
Qed.
End Solver.

(** A free cell: the new key, grown by the gap on all sides, meets no
    existing key's rectangle. *)
Lemma collides_false width height existing x y :
  collides width height existing x y = false ->
  forall e, In e existing ->
            ~ intersects (expand gap (newRect x y width height)) (rect_of e).
Proof.
  unfold collides. induction existing as [|k ks IH]; intros H e He.
  - contradiction.
  - simpl in H. apply orb_false_elim in H. destruct H as [Hk Hks].
    destruct He as [<-|He]; [|now apply IH].
    apply negb_false_iff in Hk. unfold clear_of in Hk.
    intros (H1 & H2 & H3 & H4). simpl in H1, H2, H3, H4.
    repeat (apply orb_prop in Hk; destruct Hk as [Hk|Hk]);
      apply Qle_bool_imp_le in Hk; lra.
Qed.

Lemma place_sound width height existing fuel x y :
  0 < stepX width -> 0 < stepY height ->
  place width height existing fuel = Some (x, y) ->
  gridResult width height existing 0 (Some (x, y))
  \/ (x = 0 /\ y = 0 /\ grid_full width height existing).
Proof.
  intros Hx Hy H. unfold place in H.
  destruct (scanRows width height existing fuel 0) as [r|] eqn:E; [|discriminate].
  apply (scanRows_sound width height existing Hx Hy fuel 0%nat) in E.
  destruct r as [xy|].
  - injection H as ->. now left.
  - injection H as <- <-. right. repeat split.
    intros i j Hi Hj. apply (E j i); [lia | exact Hj | exact Hi].
Qed.

Lemma place_total width height existing fuel :
  0 < stepX width -> 0 < stepY height ->
  (lastY height + lastX width + 1 <= fuel)%nat ->
  exists xy, place width height existing fuel = Some xy.
Proof.
  intros Hx Hy Hf. unfold place.
  destruct (scanRows_total width height existing Hx Hy fuel 0%nat) as [r Hr];
    [lia | lia |].
  change (cellY height 0) with 0 in Hr. rewrite Hr.
  destruct r; eauto.
Qed.

(** C2, as stated, fails: one key covering the scanned extent is a layout
    without overlaps, every cell collides, and the new key lands on (0, 0),
    inside the existing key. *)
Lemma addKey_overlaps_when_grid_full :
  pairwise_apart [Samples.giantKey] /\
  place DEFAULT_KEY_SIZE DEFAULT_KEY_SIZE [Samples.giantKey] 120 = Some (0, 0) /\
  intersects (expand gap (newRect 0 0 DEFAULT_KEY_SIZE DEFAULT_KEY_SIZE))
             (expand gap (rect_of Samples.giantKey)).
Proof.
  split; [|split].
  - intros [|i] [|j] ki kj Hij Hi Hj; try congruence.
    + destruct j; discriminate Hj.
    + destruct i; discriminate Hi.
    + destruct i; discriminate Hi.
  - vm_compute. reflexivity.
  - unfold intersects; simpl. repeat split; reflexivity.
Qed.

(** The reading of the check in the code: a key placed next to another one
    keeps one gap from it, so that the two rectangles, each grown by the
    gap, do meet. *)
Lemma adjacent_keys_one_gap_apart :
  place DEFAULT_KEY_SIZE DEFAULT_KEY_SIZE
        [Samples.keyAt "a" rect 0 0 13.5 13.5 []] 120 = Some (15.5, 0) /\
  intersects (expand gap (newRect 15.5 0 DEFAULT_KEY_SIZE DEFAULT_KEY_SIZE))
             (expand gap (rect_of (Samples.keyAt "a" rect 0 0 13.5 13.5 []))).
Proof.
  split.
  - vm_compute. reflexivity.
  - unfold intersects; simpl. repeat split; reflexivity.
Qed.

(** The test of the code is the geometric one, in both directions. *)
Lemma collides_false_free width height existing x y :
  collides width height existing x y = false
  <-> free width height existing x y.
Proof.
  split.
  { intros H e He. exact (collides_false width height existing x y H e He). }
  unfold free, collides. induction existing as [|k ks IH]; intros H;
    [reflexivity|].
  cbn [existsb]. apply orb_false_intro.
  - apply negb_false_iff. unfold clear_of.
    destruct (Qle_bool (x + width + gap) (k_x k)) eqn:E1; [reflexivity|].
    destruct (Qle_bool (k_x k + k_width k + gap) x) eqn:E2;
      [now rewrite orb_true_r|].
    destruct (Qle_bool (y + height + gap) (k_y k)) eqn:E3;
      [now rewrite orb_true_r|].
    destruct (Qle_bool (k_y k + k_height k + gap) y) eqn:E4;
      [now rewrite orb_true_r|].
    exfalso. apply (H k); [now left|].
    assert (F : forall a b, Qle_bool a b = false -> b < a).
    { intros a b E. destruct (Qlt_le_dec b a) as [Hl|Hl]; [exact Hl|].
      apply Qle_bool_iff in Hl. congruence. }
    apply F in E1, E2, E3, E4.
    unfold intersects; cbn [expand newRect rect_of r_x r_y r_w r_h].
    repeat split; lra.
  - apply IH. intros e He. apply H. now right.
Qed.

Lemma collides_true_taken width height existing x y :
  collides width height existing x y = true
  <-> taken width height existing x y.
Proof.
  split.
  - intros H. unfold collides in H. apply existsb_exists in H.
    destruct H as (k & Hk & Hc). exists k. split; [exact Hk|].
    apply negb_true_iff in Hc. unfold clear_of in Hc.
    repeat (apply orb_false_elim in Hc; destruct Hc as [Hc ?]).
    assert (F : forall a b, Qle_bool a b = false -> b < a).
    { intros a b E. destruct (Qlt_le_dec b a) as [Hl|Hl]; [exact Hl|].
      apply Qle_bool_iff in Hl. congruence. }
    repeat match goal with E : Qle_bool _ _ = false |- _ => apply F in E end.
    unfold intersects; cbn [expand newRect rect_of r_x r_y r_w r_h].
    repeat split; lra.
  - intros (e & He & Hi).
    destruct (collides width height existing x y) eqn:E; [reflexivity|].
    exfalso. exact (collides_false width height existing x y E e He Hi).
Qed.

Lemma dyadic_intro q n :
  (Z.abs n <= 2 ^ 50)%Z -> q == inject_Z n / 1024 -> dyadic q = true.
Proof.
  intros Hn Hq. unfold dyadic.
  assert (Hf : Qfloor (q * 1024) = n).
  { assert (E : q * 1024 == inject_Z n) by (rewrite Hq; field).
    rewrite E. apply Qfloor_Z. }
  rewrite Hf. apply andb_true_intro. split.
  - apply Qeq_bool_iff. now symmetry.
  - now apply Z.leb_le.
Qed.

Lemma dyadic_elim q :
  dyadic q = true ->
  exists n, (Z.abs n <= 2 ^ 50)%Z /\ q == inject_Z n / 1024.
Proof.
  unfold dyadic. intros H. apply andb_prop in H. destruct H as [H1 H2].
  exists (Qfloor (q * 1024)). split; [now apply Z.leb_le|].
  apply Qeq_bool_iff in H1. now symmetry.
Qed.

(** A scanned position is again such a length: a number of steps of a
    dyadic size plus the gap, below 800. *)
Lemma scanned_dyadic size n :
  dyadic size = true -> 0 < size + gap ->
  inject_Z (Z.of_nat n) * (size + gap) < 800 ->
  dyadic (inject_Z (Z.of_nat n) * (size + gap)) = true.
Proof.
  intros Hd Hpos Hlt. destruct (dyadic_elim size Hd) as (m & _ & Hm).
  assert (E : inject_Z (Z.of_nat n) * (size + gap)
              == inject_Z (Z.of_nat n * (m + 2048)) / 1024).
  { rewrite inject_Z_mult, inject_Z_plus, Hm. unfold gap, DEFAULT_KEY_GAP.
    change (inject_Z 2048) with 2048. field. }
  apply (dyadic_intro _ (Z.of_nat n * (m + 2048))); [|exact E].
  assert (H0 : 0 <= inject_Z (Z.of_nat n) * (size + gap)).
  { apply Qmult_le_0_compat; [|lra].
    change 0 with (inject_Z 0). rewrite <- Zle_Qle. lia. }
  rewrite E in H0, Hlt.
  set (N := (Z.of_nat n * (m + 2048))%Z) in *.
  assert (HN0 : 0 <= inject_Z N) by (revert H0; qdiv; lra).
  assert (HN1 : inject_Z N < 819200) by (revert Hlt; qdiv; lra).
  change 0 with (inject_Z 0) in HN0. rewrite <- Zle_Qle in HN0.
  change 819200 with (inject_Z 819200) in HN1. rewrite <- Zlt_Qlt in HN1.
  lia.
Qed.

Lemma dyadic_compat q r : q == r -> dyadic q = dyadic r.
Proof.
  intros E. unfold dyadic.
  assert (Ef : Qfloor (q * 1024) = Qfloor (r * 1024)) by now rewrite E.
  rewrite Ef. f_equal.
  destruct (Qeq_bool (inject_Z (Qfloor (r * 1024)) / 1024) q) eqn:E1,
           (Qeq_bool (inject_Z (Qfloor (r * 1024)) / 1024) r) eqn:E2;
    try reflexivity.
  - apply Qeq_bool_iff in E1.
    assert (X : inject_Z (Qfloor (r * 1024)) / 1024 == r)
      by (eapply Qeq_trans; [exact E1 | exact E]).
    apply Qeq_bool_iff in X. congruence.
  - apply Qeq_bool_iff in E2.
    assert (X : inject_Z (Qfloor (r * 1024)) / 1024 == q)
      by (eapply Qeq_trans; [exact E2 | symmetry; exact E]).
    apply Qeq_bool_iff in X. congruence.
Qed.

(** C2 (amended): take a layout whose positions and sizes, and a requested
    size which, are multiples of 1/1024 mm of at most 2^40 mm, so that the
    sums of the code are exact, with positive grid steps.  The scan ends
    and [addKey] appends one key of the requested size; the layout is
    again of that kind.  The scanned cells are the multiples of the steps
    below 800.  If one of them is free, the key sits on the first free
    cell in row-major order: free there, and every cell before it taken;
    if every scanned cell is taken, the key sits at (0, 0). *)
Theorem addKey_first_free_cell_or_origin
    (fresh_id now : string) (key : KeyPartial) (s : History.EditorState) :
  let width := nullish (p_width key) DEFAULT_KEY_SIZE in
  let height := nullish (p_height key) DEFAULT_KEY_SIZE in
  let existing := keys (layout (History.project s)) in
  dyadic width = true -> dyadic height = true ->
  forallb dyadicKey existing = true ->
  0 < width + gap -> 0 < height + gap ->
  (forall m, cellX width m == inject_Z (Z.of_nat m) * (width + gap) /\
             cellY height m == inject_Z (Z.of_nat m) * (height + gap)) /\
  exists fuel0, forall fuel, (fuel0 <= fuel)%nat ->
    exists s' k,
      addKey fuel fresh_id now key s = Some s' /\
      keys (layout (History.project s')) = existing ++ [k] /\
      k_width k = width /\ k_height k = height /\
      forallb dyadicKey (existing ++ [k]) = true /\
      ((exists i j,
          k_x k = cellX width i /\ k_y k = cellY height j /\
          k_x k < maxX /\ k_y k < maxY /\
          free width height existing (k_x k) (k_y k) /\
          (forall m, (m < i)%nat ->
             taken width height existing (cellX width m) (cellY height j)) /\
          (forall j' m, (j' < j)%nat -> cellX width m < maxX ->
             taken width height existing (cellX width m) (cellY height j')))
       \/ (k_x k = 0 /\ k_y k = 0 /\
           forall i j, cellX width i < maxX -> cellY height j < maxY ->
             taken width height existing (cellX width i) (cellY height j))).
Proof.
  intros width height existing Dw Dh De Hx Hy.
  split.
  { intros m. split;
      [apply (cellX_linear width) | apply (cellY_linear height)]. }
  exists (lastY height + lastX width + 1)%nat. intros fuel Hf.
  destruct (place_total width height existing fuel Hx Hy Hf) as [[x y] Hplace].
  unfold addKey, addKeyDraft. fold width height existing. rewrite Hplace.
  eexists _, _. split; [reflexivity|].
  split; [reflexivity|]. split; [reflexivity|]. split; [reflexivity|].
  cbn [createKey placedInput k_x k_y in_x in_y].
  assert (Hcase :
    (exists i j,
        x = cellX width i /\ y = cellY height j /\ x < maxX /\ y < maxY /\
        free width height existing x y /\
        (forall m, (m < i)%nat ->
           taken width height existing (cellX width m) (cellY height j)) /\
        (forall j' m, (j' < j)%nat -> cellX width m < maxX ->
           taken width height existing (cellX width m) (cellY height j')))
    \/ (x = 0 /\ y = 0 /\
        forall i j, cellX width i < maxX -> cellY height j < maxY ->
          taken width height existing (cellX width i) (cellY height j))).
  { destruct (place_sound width height existing fuel x y Hx Hy Hplace)
      as [Hfree|(-> & -> & Hfull)].
    - left.
      destruct Hfree as (n & j' & -> & -> & _ & Hxm & Hym & Hc & Hrow & Hrows).
      exists n, j'. split; [reflexivity|]. split; [reflexivity|].
      split; [exact Hxm|]. split; [exact Hym|].
      split; [now apply collides_false_free|]. split.
      + intros m Hm. apply collides_true_taken. now apply Hrow.
      + intros j'' m Hj Hm. apply collides_true_taken.
        apply Hrows; [lia | exact Hm].
    - right. split; [reflexivity|]. split; [reflexivity|].
      intros i j Hi Hj. apply collides_true_taken. now apply Hfull. }
  split; [|exact Hcase].
  rewrite forallb_app. apply andb_true_intro. split; [exact De|].
  cbn [forallb]. rewrite andb_true_r. unfold dyadicKey.
  cbn [createKey placedInput k_x k_y k_width k_height
       in_x in_y in_width in_height].
  fold width height. rewrite Dw, Dh, !andb_true_r.
  apply andb_true_intro.
  destruct Hcase as [(i & j & -> & -> & Hxm & Hym & _)|(-> & -> & _)].
  - split.
    + rewrite (dyadic_compat _ _ (cellX_linear width i)).
      apply scanned_dyadic; [exact Dw | exact Hx|].
      rewrite <- (cellX_linear width i). exact Hxm.
    + rewrite (dyadic_compat _ _ (cellY_linear height j)).
      apply scanned_dyadic; [exact Dh | exact Hy|].
      rewrite <- (cellY_linear height j). exact Hym.
  - split; reflexivity.
Qed.

Lemma addKey_first_free_cell_or_origin_witness :
  let width := DEFAULT_KEY_SIZE in
  let height := DEFAULT_KEY_SIZE in
  let existing := Samples.threeKeys in
  (forall m, cellX width m == inject_Z (Z.of_nat m) * (width + gap) /\
             cellY height m == inject_Z (Z.of_nat m) * (height + gap)) /\
  exists fuel0, forall fuel, (fuel0 <= fuel)%nat ->
    exists s' k,
      addKey fuel "n1" "now" emptyPartial
        (History.initialState (Samples.projectOf "demo" Samples.threeKeys))
        = Some s' /\
      keys (layout (History.project s')) = existing ++ [k] /\
      k_width k = width /\ k_height k = height /\
      forallb dyadicKey (existing ++ [k]) = true /\
      ((exists i j,
          k_x k = cellX width i /\ k_y k = cellY height j /\
          k_x k < maxX /\ k_y k < maxY /\
          free width height existing (k_x k) (k_y k) /\
          (forall m, (m < i)%nat ->
             taken width height existing (cellX width m) (cellY height j)) /\
          (forall j' m, (j' < j)%nat -> cellX width m < maxX ->
             taken width height existing (cellX width m) (cellY height j')))
       \/ (k_x k = 0 /\ k_y k = 0 /\
           forall i j, cellX width i < maxX -> cellY height j < maxY ->
             taken width height existing (cellX width i) (cellY height j))).
Proof.
  apply (addKey_first_free_cell_or_origin "n1" "now" emptyPartial
           (History.initialState (Samples.projectOf "demo" Samples.threeKeys)));
    reflexivity.
Defined.

End PlacementFacts.

(** ** Key outlines *)

Module OutlineFacts.

Lemma Qltb_true a b : Qltb a b = true <-> a < b.
Proof.
  unfold Qltb. destruct (Qlt_le_dec a b); split; intros; try reflexivity;
    try discriminate; try assumption. lra.
Qed.

Lemma Qltb_compat a a' b b' : a == a' -> b == b' -> Qltb a b = Qltb a' b'.
Proof.
  intros Ha Hb. unfold Qltb.
  destruct (Qlt_le_dec a b), (Qlt_le_dec a' b'); try reflexivity; lra.
Qed.

(** A horizontal edge is never crossed by a horizontal ray. *)
Lemma crosses_horizontal p a b : pt_y a == pt_y b -> crosses p a b = false.
Proof.
  intros H. unfold crosses.
  rewrite (Qltb_compat (pt_y p) (pt_y p) (pt_y a) (pt_y b)) by (lra || exact H).
  now rewrite Bool.eqb_reflx.
Qed.

(** A vertical edge is crossed when the point is level with it and to its
    left. *)
Lemma crosses_vertical p a b :
  pt_x a == pt_x b ->
  crosses p a b
  = negb (Bool.eqb (Qltb (pt_y p) (pt_y a)) (Qltb (pt_y p) (pt_y b)))
    && Qltb (pt_x p) (pt_x a).
Proof.
  intros H. unfold crosses. f_equal.
  apply Qltb_compat; [reflexivity|].
  unfold Qdiv. setoid_replace (pt_x b - pt_x a) with 0 by lra. ring.
Qed.

(** The region enclosed by an L of six vertices. *)
Lemma ellOutline_inside xl xr xm yt ym yb p :
  yt <= ym -> ym <= yb -> xl <= xr -> xm <= xr ->
  inside (ellOutline xl xr xm yt ym yb) p = true
  <-> ellRegion xl xr xm yt ym yb p.
Proof.
  intros Hy1 Hy2 Hx1 Hx2. unfold inside, ellOutline, edges, ellRegion.
  cbn [edges_from filter fst snd].
  rewrite (crosses_horizontal p (mkPoint xl yt)) by (simpl; lra).
  rewrite (crosses_horizontal p (mkPoint xr yb)) by (simpl; lra).
  rewrite (crosses_horizontal p (mkPoint xm ym)) by (simpl; lra).
  rewrite (crosses_vertical p (mkPoint xr yt)) by (simpl; lra).
  rewrite (crosses_vertical p (mkPoint xm yb)) by (simpl; lra).
  rewrite (crosses_vertical p (mkPoint xl ym)) by (simpl; lra).
  cbn [pt_x pt_y mkPoint].
  destruct p as [px py]; cbn [pt_x pt_y].
  split_tests; cbn; split; intros Hin;
    first [ discriminate Hin | reflexivity | (exfalso; lra)
          | (exfalso; destruct Hin as [Hin|Hin]; lra)
          | (left; lra) | (right; lra) ].
Qed.

Lemma ellOutline_bbox xl xr xm yt ym yb :
  xl <= xm -> xm <= xr -> yt <= ym -> ym <= yb ->
  sixVerticesIn (ellOutline xl xr xm yt ym yb) (xr - xl) (yb - yt).
Proof.
  intros Hx1 Hx2 Hy1 Hy2. split; [reflexivity|].
  eexists. split; [reflexivity|].
  unfold bbox_width, bbox_height; cbn [fold_left bbox_add ellOutline mkPoint
    pt_x pt_y min_x min_y max_x max_y].
  split; split_tests; lra.
Qed.

Lemma mmToPixels_pos mm dpi : 0 < mm -> 0 < dpi -> 0 < mmToPixels mm dpi.
Proof.
  intros Hm Hd. unfold mmToPixels, MM_PER_INCH.
  apply Qmult_lt_0_compat; [qdiv; lra | exact Hd].
Qed.

Lemma mmToPoints_linear mm : mmToPoints mm == mm * (72 / 25.4).
Proof. unfold mmToPoints, MM_PER_INCH, POINTS_PER_INCH. field. Qed.

(** C4: for an ISO enter key of 20.25 mm by 27 mm, each renderer builds an
    outline of exactly six vertices whose bounding box, before rotation,
    is the key's 20.25 mm by 27 mm: as such in the SVG exporter, converted
    to points in the PDF exporter and to pixels on the canvas. *)
Theorem iso_enter_scenario_six_vertices_bbox (key : KeyModel) :
  k_keyType key = Some iso_enter ->
  k_width key == 20.25 -> k_height key == 27 ->
  (forall x y, sixVerticesIn (Svg.outline x y key) 20.25 27) /\
  (forall pageHeight margin,
      sixVerticesIn (Pdf.rawOutline (Pdf.keyFrame pageHeight margin key) key)
                    (mmToPoints 20.25) (mmToPoints 27)) /\
  (forall dpi effectiveScale,
      0 < dpi -> 0 < effectiveScale ->
      sixVerticesIn (Canvas.outline dpi effectiveScale key)
                    (mmToPixels 20.25 dpi * effectiveScale)
                    (mmToPixels 27 dpi * effectiveScale)).
Proof.
  intros Hty Hw Hh. split; [|split].
  - intros x y. unfold Svg.outline. rewrite Hty.
    destruct (ellOutline_bbox x (x + k_width key)
                (x + k_width key - k_height key / 2)
                y (y + k_height key / 2) (y + k_height key))
      as (Hlen & b & Hb & Hbw & Hbh); try (qdiv; lra).
    split; [exact Hlen|]. exists b. split; [exact Hb|]. split; lra.
  - intros pageHeight margin. unfold Pdf.rawOutline. rewrite Hty.
    set (f := Pdf.keyFrame pageHeight margin key).
    assert (HW : Pdf.keyWidthPt f == mmToPoints 20.25).
    { unfold f, Pdf.keyFrame; cbn [Pdf.keyWidthPt]. unfold mmToPoints.
      rewrite Hw. reflexivity. }
    assert (HH : Pdf.keyHeightPt f == mmToPoints 27).
    { unfold f, Pdf.keyFrame; cbn [Pdf.keyHeightPt]. unfold mmToPoints.
      rewrite Hh. reflexivity. }
    assert (Hhalf : mmToPoints (k_height key / 2) == mmToPoints 27 / 2).
    { unfold mmToPoints, MM_PER_INCH, POINTS_PER_INCH. rewrite Hh. field. }
    pose proof (mmToPoints_linear 27) as E27.
    pose proof (mmToPoints_linear 20.25) as E20.
    destruct (ellOutline_bbox (Pdf.originX f) (Pdf.originX f + Pdf.keyWidthPt f)
                (Pdf.originX f + Pdf.keyWidthPt f - mmToPoints (k_height key / 2))
                (Pdf.originY f) (Pdf.originY f + mmToPoints (k_height key / 2))
                (Pdf.originY f + Pdf.keyHeightPt f))
      as (Hlen & b & Hb & Hbw & Hbh); try (qdiv; lra).
    split; [exact Hlen|]. exists b. split; [exact Hb|]. split; lra.
  - intros dpi effectiveScale Hdpi Hs. unfold Canvas.outline. rewrite Hty.
    set (w := Canvas.wPx dpi effectiveScale key).
    set (h := Canvas.hPx dpi effectiveScale key).
    assert (Hu : 0 < mmToPixels 1 dpi * effectiveScale).
    { apply Qmult_lt_0_compat; [apply mmToPixels_pos; lra | exact Hs]. }
    assert (HW : w == 20.25 * (mmToPixels 1 dpi * effectiveScale)).
    { unfold w, Canvas.wPx, mmToPixels, MM_PER_INCH. rewrite Hw. field. }
    assert (HH : h == 27 * (mmToPixels 1 dpi * effectiveScale)).
    { unfold h, Canvas.hPx, mmToPixels, MM_PER_INCH. rewrite Hh. field. }
    assert (HW' : mmToPixels 20.25 dpi * effectiveScale == w).
    { rewrite HW. unfold mmToPixels, MM_PER_INCH. field. }
    assert (HH' : mmToPixels 27 dpi * effectiveScale == h).
    { rewrite HH. unfold mmToPixels, MM_PER_INCH. field. }
    destruct (ellOutline_bbox 0 w (w - h / 2) 0 (h / 2) h)
      as (Hlen & b & Hb & Hbw & Hbh); try (qdiv; lra).
    split; [exact Hlen|]. exists b. split; [exact Hb|]. split; lra.
Qed.

Lemma iso_enter_scenario_six_vertices_bbox_witness :
  sixVerticesIn (Svg.outline 6 6 Samples.isoEnterKey) 20.25 27.
Proof.
  refine (proj1 (iso_enter_scenario_six_vertices_bbox
                   Samples.isoEnterKey eq_refl _ _) 6 6); reflexivity.
Defined.

(** C5, as stated, fails: on the 20.25 mm by 27 mm ISO enter key the point
    (19, 3), inside the square at the top-right corner, belongs to the
    outline, and the point (3, 20), at the bottom left, does not. *)
Lemma iso_enter_notch_not_top_right :
  inside (Svg.outline 0 0 Samples.isoEnterKey) (mkPoint 19 3) = true /\
  ~ notchTopRightRegion 0 0 20.25 27 (mkPoint 19 3) /\
  inside (Svg.outline 0 0 Samples.isoEnterKey) (mkPoint 3 20) = false /\
  notchTopRightRegion 0 0 20.25 27 (mkPoint 3 20).
Proof.
  split; [vm_compute; reflexivity|].
  split.
  { intros [_ Hn]. apply Hn. simpl. split; reflexivity || discriminate. }
  split; [vm_compute; reflexivity|].
  unfold notchTopRightRegion; simpl.
  split.
  - repeat split; reflexivity || discriminate.
  - intros [Hy _]. revert Hy. vm_compute. discriminate.
Qed.

(** What the region of an ISO enter key amounts to, by the key's
    proportions. *)
Lemma isoEnterRegion_wide x y w h p :
  0 < w -> 0 < h -> h / 2 <= w ->
  isoEnterRegion x y w h p
  <-> keyBox x y w h p /\ ~ bottomLeftPart x y w h p.
Proof.
  unfold isoEnterRegion, keyBox, bottomLeftPart. qdiv. intros Hw Hh Hwide.
  split.
  - intros [H|H]; (split; [lra|]); intros Hb; lra.
  - intros [Hk Hn].
    destruct (Qlt_le_dec (pt_y p) (y + h * (1 # 2))) as [Ht|Hb];
      [left; lra|].
    right. destruct (Qlt_le_dec (pt_x p) (x + w - h * (1 # 2))) as [Hl|Hr];
      [|lra].
    exfalso. apply Hn. lra.
Qed.

Lemma isoEnterRegion_narrow x y w h p :
  0 < w -> 0 < h -> overhang x y w h p -> isoEnterRegion x y w h p.
Proof.
  unfold isoEnterRegion, overhang. qdiv. intros Hw Hh Ho. right. lra.
Qed.

(** C5 (amended): the outline of an ISO enter key of positive size, as the
    SVG exporter and the canvas build it, has six vertices and encloses
    exactly the top half of the key's height over its full width together
    with the bottom half over the strip of width half the height that
    ends at the key's right edge.  On a key at least half as wide as it is
    high, the bounding box of the vertices is the key's and the outline
    fills it but for the bottom-left part beside the strip; on a narrower
    key the strip reaches out to the left of the key's left edge. *)
Theorem iso_enter_outline_region (key : KeyModel) (p : Point) :
  k_keyType key = Some iso_enter ->
  0 < k_width key -> 0 < k_height key ->
  (forall x y,
      length (Svg.outline x y key) = 6%nat /\
      (inside (Svg.outline x y key) p = true
       <-> isoEnterRegion x y (k_width key) (k_height key) p) /\
      (k_height key / 2 <= k_width key ->
       sixVerticesIn (Svg.outline x y key) (k_width key) (k_height key) /\
       (inside (Svg.outline x y key) p = true
        <-> keyBox x y (k_width key) (k_height key) p /\
            ~ bottomLeftPart x y (k_width key) (k_height key) p)) /\
      (k_width key < k_height key / 2 ->
       overhang x y (k_width key) (k_height key) p ->
       inside (Svg.outline x y key) p = true)) /\
  (forall dpi effectiveScale,
      0 < dpi -> 0 < effectiveScale ->
      let w := Canvas.wPx dpi effectiveScale key in
      let h := Canvas.hPx dpi effectiveScale key in
      length (Canvas.outline dpi effectiveScale key) = 6%nat /\
      (inside (Canvas.outline dpi effectiveScale key) p = true
       <-> isoEnterRegion 0 0 w h p) /\
      (h / 2 <= w ->
       sixVerticesIn (Canvas.outline dpi effectiveScale key) w h /\
       (inside (Canvas.outline dpi effectiveScale key) p = true
        <-> keyBox 0 0 w h p /\ ~ bottomLeftPart 0 0 w h p)) /\
      (w < h / 2 ->
       overhang 0 0 w h p ->
       inside (Canvas.outline dpi effectiveScale key) p = true)).
Proof.
  intros Hty Hw Hh. split.
  - intros x y.
    assert (Hreg : inside (Svg.outline x y key) p = true
                   <-> isoEnterRegion x y (k_width key) (k_height key) p).
    { unfold Svg.outline. rewrite Hty.
      change (inside (ellOutline x (x + k_width key)
                        (x + k_width key - k_height key / 2)
                        y (y + k_height key / 2) (y + k_height key)) p = true
              <-> isoEnterRegion x y (k_width key) (k_height key) p).
      rewrite ellOutline_inside by (qdiv; lra).
      unfold ellRegion, isoEnterRegion. tauto. }
    split; [unfold Svg.outline; rewrite Hty; reflexivity|].
    split; [exact Hreg|]. split.
    + intros Hwide. split.
      * unfold Svg.outline. rewrite Hty.
        destruct (ellOutline_bbox x (x + k_width key)
                    (x + k_width key - k_height key / 2)
                    y (y + k_height key / 2) (y + k_height key))
          as (Hlen & b & Hb & Hbw & Hbh);
          try (revert Hwide; qdiv; intros; lra).
        split; [exact Hlen|]. exists b. split; [exact Hb|]. split; lra.
      * rewrite Hreg. now apply isoEnterRegion_wide.
    + intros Hnarrow Ho. apply Hreg. now apply isoEnterRegion_narrow.
  - intros dpi effectiveScale Hdpi Hs w h.
    assert (Hwp : 0 < w).
    { apply Qmult_lt_0_compat; [now apply mmToPixels_pos | exact Hs]. }
    assert (Hhp : 0 < h).
    { apply Qmult_lt_0_compat; [now apply mmToPixels_pos | exact Hs]. }
    assert (Hout : Canvas.outline dpi effectiveScale key
                   = ellOutline 0 w (w - h / 2) 0 (h / 2) h).
    { unfold Canvas.outline. rewrite Hty. reflexivity. }
    assert (Hreg : inside (Canvas.outline dpi effectiveScale key) p = true
                   <-> isoEnterRegion 0 0 w h p).
    { rewrite Hout. rewrite ellOutline_inside by (qdiv; lra).
      unfold ellRegion, isoEnterRegion. qdiv.
      split; (intros [H|H]; [left|right]); lra. }
    split; [rewrite Hout; reflexivity|].
    split; [exact Hreg|]. split.
    + intros Hwide. split.
      * rewrite Hout.
        destruct (ellOutline_bbox 0 w (w - h / 2) 0 (h / 2) h)
          as (Hlen & b & Hb & Hbw & Hbh);
          try (revert Hwide; qdiv; intros; lra).
        split; [exact Hlen|]. exists b. split; [exact Hb|]. split; lra.
      * rewrite Hreg. now apply isoEnterRegion_wide.
    + intros Hnarrow Ho. apply Hreg. now apply isoEnterRegion_narrow.
Qed.

Lemma iso_enter_outline_region_witness :
  inside (Svg.outline 6 6 Samples.isoEnterKey) (mkPoint 10 30) = true
  <-> keyBox 6 6 20.25 27 (mkPoint 10 30) /\
      ~ bottomLeftPart 6 6 20.25 27 (mkPoint 10 30).
Proof.
  refine (proj2 (proj1 (proj2 (proj2 (proj1
            (iso_enter_outline_region Samples.isoEnterKey
               (mkPoint 10 30) eq_refl _ _) 6 6))) _));
    try reflexivity.
  intros H; discriminate H.
Defined.

(** The PDF exporter lists the same six vertices in its own frame, whose y
    axis points up from the key's bottom edge: there the full-width band
    is the lower half of the key on the page and the strip is the upper
    half, the mirror image of what the SVG exporter and the canvas draw. *)
Lemma pdf_iso_enter_outline_mirrored (key : KeyModel) (pageHeight margin : Q)
    (p : Point) :
  k_keyType key = Some iso_enter ->
  0 < k_width key -> 0 < k_height key ->
  let f := Pdf.keyFrame pageHeight margin key in
  inside (Pdf.rawOutline f key) p = true
  <-> ellRegion (Pdf.originX f) (Pdf.originX f + Pdf.keyWidthPt f)
        (Pdf.originX f + Pdf.keyWidthPt f - mmToPoints (k_height key / 2))
        (Pdf.originY f) (Pdf.originY f + mmToPoints (k_height key / 2))
        (Pdf.originY f + Pdf.keyHeightPt f) p.
Proof.
  intros Hty Hw Hh f. unfold Pdf.rawOutline. rewrite Hty.
  apply ellOutline_inside;
    unfold f, Pdf.keyFrame, mmToPoints, MM_PER_INCH, POINTS_PER_INCH;
    cbn [Pdf.originX Pdf.originY Pdf.keyWidthPt Pdf.keyHeightPt];
    qdiv; lra.
Qed.

End OutlineFacts.

(** ** Element placement *)

Module PlacerFacts.

(** The SVG exporter draws an element where the placer puts it, moved to
    the key's origin on the page. *)
Lemma svg_elementBox_placer x y key el :
  Box_eq (Svg.elementBox x y key el)
         {| box_x := x + box_x (placerBox key el);
            box_y := y + box_y (placerBox key el);
            box_w := box_w (placerBox key el);
            box_h := box_h (placerBox key el) |}.
Proof.
  unfold Box_eq, Svg.elementBox, placerBox; simpl. repeat split; ring.
Qed.

(** So does the PDF exporter, in points and with the y axis turned: its
    [elY] is the bottom edge of the rectangle, measured up from the key's
    bottom edge. *)
Lemma pdf_elementBox_placer pageHeight margin key el :
  let f := Pdf.keyFrame pageHeight margin key in
  Box_eq (Pdf.elementBox f key el)
         {| box_x := Pdf.originX f + mmToPoints (box_x (placerBox key el));
            box_y := Pdf.originY f
                     + mmToPoints (k_height key
                                   - (box_y (placerBox key el)
                                      + box_h (placerBox key el)));
            box_w := mmToPoints (box_w (placerBox key el));
            box_h := mmToPoints (box_h (placerBox key el)) |}.
Proof.
  unfold Box_eq, Pdf.elementBox, placerBox, mmToPoints, MM_PER_INCH; simpl.
  repeat split; field.
Qed.

(** The canvas takes the key's padding, whatever the element's own. *)
Lemma canvas_elementBox_key_padding dpi key el :
  Box_eq (Canvas.elementBox dpi key el)
         {| box_x := mmToPixels (orElse (el_x el) 0 + k_padding key) dpi;
            box_y := mmToPixels (orElse (el_y el) 0 + k_padding key) dpi;
            box_w := mmToPixels (orElse (el_width el) (k_width key)
                                 - 2 * k_padding key) dpi;
            box_h := mmToPixels (orElse (el_height el) (k_height key)
                                 - 2 * k_padding key) dpi |}.
Proof.
  unfold Box_eq, Canvas.elementBox, mmToPixels, MM_PER_INCH; simpl.
  repeat split; field.
Qed.

(** C6: the canvas departs from the placer.  For a key with padding 1 mm
    and a label with its own padding of 2 mm, at one pixel per millimetre,
    the placer and both exporters give the rectangle (2, 2, 9.5, 9.5); the
    canvas draws (1, 1, 11.5, 11.5). *)
Theorem canvas_ignores_element_padding :
  let key := Samples.thinPaddedKey in
  let el := Samples.paddedLabel in
  In el (k_elements key) /\
  Box_eq (placerBox key el)
         {| box_x := 2; box_y := 2; box_w := 9.5; box_h := 9.5 |} /\
  Box_eq (Svg.elementBox 0 0 key el)
         {| box_x := 2; box_y := 2; box_w := 9.5; box_h := 9.5 |} /\
  Box_eq (Canvas.elementBox MM_PER_INCH key el)
         {| box_x := 1; box_y := 1; box_w := 11.5; box_h := 11.5 |} /\
  ~ Box_eq (Canvas.elementBox MM_PER_INCH key el)
           {| box_x := mmToPixels (box_x (placerBox key el)) MM_PER_INCH;
              box_y := mmToPixels (box_y (placerBox key el)) MM_PER_INCH;
              box_w := mmToPixels (box_w (placerBox key el)) MM_PER_INCH;
              box_h := mmToPixels (box_h (placerBox key el)) MM_PER_INCH |}.
Proof.
  intros key el.
  split; [now left|].
  split; [|split; [|split]].
  - repeat split; vm_compute; reflexivity.
  - repeat split; vm_compute; reflexivity.
  - repeat split; vm_compute; reflexivity.
  - intros (Hx & _). vm_compute in Hx. discriminate Hx.
Qed.

End PlacerFacts.

(** ** The image fit on an image of height zero *)

Module ImageFitFacts.
Import JSNum ImageFit.










End ImageFitFacts.

(** ** Text placement in the two exporters *)

Module TextFacts.

Lemma rotPt_no_rotation cosDeg sinDeg f x y :
  Pdf.rotationDeg f == 0 -> Pdf.rotPt cosDeg sinDeg f x y = Pdf.pt x y.
Proof.
  intros H. unfold Pdf.rotPt. apply Qeq_bool_iff in H. now rewrite H.
Qed.

(** The placement formulas of the two exporters, for a key without
    rotation and a text element over the whole key: the PDF exporter
    starts the text 2 pt plus the padding to the right of the key's left
    edge, with its baseline half the font size (in points) below the key's
    horizontal centre line; the SVG exporter starts it 2 mm plus the
    padding to the right, with its baseline at the padding plus the font
    size (in millimetres) plus 2 mm below the key's top edge. *)
Lemma text_offsets_pdf_and_svg
    (cosDeg sinDeg : Q -> Q) (pageHeight margin : Q)
    (key : KeyModel) (el : KeyElement) (t : TextProps) :
  orElse (k_rotation key) 0 == 0 -> fillsKey key el ->
  let f := Pdf.keyFrame pageHeight margin key in
  let pad := effectivePadding key el in
  let size := orElse (fontSize t) 10 in
  pt_x (Pdf.textOffset cosDeg sinDeg f key el t) == mmToPoints pad + 2 /\
  pt_y (Pdf.textOffset cosDeg sinDeg f key el t)
    == mmToPoints (k_height key / 2) + size / 2 /\
  pt_x (Svg.textOffset margin key el t) == pad + 2 /\
  pt_y (Svg.textOffset margin key el t) == pad + size + 2.
Proof.
  intros Hrot (Hx & Hy & Hw & Hh) f pad size.
  assert (Hf : Pdf.rotationDeg f == 0).
  { unfold f, Pdf.keyFrame; cbn [Pdf.rotationDeg]. rewrite Hrot. reflexivity. }
  unfold Pdf.textOffset, Pdf.textOrigin.
  rewrite (rotPt_no_rotation cosDeg sinDeg f _ _ Hf).
  unfold Svg.textOffset, Svg.textPos, Pdf.textXY, Pdf.elementBox.
  fold pad size.
  cbn [pt_x pt_y Pdf.pt Svg.pt box_x box_y box_w box_h].
  unfold f, Pdf.keyFrame;
    cbn [Pdf.originX Pdf.originY Pdf.keyWidthPt Pdf.keyHeightPt].
  unfold mmToPoints, MM_PER_INCH, POINTS_PER_INCH.
  set (ex := orElse (el_x el) 0) in *.
  set (ey := orElse (el_y el) 0) in *.
  set (eh := orElse (el_height el) (k_height key)) in *.
  repeat split; qdiv; lra.
Qed.

(** C8: the two exporters do not place the text at the same offset.  In
    the scenario (A4 portrait, margin 6 mm, one rect key at (0, 0) of
    18 mm by 18 mm without rotation, holding one label of size 11 with
    2 mm of padding over the whole key) the PDF exporter starts the text
    2 pt after the padding and puts its baseline half the font size, in
    points, below the key's centre line, where the SVG exporter starts it
    2 mm after the padding, 4 mm from the key's left edge, and puts its
    baseline 15 mm below the key's top edge: the SVG text starts more than
    1 mm further right and its baseline is more than 4 mm lower. *)
Theorem text_offsets_differ_in_scenario :
  let key := Samples.labelledKey in
  let el := Samples.wideLabel in
  let t := Samples.labelProps in
  let project := Samples.labelledProject in
  let f := Pdf.keyFrame (Pdf.pageHeight project) (marginMm (paper project)) key in
  let inPdf := Pdf.textOffset Samples.cosAtZero Samples.sinAtZero f key el t in
  let inSvg := Svg.textOffset (marginMm (paper project)) key el t in
  keys (layout project) = [key] /\ k_elements key = [el] /\
  el_kind el = text_el t /\
  mmToPoints 1 < mmToPoints (pt_x inSvg) - pt_x inPdf /\
  mmToPoints 4 < mmToPoints (pt_y inSvg) - pt_y inPdf /\
  (paper_size (paper project) = A4 /\
   nullish (paper_orientation (paper project)) portrait = portrait /\
   marginMm (paper project) == 6 /\ Pdf.pageHeight project == 297) /\
  (k_x key == 0 /\ k_y key == 0 /\ k_width key == 18 /\ k_height key == 18 /\
   k_keyType key = Some rect /\ orElse (k_rotation key) 0 == 0 /\
   fillsKey key el) /\
  (pt_x inPdf == mmToPoints 2 + 2 /\ pt_y inPdf == mmToPoints 9 + 11 / 2) /\
  (pt_x inSvg == 4 /\ pt_y inSvg == 15) /\
  mmToPoints (pt_x inSvg) - pt_x inPdf == mmToPoints 2 - 2.
Proof.
  repeat split; vm_compute; reflexivity.
Qed.

End TextFacts.

(** ** Escaping of text in the SVG markup *)

Module EscapeFacts.
Import SvgMarkup.
Open Scope string_scope.

Lemma append_nil_r s : s ++ EmptyString = s.
Proof. induction s as [|a s IH]; simpl; [|rewrite IH]; reflexivity. Qed.

Lemma append_assoc s1 s2 s3 : (s1 ++ s2) ++ s3 = s1 ++ (s2 ++ s3).
Proof. induction s1 as [|a s1 IH]; simpl; [|rewrite IH]; reflexivity. Qed.

Lemma concat_empty_cons x xs :
  String.concat EmptyString (x :: xs) = x ++ String.concat EmptyString xs.
Proof.
  destruct xs; simpl; [now rewrite append_nil_r | reflexivity].
Qed.

Lemma concat_empty_app xs ys :
  String.concat EmptyString (xs ++ ys)
  = String.concat EmptyString xs ++ String.concat EmptyString ys.
Proof.
  induction xs as [|x xs IH].
  - reflexivity.
  - rewrite <- app_comm_cons, !concat_empty_cons, IH, append_assoc. reflexivity.
Qed.

(** A part pushed onto the list of parts stands in the joined output. *)
Lemma part_in_output part parts :
  In part parts ->
  exists pre post, String.concat EmptyString parts = pre ++ part ++ post.
Proof.
  intros H. apply in_split in H. destruct H as (l1 & l2 & ->).
  exists (String.concat EmptyString l1), (String.concat EmptyString l2).
  now rewrite concat_empty_app, concat_empty_cons.
Qed.

Lemma special_false a :
  special a = false ->
  Ascii.eqb a "&" = false /\ Ascii.eqb a "<" = false /\
  Ascii.eqb a ">" = false /\ Ascii.eqb a dquote = false /\
  Ascii.eqb a squote = false.
Proof.
  unfold special. intros H.
  repeat (apply orb_false_elim in H; destruct H as [H ?]). auto.
Qed.

Lemma special_true a :
  special a = true ->
  a = "&"%char \/ a = "<"%char \/ a = ">"%char \/ a = dquote \/ a = squote.
Proof.
  unfold special. intros H.
  repeat (apply orb_prop in H; destruct H as [H|H]);
    apply Ascii.eqb_eq in H; auto.
Qed.

(** The five passes act on each character by itself. *)
Lemma escapeHtml_cons a str :
  escapeHtml (String a str) = escapeChar a ++ escapeHtml str.
Proof.
  destruct (special a) eqn:E.
  - apply special_true in E.
    destruct E as [-> | [-> | [-> | [-> | ->]]]]; reflexivity.
  - apply special_false in E. destruct E as (E1 & E2 & E3 & E4 & E5).
    unfold escapeHtml, escapeChar. simpl replaceAll.
    rewrite E1. simpl replaceAll. rewrite E2. simpl replaceAll.
    rewrite E3. simpl replaceAll. rewrite E4. simpl replaceAll.
    rewrite E5. reflexivity.
Qed.

Lemma escapeHtml_one_pass str : escapeHtml str = escapeAll str.
Proof.
  induction str as [|a str IH]; [reflexivity|].
  rewrite escapeHtml_cons, IH. reflexivity.
Qed.

Lemma escapeChar_entity a : special a = true -> In (escapeChar a) entities.
Proof.
  intros E. apply special_true in E.
  destruct E as [-> | [-> | [-> | [-> | ->]]]]; simpl; auto 6.
Qed.

Lemma escapeHtml_escaped str : escaped (escapeHtml str).
Proof.
  induction str as [|a str IH]; [constructor|].
  rewrite escapeHtml_cons. destruct (special a) eqn:E.
  - apply escaped_entity; [now apply escapeChar_entity | exact IH].
  - pose proof (special_false a E) as (E1 & E2 & E3 & E4 & E5).
    unfold escapeChar. rewrite E1, E2, E3, E4, E5. simpl.
    now apply escaped_plain.
Qed.

Lemma occurs_app c s1 s2 : occurs c (s1 ++ s2) = occurs c s1 || occurs c s2.
Proof.
  induction s1 as [|a s1 IH]; simpl; [reflexivity|].
  rewrite IH. apply orb_assoc.
Qed.

(** No entity contains a markup character other than its leading
    ampersand. *)
Lemma escapeChar_clean c a :
  c = "<"%char \/ c = ">"%char \/ c = dquote \/ c = squote ->
  occurs c (escapeChar a) = false.
Proof.
  intros Hc. destruct (special a) eqn:E.
  - apply special_true in E.
    destruct E as [-> | [-> | [-> | [-> | ->]]]];
      destruct Hc as [-> | [-> | [-> | ->]]]; reflexivity.
  - pose proof (special_false a E) as (E1 & E2 & E3 & E4 & E5).
    unfold escapeChar. rewrite E1, E2, E3, E4, E5. simpl.
    rewrite orb_false_r, Ascii.eqb_sym.
    destruct Hc as [-> | [-> | [-> | ->]]]; assumption.
Qed.

Lemma escapeHtml_clean c str :
  c = "<"%char \/ c = ">"%char \/ c = dquote \/ c = squote ->
  occurs c (escapeHtml str) = false.
Proof.
  intros Hc. induction str as [|a str IH]; [reflexivity|].
  rewrite escapeHtml_cons, occurs_app, IH, (escapeChar_clean c a Hc).
  reflexivity.
Qed.

Lemma textMarkup_in_parts show project key el t :
  In key (keys (layout project)) -> In el (k_elements key) ->
  el_kind el = text_el t ->
  In (textMarkup show (marginMm (paper project) + k_x key)
                      (marginMm (paper project) + k_y key) key el t)
     (svgParts show project).
Proof.
  intros Hk He Ht. unfold svgParts. right. apply in_or_app. left.
  apply in_flat_map. exists key. split; [exact Hk|].
  unfold keyParts. right. right. apply in_or_app. left.
  apply in_flat_map. exists el. split; [now apply sortBy_In|].
  unfold elementParts. rewrite Ht. now left.
Qed.

(** C10: for every project and every text element of one of its keys, the
    SVG output holds the element's [<text>] tag, whose content is the
    element's text with & < > and the two quotes replaced by their
    entities; in that content none of < > and the quotes occurs, and an
    ampersand occurs only as the start of one of the five entities. *)
Theorem svg_text_content_escaped
    (show : Q -> string) (project : ProjectModel)
    (key : KeyModel) (el : KeyElement) (t : TextProps) :
  In key (keys (layout project)) -> In el (k_elements key) ->
  el_kind el = text_el t ->
  let content := escapeHtml (orElseStr (text t) EmptyString) in
  (exists pre post,
      exportProjectToSvg show project
      = pre
        ++ (textOpenTag show (marginMm (paper project) + k_x key)
                             (marginMm (paper project) + k_y key) key el t
            ++ content ++ "</text>")
        ++ post) /\
  content = escapeAll (orElseStr (text t) EmptyString) /\
  escaped content /\
  occurs "<" content = false /\ occurs ">" content = false /\
  occurs dquote content = false /\ occurs squote content = false.
Proof.
  intros Hk He Ht content.
  split; [|split; [|split; [|repeat split]]].
  - apply part_in_output. now apply textMarkup_in_parts.
  - apply escapeHtml_one_pass.
  - apply escapeHtml_escaped.
  - apply escapeHtml_clean; auto.
  - apply escapeHtml_clean; auto.
  - apply escapeHtml_clean; auto.
  - apply escapeHtml_clean; auto.
Qed.

Lemma svg_text_content_escaped_witness :
  let project := Samples.projectOf "demo" [Samples.markupKey] in
  let content := "&lt;b&gt; &amp; &#039;c&#039;" in
  (exists pre post,
      exportProjectToSvg Samples.showInteger project
      = pre
        ++ (textOpenTag Samples.showInteger 6 6 Samples.markupKey
              Samples.markupLabel Samples.markupProps
            ++ content ++ "</text>")
        ++ post) /\
  content = escapeAll "<b> & 'c'" /\
  escaped content /\
  occurs "<" content = false /\ occurs ">" content = false /\
  occurs dquote content = false /\ occurs squote content = false.
Proof.
  intros project content.
  refine (svg_text_content_escaped Samples.showInteger project
            Samples.markupKey Samples.markupLabel Samples.markupProps _ _ _).
  - now left.
  - now left.
  - reflexivity.
Defined.

End EscapeFacts.

(** * Further properties of the code *)

(** ** The history over several steps *)

Module HistoryMore.
Import History Store.

#[local] Arguments slice_first : simpl never.
#[local] Arguments slice_last : simpl never.
#[local] Arguments slice_drop_last : simpl never.
#[local] Arguments slice_from_1 : simpl never.

(** The snapshots seen from the most recent one. *)
Lemma rev_slice_last {A : Type} n (l : list A) :
  rev (slice_last n l) = firstn n (rev l).
Proof. unfold slice_last. symmetry. apply firstn_rev. Qed.

Lemma rev_slice_drop_last {A : Type} (l : list A) :
  rev (slice_drop_last l) = skipn 1 (rev l).
Proof. unfold slice_drop_last. symmetry. apply skipn_rev. Qed.

Lemma last_opt_rev {A : Type} (l : list A) : last_opt l = hd_error (rev l).
Proof.
  unfold last_opt. induction l as [|a l _] using rev_ind; [reflexivity|].
  rewrite rev_app_distr, length_app. simpl.
  rewrite nth_error_app2 by lia.
  replace (length l + 1 - 1 - length l)%nat with 0%nat by lia. reflexivity.
Qed.

Lemma undo_step s p older :
  rev (past (history s)) = p :: older ->
  project (undo s) = p /\
  rev (past (history (undo s))) = older /\
  future (history (undo s))
  = slice_first 30 (project s :: future (history s)).
Proof.
  intros H. unfold undo. rewrite last_opt_rev, H. simpl.
  split; [reflexivity|]. split; [|reflexivity].
  rewrite rev_slice_drop_last, H. reflexivity.
Qed.

Lemma redo_step s p later :
  future (history s) = p :: later ->
  project (redo s) = p /\ future (history (redo s)) = later.
Proof.
  intros H. unfold redo. rewrite H. simpl. split; reflexivity.
Qed.

Lemma withHistory_rev_past updater s :
  rev (past (history (withHistory updater s)))
  = project s :: firstn 30 (rev (past (history s))).
Proof.
  unfold withHistory, jsonClone. simpl.
  rewrite rev_app_distr, rev_slice_last. reflexivity.
Qed.

Lemma nth_error_firstn_lt {A : Type} (l : list A) n k :
  (k < n)%nat -> nth_error (firstn n l) k = nth_error l k.
Proof.
  revert n k. induction l as [|a l IH]; intros n k H.
  - now rewrite firstn_nil.
  - destruct n; [lia|]. destruct k; simpl; [reflexivity|]. apply IH. lia.
Qed.

(** [n + 1] undos reach the snapshot [n] steps back. *)
Lemma undoTimes_project n :
  forall s p, nth_error (rev (past (history s))) n = Some p ->
              project (undoTimes (S n) s) = p.
Proof.
  induction n as [|n IH]; intros s p H.
  - destruct (rev (past (history s))) as [|q older] eqn:E; [discriminate|].
    injection H as ->. now destruct (undo_step s p older E).
  - destruct (rev (past (history s))) as [|q older] eqn:E; [discriminate|].
    simpl in H. destruct (undo_step s q older E) as (_ & Hp & _).
    change (undoTimes (S (S n)) s) with (undoTimes (S n) (undo s)).
    apply IH. now rewrite Hp.
Qed.

Lemma redoTimes_project n :
  forall s p, nth_error (future (history s)) n = Some p ->
              project (redoTimes (S n) s) = p.
Proof.
  induction n as [|n IH]; intros s p H.
  - destruct (future (history s)) as [|q later] eqn:E; [discriminate|].
    injection H as ->. now destruct (redo_step s p later E).
  - destruct (future (history s)) as [|q later] eqn:E; [discriminate|].
    simpl in H. destruct (redo_step s q later E) as (_ & Hf).
    change (redoTimes (S (S n)) s) with (redoTimes (S n) (redo s)).
    apply IH. now rewrite Hf.
Qed.

(** A snapshot [k] steps back is [k + n] steps back after [n] further
    mutations, as long as it stays among the 31 kept. *)
Lemma mutateAll_keeps updaters :
  forall s k p,
    nth_error (rev (past (history s))) k = Some p ->
    (k + length updaters <= 30)%nat ->
    nth_error (rev (past (history (mutateAll updaters s))))
              (k + length updaters) = Some p.
Proof.
  induction updaters as [|u us IH]; intros s k p H Hk; simpl in *.
  - now rewrite Nat.add_0_r.
  - replace (k + S (length us))%nat with (S k + length us)%nat by lia.
    apply IH; [|lia].
    rewrite withHistory_rev_past. cbn [nth_error].
    rewrite nth_error_firstn_lt by lia. exact H.
Qed.

(** After up to 31 mutations in a row, as many undos bring back the
    project the mutations started from. *)
Theorem undo_all_mutations
    (updaters : list (ProjectModel -> ProjectModel)) (s : EditorState) :
  (length updaters <= 31)%nat ->
  project (undoTimes (length updaters) (mutateAll updaters s)) = project s.
Proof.
  intros Hn. destruct updaters as [|u us]; [reflexivity|].
  simpl length. apply undoTimes_project.
  change (mutateAll (u :: us) s) with (mutateAll us (withHistory u s)).
  apply (mutateAll_keeps us (withHistory u s) 0%nat).
  - rewrite withHistory_rev_past. reflexivity.
  - simpl in *. lia.
Qed.

Lemma undo_all_mutations_witness :
  project (undoTimes 2
             (mutateAll [fun _ => Samples.editedProject; fun p => p]
                        (initialState Samples.emptyProject)))
  = Samples.emptyProject.
Proof.
  apply (undo_all_mutations [fun _ => Samples.editedProject; fun p => p]
           (initialState Samples.emptyProject)).
  simpl. lia.
Defined.

(** A project [k] steps ahead in [future] is [k + n] steps ahead after
    [n] effective undos, as long as it stays among the 30 kept. *)
Lemma undoTimes_keeps_future n :
  forall s k p,
    nth_error (future (history s)) k = Some p ->
    (k + n < 30)%nat -> (n <= length (past (history s)))%nat ->
    nth_error (future (history (undoTimes n s))) (k + n) = Some p.
Proof.
  induction n as [|n IH]; intros s k p H Hk Hlen; simpl.
  - now rewrite Nat.add_0_r.
  - destruct (rev (past (history s))) as [|q older] eqn:E.
    + apply (f_equal (@length _)) in E. rewrite length_rev in E.
      simpl in E. lia.
    + destruct (undo_step s q older E) as (_ & Hp & Hf).
      replace (k + S n)%nat with (S k + n)%nat by lia.
      apply IH; [| lia |].
      * rewrite Hf.
        change (nth_error (firstn 29 (future (history s))) k = Some p).
        rewrite nth_error_firstn_lt by lia. exact H.
      * apply (f_equal (@length _)) in Hp, E.
        rewrite length_rev in Hp, E. simpl in E. lia.
Qed.

(** [n] undos followed by [n] redos bring back the current project, for
    every [n] up to 30 that the history can undo. *)
Theorem undo_n_then_redo_n (n : nat) (s : EditorState) :
  (n <= 30)%nat -> (n <= length (past (history s)))%nat ->
  project (redoTimes n (undoTimes n s)) = project s.
Proof.
  intros Hn Hlen. destruct n as [|n]; [reflexivity|].
  apply redoTimes_project.
  destruct (rev (past (history s))) as [|q older] eqn:E.
  - apply (f_equal (@length _)) in E. rewrite length_rev in E.
    simpl in E. lia.
  - destruct (undo_step s q older E) as (_ & Hp & Hf).
    change (undoTimes (S n) s) with (undoTimes n (undo s)).
    apply (undoTimes_keeps_future n (undo s) 0%nat).
    + rewrite Hf. reflexivity.
    + lia.
    + apply (f_equal (@length _)) in Hp, E.
      rewrite length_rev in Hp, E. simpl in E. lia.
Qed.

Lemma undo_n_then_redo_n_witness :
  project (redoTimes 1 (undoTimes 1 MoreSamples.twoKeyState))
  = Samples.projectOf "demo" MoreSamples.twoKeys.
Proof.
  apply (undo_n_then_redo_n 1 MoreSamples.twoKeyState); simpl; lia.
Defined.

End HistoryMore.

(** ** Mutations of keys and elements *)

Module StoreFacts.
Import History Store.

Lemma updateFirst_found id ks k :
  findKey id ks = Some k ->
  exists pre post,
    ks = pre ++ k :: post /\
    Forall (fun q => k_id q <> id) pre /\ k_id k = id /\
    forall f, updateFirst id f ks = pre ++ f k :: post.
Proof.
  unfold findKey. induction ks as [|q ks IH]; intros H; [discriminate|].
  simpl in H. destruct (String.eqb (k_id q) id) eqn:E.
  - injection H as ->. exists [], ks. apply String.eqb_eq in E.
    repeat split; auto. intros f. simpl.
    apply String.eqb_eq in E. now rewrite E.
  - destruct (IH H) as (pre & post & -> & Hpre & Hid & Hf).
    exists (q :: pre), post. apply String.eqb_neq in E.
    repeat split; auto. intros f. simpl.
    apply String.eqb_neq in E. rewrite E. now rewrite Hf.
Qed.

Lemma updateFirst_missing id f ks :
  findKey id ks = None -> updateFirst id f ks = ks.
Proof.
  unfold findKey. induction ks as [|q ks IH]; intros H; [reflexivity|].
  simpl in *. destruct (String.eqb (k_id q) id); [discriminate|].
  now rewrite IH.
Qed.

Lemma findKey_app_first id pre k post :
  Forall (fun q => k_id q <> id) pre -> k_id k = id ->
  findKey id (pre ++ k :: post) = Some k.
Proof.
  unfold findKey. intros Hpre Hid. induction Hpre as [|q pre Hq _ IH]; simpl.
  - apply String.eqb_eq in Hid. now rewrite Hid.
  - apply String.eqb_neq in Hq. now rewrite Hq.
Qed.

Lemma updateFirst_app_first id f pre k post :
  Forall (fun q => k_id q <> id) pre -> k_id k = id ->
  updateFirst id f (pre ++ k :: post) = pre ++ f k :: post.
Proof.
  intros Hpre Hid. induction Hpre as [|q pre Hq _ IH]; simpl.
  - apply String.eqb_eq in Hid. now rewrite Hid.
  - apply String.eqb_neq in Hq. now rewrite Hq, IH.
Qed.

(** [updateKey] changes the first key with the given identifier and no
    other; with no such key the project stays as it is, and in both cases
    the mutation is recorded: the current project becomes the latest
    snapshot and what could be redone is dropped. *)
Theorem updateKey_first_match_only
    (id : string) (patch : KeyPartial) (now : string) (s : EditorState) :
  let ks := keys (layout (project s)) in
  let s' := updateKey id patch now s in
  future (history s') = [] /\
  last_opt (past (history s')) = Some (project s) /\
  match findKey id ks with
  | None => project s' = project s
  | Some k =>
      exists pre post,
        ks = pre ++ k :: post /\
        Forall (fun q => k_id q <> id) pre /\
        keys (layout (project s')) = pre ++ assignKey patch k :: post
  end.
Proof.
  intros ks s'. split; [reflexivity|]. split.
  - unfold s', updateKey, withHistory, jsonClone, last_opt. simpl.
    rewrite length_app. simpl. rewrite nth_error_app2 by lia.
    replace (length (slice_last 30 (past (history s))) + 1 - 1
             - length (slice_last 30 (past (history s))))%nat
      with 0%nat by lia.
    reflexivity.
  - unfold s', updateKey, withHistory, updateKeyDraft. simpl. fold ks.
    destruct (findKey id ks) as [k|] eqn:E; [|reflexivity].
    destruct (updateFirst_found id ks k E) as (pre & post & Hks & Hpre & _ & Hf).
    exists pre, post. split; [exact Hks|]. split; [exact Hpre|].
    simpl. apply Hf.
Qed.

Lemma filter_fresh_element (el : KeyElement) els :
  (forall e, In e els -> el_id e <> el_id el) ->
  filter (fun e => negb (String.eqb (el_id e) (el_id el))) (els ++ [el]) = els.
Proof.
  intros H. rewrite filter_app. simpl. rewrite String.eqb_refl. simpl.
  rewrite app_nil_r. induction els as [|e els IH]; [reflexivity|].
  simpl. assert (He : el_id e <> el_id el) by (apply H; now left).
  apply String.eqb_neq in He. rewrite He. simpl. f_equal.
  apply IH. intros e' He'. apply H. now right.
Qed.

(** Adding to a key an element whose identifier no element of the key
    has, and then removing the element by that identifier, leaves the
    keys of the project as they were. *)
Theorem add_then_remove_element
    (keyId : string) (el : KeyElement) (now1 now2 : string)
    (draft : ProjectModel) :
  (forall k, findKey keyId (keys (layout draft)) = Some k ->
             forall e, In e (k_elements k) -> el_id e <> el_id el) ->
  keys (layout (removeElementDraft keyId (el_id el) now2
                  (addElementDraft keyId el now1 draft)))
  = keys (layout draft).
Proof.
  intros Hfresh. unfold addElementDraft.
  destruct (findKey keyId (keys (layout draft))) as [k|] eqn:E.
  - destruct (updateFirst_found keyId _ k E)
      as (pre & post & Hks & Hpre & Hid & Hf).
    unfold removeElementDraft. cbn [touch layout keys set_keys].
    rewrite Hf.
    set (k2 := set_elements k (k_elements k ++ [el])).
    assert (Hid' : k_id k2 = keyId) by (unfold k2; simpl; exact Hid).
    rewrite (findKey_app_first keyId pre k2 post Hpre Hid').
    cbn [touch layout keys set_keys].
    rewrite (updateFirst_app_first keyId _ pre k2 post Hpre Hid').
    unfold k2. cbn [set_elements k_elements].
    rewrite (filter_fresh_element el (k_elements k) (Hfresh k eq_refl)).
    rewrite Hks. f_equal. f_equal. now destruct k.
  - unfold removeElementDraft. rewrite E. reflexivity.
Qed.

Lemma add_then_remove_element_witness :
  keys (layout (removeElementDraft "k" "i" "t2"
                  (addElementDraft "k"
                     (Samples.imageElement contain 18 18) "t1"
                     Samples.labelledProject)))
  = keys (layout Samples.labelledProject).
Proof.
  apply (add_then_remove_element "k" (Samples.imageElement contain 18 18)
           "t1" "t2" Samples.labelledProject).
  intros k Hk e He. vm_compute in Hk. injection Hk as <-.
  simpl in He. destruct He as [<-|[]]. discriminate.
Defined.

(** [Math.round] stays within one half of its argument. *)
Lemma round_bounds q : q - (1 # 2) < round q /\ round q <= q + (1 # 2).
Proof.
  unfold round. split.
  - pose proof (Qlt_floor (q + (1 # 2))) as H.
    rewrite inject_Z_plus in H. change (inject_Z 1) with 1 in H. lra.
  - apply Qfloor_le.
Qed.

Lemma snapTo_bounds snap v :
  0 < snap ->
  (exists n : Z, snapTo snap v == inject_Z n * snap) /\
  v - snap / 2 < snapTo snap v /\ snapTo snap v <= v + snap / 2.
Proof.
  intros Hs. unfold snapTo.
  destruct (Qeq_bool snap 0) eqn:E; [apply Qeq_bool_iff in E; lra|].
  split.
  - exists (Qfloor (v / snap + (1 # 2))). reflexivity.
  - destruct (round_bounds (v / snap)) as [Hlo Hhi].
    assert (Hv : v == v / snap * snap) by (field; lra).
    set (r := round (v / snap)) in *. set (q := v / snap) in *.
    qdiv. split.
    + setoid_replace (v - snap * (1 # 2)) with ((q - (1 # 2)) * snap)
        by (rewrite Hv at 1; ring).
      apply Qmult_lt_compat_r; assumption.
    + setoid_replace (v + snap * (1 # 2)) with ((q + (1 # 2)) * snap)
        by (rewrite Hv at 1; ring).
      apply Qmult_le_compat_r; [assumption | lra].
Qed.

(** With the snap switched on and a positive grid step, a nudge puts every
    selected key on a multiple of the step in x and in y, at most half a
    step from where the nudge alone would have put it, and leaves every
    other key, and every size, as it was. *)
Theorem nudge_snaps_selected_keys
    (dx dy : Q) (now : string) (s : EditorState) :
  snapToGrid s = true -> 0 < gridSize s ->
  let g := gridSize s in
  let ks := keys (layout (project s)) in
  let ks' := keys (layout (project (nudgeSelected dx dy now s))) in
  length ks' = length ks /\
  forall i k, nth_error ks i = Some k ->
    exists k', nth_error ks' i = Some k' /\
      if includes (selectedKeys s) (k_id k) then
        CutSheet.same_but_position k k' /\
        (exists n : Z, k_x k' == inject_Z n * g) /\
        (exists n : Z, k_y k' == inject_Z n * g) /\
        k_x k + dx - g / 2 < k_x k' /\ k_x k' <= k_x k + dx + g / 2 /\
        k_y k + dy - g / 2 < k_y k' /\ k_y k' <= k_y k + dy + g / 2
      else k' = k.
Proof.
  intros Hsnap Hg g ks ks'.
  unfold ks', nudgeSelected, withHistory, nudgeSelectedDraft. rewrite Hsnap.
  cbn [project set_project_history touch layout keys set_keys]. fold ks g.
  split; [apply length_map|].
  intros i k Hk. rewrite nth_error_map, Hk. cbn [option_map].
  eexists. split; [reflexivity|].
  destruct (includes (selectedKeys s) (k_id k)); [|reflexivity].
  cbn [set_position k_x k_y].
  destruct (snapTo_bounds g (k_x k + dx) Hg) as (Hnx & Hxl & Hxh).
  destruct (snapTo_bounds g (k_y k + dy) Hg) as (Hny & Hyl & Hyh).
  split; [unfold CutSheet.same_but_position; simpl; repeat split|].
  repeat split; assumption.
Qed.

Lemma nudge_snaps_selected_keys_witness :
  let s := MoreSamples.twoKeyState in
  let ks := keys (layout (project s)) in
  let ks' := keys (layout (project (nudgeSelected 3 0 "t" s))) in
  length ks' = length ks /\
  forall i k, nth_error ks i = Some k ->
    exists k', nth_error ks' i = Some k' /\
      if includes (selectedKeys s) (k_id k) then
        CutSheet.same_but_position k k' /\
        (exists n : Z, k_x k' == inject_Z n * 2) /\
        (exists n : Z, k_y k' == inject_Z n * 2) /\
        k_x k + 3 - 2 / 2 < k_x k' /\ k_x k' <= k_x k + 3 + 2 / 2 /\
        k_y k + 0 - 2 / 2 < k_y k' /\ k_y k' <= k_y k + 0 + 2 / 2
      else k' = k.
Proof.
  intros s ks ks'.
  apply (nudge_snaps_selected_keys 3 0 "t" MoreSamples.twoKeyState);
    reflexivity.
Defined.

(** What [updateFirst] does to a later search, when the change keeps the
    identifier. *)
Lemma findKey_updateFirst_other id id' f ks :
  (forall k, k_id (f k) = k_id k) -> id <> id' ->
  findKey id (updateFirst id' f ks) = findKey id ks.
Proof.
  intros Hf Hne. unfold findKey. induction ks as [|q ks IH]; [reflexivity|].
  simpl. destruct (String.eqb (k_id q) id') eqn:E; simpl.
  - rewrite Hf. apply String.eqb_eq in E.
    assert (Hq : String.eqb (k_id q) id = false)
      by (apply String.eqb_neq; congruence).
    now rewrite Hq.
  - destruct (String.eqb (k_id q) id); [reflexivity | exact IH].
Qed.

Lemma findKey_updateFirst_same id f ks :
  (forall k, k_id (f k) = k_id k) ->
  findKey id (updateFirst id f ks) = option_map f (findKey id ks).
Proof.
  intros Hf. unfold findKey. induction ks as [|q ks IH]; [reflexivity|].
  simpl. destruct (String.eqb (k_id q) id) eqn:E; simpl.
  - rewrite Hf, E. reflexivity.
  - rewrite E. exact IH.
Qed.

Lemma updateFirst_twice id f g ks :
  (forall k, k_id (f k) = k_id k) ->
  updateFirst id g (updateFirst id f ks) = updateFirst id (fun k => g (f k)) ks.
Proof.
  intros Hf. induction ks as [|q ks IH]; [reflexivity|].
  simpl. destruct (String.eqb (k_id q) id) eqn:E; simpl.
  - now rewrite Hf, E.
  - now rewrite E, IH.
Qed.

Lemma updateFirst_swap id1 id2 f g ks :
  (forall k, k_id (f k) = k_id k) -> (forall k, k_id (g k) = k_id k) ->
  id1 <> id2 ->
  updateFirst id1 f (updateFirst id2 g ks)
  = updateFirst id2 g (updateFirst id1 f ks).
Proof.
  intros Hf Hg Hne. induction ks as [|q ks IH]; [reflexivity|].
  simpl. destruct (String.eqb (k_id q) id2) eqn:E2;
    destruct (String.eqb (k_id q) id1) eqn:E1; simpl.
  - apply String.eqb_eq in E1, E2. congruence.
  - rewrite Hg, E1, E2. reflexivity.
  - rewrite Hf, E1, E2. reflexivity.
  - rewrite E1, E2, IH. reflexivity.
Qed.

Lemma updateFirst_fixed id f ks k :
  findKey id ks = Some k -> f k = k -> updateFirst id f ks = ks.
Proof.
  intros Hk Hf.
  destruct (updateFirst_found id ks k Hk) as (pre & post & Hks & _ & _ & Hu).
  now rewrite Hu, Hf.
Qed.

Lemma updateFirst_ext id f g ks :
  (forall k, f k = g k) -> updateFirst id f ks = updateFirst id g ks.
Proof.
  intros H. induction ks as [|q ks IH]; [reflexivity|].
  simpl. destruct (String.eqb (k_id q) id); [now rewrite H | now rewrite IH].
Qed.

Lemma set_position_same k : set_position k (k_x k) (k_y k) = k.
Proof. now destruct k. Qed.

(** The keys after one swap of the keys [a] and [b] found for two
    different identifiers. *)
Lemma swap_keys_twice aId bId ks a b :
  aId <> bId -> findKey aId ks = Some a -> findKey bId ks = Some b ->
  let swap (pa pb : KeyModel) (l : list KeyModel) :=
    updateFirst bId (fun k => set_position k (k_x pa) (k_y pa))
      (updateFirst aId (fun k => set_position k (k_x pb) (k_y pb)) l) in
  let ks2 := swap a b ks in
  findKey aId ks2 = Some (set_position a (k_x b) (k_y b)) /\
  findKey bId ks2 = Some (set_position b (k_x a) (k_y a)) /\
  swap (set_position a (k_x b) (k_y b)) (set_position b (k_x a) (k_y a)) ks2
  = ks.
Proof.
  intros Hne Ha Hb swap ks2. unfold ks2, swap.
  assert (Hid : forall x y k, k_id (set_position k x y) = k_id k)
    by reflexivity.
  split; [|split].
  - rewrite findKey_updateFirst_other by (auto || congruence).
    rewrite findKey_updateFirst_same by auto. now rewrite Ha.
  - rewrite findKey_updateFirst_same by auto.
    rewrite findKey_updateFirst_other by (auto || congruence).
    now rewrite Hb.
  - cbn [set_position k_x k_y].
    rewrite (updateFirst_swap aId bId) by (auto || congruence).
    rewrite updateFirst_twice by auto.
    rewrite updateFirst_twice by auto.
    rewrite (updateFirst_ext aId _ (fun k => set_position k (k_x a) (k_y a)))
      by reflexivity.
    rewrite (updateFirst_fixed aId _ ks a Ha (set_position_same a)).
    rewrite (updateFirst_ext bId _ (fun k => set_position k (k_x b) (k_y b)))
      by reflexivity.
    apply (updateFirst_fixed bId _ ks b Hb (set_position_same b)).
Qed.

(** Swapping the selected pair twice puts every key back where it was,
    whatever the selection: two keys found, one key selected twice, or a
    selection the swap ignores. *)
Theorem swap_selected_twice
    (selected : list string) (now1 now2 : string) (draft : ProjectModel) :
  keys (layout (swapSelectedDraft selected now2
                  (swapSelectedDraft selected now1 draft)))
  = keys (layout draft).
Proof.
  unfold swapSelectedDraft at 2.
  destruct selected as [|aId [|bId rest]]; try reflexivity.
  destruct (falsyId aId || falsyId bId) eqn:Efalsy.
  { unfold swapSelectedDraft. now rewrite Efalsy. }
  destruct (findKey aId (keys (layout draft))) as [a|] eqn:Ea.
  2:{ unfold swapSelectedDraft. now rewrite Efalsy, Ea. }
  destruct (findKey bId (keys (layout draft))) as [b|] eqn:Eb.
  2:{ unfold swapSelectedDraft. now rewrite Efalsy, Ea, Eb. }
  unfold swapSelectedDraft. rewrite Efalsy.
  cbn [touch layout keys set_keys].
  destruct (String.eqb aId bId) eqn:Eab.
  - apply String.eqb_eq in Eab. subst bId.
    assert (b = a) by congruence. subst b.
    rewrite (updateFirst_fixed aId _ _ a Ea (set_position_same a)).
    rewrite (updateFirst_fixed aId _ _ a Ea (set_position_same a)).
    rewrite Ea. cbn [touch layout keys set_keys].
    rewrite (updateFirst_fixed aId _ _ a Ea (set_position_same a)).
    apply (updateFirst_fixed aId _ _ a Ea (set_position_same a)).
  - apply String.eqb_neq in Eab.
    destruct (swap_keys_twice aId bId (keys (layout draft)) a b Eab Ea Eb)
      as (Ha2 & Hb2 & Hback).
    cbv zeta in Ha2, Hb2, Hback.
    rewrite Ha2, Hb2. cbn [touch layout keys set_keys]. exact Hback.
Qed.

End StoreFacts.

(** ** Selection and scale on the canvas *)

Module CanvasViewFacts.
Import CanvasView.

Lemma includes_In ids id : Store.includes ids id = true <-> In id ids.
Proof.
  unfold Store.includes. rewrite existsb_exists. split.
  - intros (x & Hx & E). apply String.eqb_eq in E. now subst.
  - intros H. exists id. split; [exact H | apply String.eqb_refl].
Qed.

Local Abbreviation others id := (filter (fun k => negb (String.eqb k id))).

Lemma others_without id l : ~ In id l -> others id l = l.
Proof.
  induction l as [|a l IH]; intros H; [reflexivity|]. cbn [filter].
  destruct (String.eqb a id) eqn:E.
  - exfalso. apply H. left. now apply String.eqb_eq.
  - cbn [negb]. rewrite IH; [reflexivity|]. intros Hin. apply H. now right.
Qed.

Lemma others_app id l1 l2 : others id (l1 ++ l2) = others id l1 ++ others id l2.
Proof. apply filter_app. Qed.

Lemma others_twice id l : others id (others id l) = others id l.
Proof.
  apply others_without. rewrite filter_In. intros [_ H].
  rewrite String.eqb_refl in H. discriminate.
Qed.

(** A plain click selects the clicked key alone.  A click with a modifier
    key flips the clicked key's membership in the selection and leaves the
    other selected keys, and their order, as they were: a key that was
    selected is removed, and one that was not is appended at the end.  A
    selection without repeats stays so, and clicking an unselected key
    twice gives the selection back. *)
Theorem handleSelect_toggles (selectedKeys : list string) (id : string) :
  (In id (handleSelect selectedKeys id true) <-> ~ In id selectedKeys) /\
  (forall other, other <> id ->
     (In other (handleSelect selectedKeys id true) <-> In other selectedKeys)) /\
  handleSelect selectedKeys id false = [id] /\
  others id (handleSelect selectedKeys id true) = others id selectedKeys /\
  (In id selectedKeys ->
   handleSelect selectedKeys id true = others id selectedKeys) /\
  (~ In id selectedKeys ->
   handleSelect selectedKeys id true = selectedKeys ++ [id] /\
   handleSelect (handleSelect selectedKeys id true) id true = selectedKeys) /\
  (NoDup selectedKeys -> NoDup (handleSelect selectedKeys id true)).
Proof.
  unfold handleSelect.
  destruct (Store.includes selectedKeys id) eqn:E.
  - apply includes_In in E.
    split; [|split; [|split; [reflexivity|split; [|split; [|split]]]]].
    + rewrite filter_In. split.
      * intros [_ H]. rewrite String.eqb_refl in H. discriminate.
      * intros H. contradiction.
    + intros other Hne. rewrite filter_In. split; [tauto|].
      intros H. split; [exact H|].
      apply String.eqb_neq in Hne. now rewrite Hne.
    + apply others_twice.
    + reflexivity.
    + intros H. contradiction.
    + intros H. now apply NoDup_filter.
  - assert (Hnot : ~ In id selectedKeys).
    { intros H. apply includes_In in H. congruence. }
    assert (Hlast : others id [id] = []).
    { cbn [filter]. now rewrite String.eqb_refl. }
    split; [|split; [|split; [reflexivity|split; [|split; [|split]]]]].
    + rewrite in_app_iff. simpl. tauto.
    + intros other Hne. rewrite in_app_iff. simpl. split; [|tauto].
      intros [H|[H|[]]]; [exact H | congruence].
    + rewrite others_app, Hlast. apply app_nil_r.
    + intros H. contradiction.
    + intros _. split; [reflexivity|].
      assert (Hin : Store.includes (selectedKeys ++ [id]) id = true).
      { apply includes_In, in_or_app. right. now left. }
      rewrite Hin, others_app, Hlast, app_nil_r.
      now apply others_without.
    + intros H. apply NoDup_app; [exact H | repeat constructor; intros []|].
      intros a Ha [<-|[]]. exact (Hnot Ha).
Qed.

Lemma paper_width_positive size orientation :
  0 < sz_width (paperSizeMm size orientation) /\
  0 < sz_height (paperSizeMm size orientation).
Proof. destruct size, orientation; split; reflexivity. Qed.

(** For a positive resolution and a positive zoom the scale of the canvas
    is defined, positive and at most the zoom, whatever the size of the
    frame. *)
Theorem effectiveScale_positive
    (zoom frameWidth frameHeight : Q) (project : ProjectModel) :
  0 < dpi (paper project) -> 0 < zoom ->
  exists scale,
    effectiveScale zoom frameWidth frameHeight project = Some scale /\
    0 < scale /\ scale <= zoom.
Proof.
  intros Hdpi Hzoom. unfold effectiveScale, fitScale.
  set (sz := paperSizeMm (paper_size (paper project))
               (nullish (paper_orientation (paper project)) portrait)).
  destruct (paper_width_positive (paper_size (paper project))
              (nullish (paper_orientation (paper project)) portrait))
    as [Hw Hh]. fold sz in Hw, Hh.
  pose proof (OutlineFacts.mmToPixels_pos _ _ Hw Hdpi) as Hpw.
  pose proof (OutlineFacts.mmToPixels_pos _ _ Hh Hdpi) as Hph.
  destruct (Qeq_bool (mmToPixels (sz_width sz) (dpi (paper project))) 0) eqn:E1.
  { apply Qeq_bool_iff in E1. lra. }
  destruct (Qeq_bool (mmToPixels (sz_height sz) (dpi (paper project))) 0) eqn:E2.
  { apply Qeq_bool_iff in E2. lra. }
  simpl. eexists. split; [reflexivity|].
  set (a := (frameWidth - 80) / mmToPixels (sz_width sz) (dpi (paper project))).
  set (b := (frameHeight - 120) / mmToPixels (sz_height sz) (dpi (paper project))).
  assert (Hle : Qmin (Qmin a b) 1 <= 1).
  { unfold Qmin. destruct (Qlt_le_dec 1 (if Qlt_le_dec b a then b else a)); lra. }
  destruct (Qlt_le_dec 0 (Qmin (Qmin a b) 1)) as [Hpos|Hneg].
  - split; [apply Qmult_lt_0_compat; assumption|].
    setoid_replace zoom with (zoom * 1) at 2 by ring.
    apply Qmult_le_l; assumption.
  - split; lra.
Qed.

Lemma effectiveScale_positive_witness :
  exists scale,
    effectiveScale 1 900 700 Samples.labelledProject = Some scale /\
    0 < scale /\ scale <= 1.
Proof.
  apply (effectiveScale_positive 1 900 700 Samples.labelledProject);
    reflexivity.
Defined.

End CanvasViewFacts.

(** ** The grid template *)

Module TemplateFacts.
Import Templates.

Lemma flat_map_uniform_length {A B : Type} (f : A -> list B) (n : nat) l :
  (forall a, length (f a) = n) -> length (flat_map f l) = (length l * n)%nat.
Proof.
  intros H. induction l as [|a l IH]; [reflexivity|].
  simpl. rewrite length_app, H, IH. reflexivity.
Qed.

(** The [i]-th entry of blocks of equal length laid end to end. *)
Lemma flat_map_uniform_nth {A B : Type} (f : A -> list B) (n : nat) l :
  (0 < n)%nat -> (forall a, length (f a) = n) ->
  forall i,
    nth_error (flat_map f l) i
    = match nth_error l (i / n) with
      | Some a => nth_error (f a) (i mod n)
      | None => None
      end.
Proof.
  intros Hn H. induction l as [|a l IH]; intros i.
  - cbn [flat_map]. now rewrite !nth_error_nil.
  - cbn [flat_map]. destruct (Nat.lt_ge_cases i n) as [Hlt|Hge].
    + rewrite nth_error_app1 by (rewrite H; exact Hlt).
      rewrite Nat.div_small, Nat.mod_small by exact Hlt. reflexivity.
    + rewrite nth_error_app2 by (rewrite H; exact Hge).
      rewrite H, IH.
      pose proof (Nat.div_add (i - n) 1 n ltac:(lia)) as Hd.
      pose proof (Nat.Div0.mod_add (i - n) 1 n) as Hm.
      replace (i - n + 1 * n)%nat with i in Hd, Hm by lia.
      rewrite Hd, Hm.
      replace ((i - n) / n + 1)%nat with (S ((i - n) / n)) by lia.
      reflexivity.
Qed.

Lemma grid_nth fresh rows cols size gap startX startY i :
  (i < rows * cols)%nat ->
  nth_error (buildUniformGrid fresh rows cols size gap startX startY) i
  = Some (gridCell fresh cols size gap startX startY (i / cols) (i mod cols)).
Proof.
  intros Hi. assert (Hc : (0 < cols)%nat) by (destruct cols; lia).
  unfold buildUniformGrid.
  rewrite (flat_map_uniform_nth _ cols)
    by (try exact Hc; intros; rewrite length_map, length_seq; reflexivity).
  assert (Hr : (i / cols < rows)%nat)
    by (apply Nat.Div0.div_lt_upper_bound; lia).
  rewrite nth_error_seq.
  destruct (Nat.ltb_spec (i / cols) rows) as [_|?]; [|lia].
  rewrite nth_error_map, nth_error_seq.
  pose proof (Nat.mod_upper_bound i cols ltac:(lia)) as Hm.
  destruct (Nat.ltb_spec (i mod cols) cols) as [_|?]; [|lia].
  reflexivity.
Qed.

Lemma grid_length fresh rows cols size gap startX startY :
  length (buildUniformGrid fresh rows cols size gap startX startY)
  = (rows * cols)%nat.
Proof.
  unfold buildUniformGrid.
  rewrite (flat_map_uniform_length _ cols)
    by (intros; rewrite length_map, length_seq; reflexivity).
  now rewrite length_seq.
Qed.

Lemma gridCells_apart fresh cols size gap startX startY r c r' c' :
  0 <= gap -> (r <> r' \/ c <> c') ->
  ~ CutSheet.overlap (gridCell fresh cols size gap startX startY r c)
                     (gridCell fresh cols size gap startX startY r' c').
Proof.
  intros Hgap Hne (Hx1 & Hx2 & Hy1 & Hy2).
  unfold gridCell, plainKey, createKey in *; simpl in *.
  destruct (Nat.eq_dec c c') as [Hc|Hc].
  - assert (Hr : Z.of_nat r <> Z.of_nat r') by lia.
    apply (CutSheetFacts.cells_apart _ _ startY size gap size size Hr);
      auto; lra.
  - assert (Hc' : Z.of_nat c <> Z.of_nat c') by lia.
    apply (CutSheetFacts.cells_apart _ _ startX size gap size size Hc');
      auto; lra.
Qed.

(** For a gap that is not negative, the grid template holds rows times
    cols keys, row by row, each of the given size, the key of row [r] and
    column [c] at [c] and [r] steps of size plus gap from the origin, and
    no two keys overlap. *)
Theorem grid_template_cells
    (fresh : nat -> string) (rows cols : nat) (keySizeMm gapMm : Q) :
  0 <= gapMm ->
  let grid := buildGridTemplate fresh rows cols keySizeMm gapMm in
  length grid = (rows * cols)%nat /\
  (forall i, (i < rows * cols)%nat ->
     exists k, nth_error grid i = Some k /\
       k_x k = 0 + inject_Z (Z.of_nat (i mod cols)) * (keySizeMm + gapMm) /\
       k_y k = 0 + inject_Z (Z.of_nat (i / cols)) * (keySizeMm + gapMm) /\
       k_width k = keySizeMm /\ k_height k = keySizeMm) /\
  (forall i j ki kj,
     i <> j -> nth_error grid i = Some ki -> nth_error grid j = Some kj ->
     ~ CutSheet.overlap ki kj).
Proof.
  intros Hgap grid. unfold grid, buildGridTemplate.
  split; [apply grid_length|]. split.
  - intros i Hi. eexists. split; [apply grid_nth; exact Hi|].
    repeat split.
  - intros i j ki kj Hij Hi Hj.
    assert (Hil : (i < rows * cols)%nat).
    { rewrite <- (grid_length fresh rows cols keySizeMm gapMm 0 0).
      apply nth_error_Some. congruence. }
    assert (Hjl : (j < rows * cols)%nat).
    { rewrite <- (grid_length fresh rows cols keySizeMm gapMm 0 0).
      apply nth_error_Some. congruence. }
    rewrite grid_nth in Hi, Hj by assumption.
    injection Hi as <-. injection Hj as <-.
    apply gridCells_apart; [exact Hgap|].
    assert (Hc : cols <> 0%nat) by (destruct cols; lia).
    destruct (Nat.eq_dec (i / cols) (j / cols)) as [Hd|Hd]; [|now left].
    right. intros Hm. apply Hij.
    rewrite (Nat.div_mod_eq i cols), (Nat.div_mod_eq j cols). now rewrite Hd, Hm.
Qed.

Lemma grid_template_cells_witness :
  let grid := buildGridTemplate MoreSamples.freshId 2 3 13.5 2 in
  length grid = (2 * 3)%nat /\
  (forall i, (i < 2 * 3)%nat ->
     exists k, nth_error grid i = Some k /\
       k_x k = 0 + inject_Z (Z.of_nat (i mod 3)) * (13.5 + 2) /\
       k_y k = 0 + inject_Z (Z.of_nat (i / 3)) * (13.5 + 2) /\
       k_width k = 13.5 /\ k_height k = 13.5) /\
  (forall i j ki kj,
     i <> j -> nth_error grid i = Some ki -> nth_error grid j = Some kj ->
     ~ CutSheet.overlap ki kj).
Proof.
  intros grid.
  apply (grid_template_cells MoreSamples.freshId 2 3 13.5 2). discriminate.
Defined.

End TemplateFacts.

(** ** Adding a key to a grid template *)

Module GridPlacementFacts.
Import Templates Placement.

Lemma collides_true_intro width height existing x y k :
  In k existing -> clear_of width height x y k = false ->
  collides width height existing x y = true.
Proof.
  intros Hk Hc. unfold collides. apply existsb_exists.
  exists k. split; [exact Hk | now rewrite Hc].
Qed.

Lemma collides_false_intro width height existing x y :
  (forall k, In k existing -> clear_of width height x y k = true) ->
  collides width height existing x y = false.
Proof.
  intros H. unfold collides.
  destruct (existsb _ existing) eqn:E; [|reflexivity].
  apply existsb_exists in E. destruct E as (k & Hk & Hc).
  rewrite (H k Hk) in Hc. discriminate.
Qed.

Lemma Qle_bool_false a b : b < a -> Qle_bool a b = false.
Proof.
  intros H. destruct (Qle_bool a b) eqn:E; [|reflexivity].
  apply Qle_bool_iff in E. lra.
Qed.

Section DefaultGrid.
Variables (fresh : nat -> string) (rows cols : nat).

Let size := DEFAULT_KEY_SIZE.
Let grid := buildGridTemplate fresh rows cols size DEFAULT_KEY_GAP.

Lemma step_positive : 0 < stepX size /\ 0 < stepY size.
Proof. split; reflexivity. Qed.

Lemma grid_member k :
  In k grid ->
  exists r c, (r < rows)%nat /\ (c < cols)%nat /\
              k = gridCell fresh cols size DEFAULT_KEY_GAP 0 0 r c.
Proof.
  intros Hk. apply In_nth_error in Hk. destruct Hk as [i Hi].
  assert (Hil : (i < rows * cols)%nat).
  { rewrite <- (TemplateFacts.grid_length fresh rows cols size
                  DEFAULT_KEY_GAP 0 0).
    apply nth_error_Some. unfold grid, buildGridTemplate in Hi. congruence. }
  unfold grid, buildGridTemplate in Hi.
  rewrite TemplateFacts.grid_nth in Hi by exact Hil. injection Hi as <-.
  assert (Hc : cols <> 0%nat) by (destruct cols; lia).
  exists (i / cols)%nat, (i mod cols)%nat. split; [|split; [|reflexivity]].
  - apply Nat.Div0.div_lt_upper_bound. lia.
  - apply Nat.mod_upper_bound. exact Hc.
Qed.

Lemma first_row_member n :
  (1 <= rows)%nat -> (n < cols)%nat ->
  In (gridCell fresh cols size DEFAULT_KEY_GAP 0 0 0 n) grid.
Proof.
  intros Hr Hn. apply (nth_error_In _ n). unfold grid, buildGridTemplate.
  rewrite TemplateFacts.grid_nth by nia.
  now rewrite Nat.div_small, Nat.mod_small by exact Hn.
Qed.

(** The cells of the first row that hold a key of the grid are taken. *)
Lemma first_row_taken n :
  (1 <= rows)%nat -> (n < cols)%nat ->
  collides size size grid (cellX size n) 0 = true.
Proof.
  intros Hr Hn.
  apply (collides_true_intro _ _ _ _ _ _ (first_row_member n Hr Hn)).
  pose proof (PlacementFacts.cellX_linear size n) as Hx.
  unfold clear_of, gridCell, plainKey, createKey; simpl.
  unfold stepX, gap, size, DEFAULT_KEY_SIZE, DEFAULT_KEY_GAP in *.
  set (x := cellX 13.5 n) in *. set (z := inject_Z (Z.of_nat n)) in *.
  change (inject_Z 0) with 0. clearbody x z.
  rewrite (Qle_bool_false (x + 13.5 + 2)) by lra.
  rewrite (Qle_bool_false (0 + z * (13.5 + 2) + 13.5 + 2)) by lra.
  rewrite (Qle_bool_false (0 + 13.5 + 2)) by lra.
  rewrite (Qle_bool_false (0 + 0 * (13.5 + 2) + 13.5 + 2)) by lra.
  reflexivity.
Qed.

(** The cell right of the last column is free. *)
Lemma next_column_free :
  collides size size grid (cellX size cols) 0 = false.
Proof.
  apply collides_false_intro. intros k Hk.
  destruct (grid_member k Hk) as (r & c & Hr & Hc & ->).
  pose proof (PlacementFacts.cellX_linear size cols) as Hx.
  assert (Hcz : inject_Z (Z.of_nat c) + 1 <= inject_Z (Z.of_nat cols)).
  { change 1 with (inject_Z 1). rewrite <- inject_Z_plus, <- Zle_Qle. lia. }
  unfold clear_of, gridCell, plainKey, createKey; simpl.
  unfold stepX, gap, size, DEFAULT_KEY_SIZE, DEFAULT_KEY_GAP in *.
  set (x := cellX 13.5 cols) in *.
  set (zc := inject_Z (Z.of_nat c)) in *.
  set (zn := inject_Z (Z.of_nat cols)) in *.
  clearbody x zc zn.
  assert (H2 : Qle_bool (0 + zc * (13.5 + 2) + 13.5 + 2) x = true)
    by (apply Qle_bool_iff; lra).
  rewrite H2. now rewrite orb_true_r.
Qed.

Lemma place_after_grid :
  (1 <= rows)%nat -> cellX size cols < maxX ->
  forall fuel, (lastY size + lastX size + 1 <= fuel)%nat ->
    place size size grid fuel = Some (cellX size cols, 0).
Proof.
  intros Hr Hfit fuel Hfuel.
  destruct step_positive as [Hx Hy].
  destruct (PlacementFacts.place_total size size grid fuel Hx Hy Hfuel)
    as [[x y] Hplace].
  rewrite Hplace. f_equal.
  destruct (PlacementFacts.place_sound size size grid fuel x y Hx Hy Hplace)
    as [Hfound | (_ & _ & Hfull)].
  - destruct Hfound
      as (n & j & -> & -> & _ & _ & _ & Hfree & Hrow & Hrows).
    assert (Hj : j = 0%nat).
    { destruct j as [|j]; [reflexivity|]. exfalso.
      pose proof (Hrows 0%nat cols ltac:(lia) Hfit) as H.
      change (cellY size 0) with 0 in H.
      rewrite next_column_free in H. discriminate. }
    subst j. change (cellY size 0) with 0 in *.
    assert (Hn : n = cols).
    { destruct (Nat.lt_trichotomy n cols) as [Hlt|[Heq|Hgt]];
        [|exact Heq|]; exfalso.
      - rewrite (first_row_taken n Hr Hlt) in Hfree. discriminate.
      - pose proof (Hrow cols Hgt) as H.
        rewrite next_column_free in H. discriminate. }
    now subst n.
  - exfalso. pose proof (Hfull cols 0%nat Hfit ltac:(reflexivity)) as H.
    change (cellY size 0) with 0 in H.
    rewrite next_column_free in H. discriminate.
Qed.
End DefaultGrid.

(** After a grid template of the default key size and gap with at least
    one row, [addKey] with the default size puts the new key in the first
    row, in the column right of the grid, as long as that column starts
    within the scanned 800 mm; the grid's keys stay as they are. *)
Theorem addKey_after_grid_template
    (fresh : nat -> string) (gridName now0 fresh_id now : string)
    (key : KeyPartial) (rows cols : nat) (draft : ProjectModel) :
  p_width key = None -> p_height key = None ->
  (1 <= rows)%nat -> cellX DEFAULT_KEY_SIZE cols < maxX ->
  exists fuel0, forall fuel, (fuel0 <= fuel)%nat ->
    exists project' k,
      addKeyDraft fuel fresh_id now key
        (applyTemplateDraft fresh gridName now0 rows cols
           DEFAULT_KEY_SIZE DEFAULT_KEY_GAP draft) = Some project' /\
      keys (layout project')
      = buildGridTemplate fresh rows cols DEFAULT_KEY_SIZE DEFAULT_KEY_GAP
        ++ [k] /\
      k_x k = cellX DEFAULT_KEY_SIZE cols /\ k_y k = 0 /\
      k_x k == inject_Z (Z.of_nat cols) * (DEFAULT_KEY_SIZE + DEFAULT_KEY_GAP).
Proof.
  intros Hw Hh Hr Hfit.
  exists (lastY DEFAULT_KEY_SIZE + lastX DEFAULT_KEY_SIZE + 1)%nat.
  intros fuel Hfuel. unfold addKeyDraft. rewrite Hw, Hh.
  cbn [nullish applyTemplateDraft layout keys].
  rewrite (place_after_grid fresh rows cols Hr Hfit fuel Hfuel).
  eexists _, _. split; [reflexivity|].
  split; [reflexivity|]. split; [reflexivity|]. split; [reflexivity|].
  cbn [createKey placedInput k_x in_x].
  apply PlacementFacts.cellX_linear.
Qed.

Lemma addKey_after_grid_template_witness :
  exists fuel0, forall fuel, (fuel0 <= fuel)%nat ->
    exists project' k,
      addKeyDraft fuel "n" "t1" emptyPartial
        (applyTemplateDraft MoreSamples.freshId "3x3 grid" "t0" 3 3
           DEFAULT_KEY_SIZE DEFAULT_KEY_GAP Samples.emptyProject)
      = Some project' /\
      keys (layout project')
      = buildGridTemplate MoreSamples.freshId 3 3
          DEFAULT_KEY_SIZE DEFAULT_KEY_GAP ++ [k] /\
      k_x k = cellX DEFAULT_KEY_SIZE 3 /\ k_y k = 0 /\
      k_x k == inject_Z (Z.of_nat 3) * (DEFAULT_KEY_SIZE + DEFAULT_KEY_GAP).
Proof.
  apply (addKey_after_grid_template MoreSamples.freshId "3x3 grid" "t0"
           "n" "t1" emptyPartial 3 3 Samples.emptyProject);
    try reflexivity. lia.
Defined.

End GridPlacementFacts.

(** ** The cut sheet: width of the page, and reflow of a reflow *)

Module CutSheetMore.
Import CutSheet.

Lemma maxOf_le xs : forall x0 bound,
  x0 <= bound -> (forall x, In x xs -> x <= bound) -> maxOf x0 xs <= bound.
Proof.
  unfold maxOf. induction xs as [|x xs IH]; intros x0 bound H0 H; simpl.
  - exact H0.
  - apply IH.
    + unfold Qmax. destruct (Qlt_le_dec x0 x); [apply H; now left | exact H0].
    + intros y Hy. apply H. now right.
Qed.

Lemma maxOf_widths_le k0 rest bound :
  (forall k, In k (k0 :: rest) -> k_width k <= bound) ->
  maxOf (k_width k0) (map k_width rest) <= bound.
Proof.
  intros H. apply maxOf_le.
  - apply H. now left.
  - intros x Hx. apply in_map_iff in Hx. destruct Hx as (k & <- & Hk).
    apply H. now right.
Qed.

(** The number of keys per row times the step stays within the usable
    width plus one gap, when the widest key fits. *)
Lemma perRow_fits usableWidth gap maxW perRow :
  0 <= gap -> 0 < maxW -> maxW <= usableWidth ->
  perRowOf usableWidth gap maxW = Some perRow ->
  (1 <= perRow)%Z /\ inject_Z perRow * (maxW + gap) <= usableWidth + gap.
Proof.
  intros Hgap Hw Hfit H. unfold perRowOf in H.
  destruct (Qeq_bool (maxW + gap) 0); [discriminate|]. injection H as <-.
  set (q := (usableWidth + gap) / (maxW + gap)).
  assert (Hq : 1 <= q).
  { unfold q. apply Qle_shift_div_l; lra. }
  assert (Hf : (1 <= Qfloor q)%Z).
  { change 1%Z with (Qfloor 1). now apply Qfloor_resp_le. }
  split; [lia|].
  assert (Hqs : q * (maxW + gap) == usableWidth + gap)
    by (unfold q; field; lra).
  pose proof (Qfloor_le q) as Hfl.
  subst q. rewrite Z.max_r by exact Hf.
  rewrite <- Hqs. apply Qmult_le_compat_r; [exact Hfl | lra].
Qed.

Lemma arrange_within gap margin usableWidth sorted output :
  0 <= gap ->
  (forall k, In k sorted -> wellFormedKey k) ->
  (forall k, In k sorted -> k_width k <= usableWidth) ->
  arrange gap margin usableWidth sorted = Some output ->
  withinWidth margin (margin + usableWidth) output.
Proof.
  intros Hgap Hwf Hfit H. unfold arrange in H.
  destruct sorted as [|k0 rest].
  { injection H as <-. intros k []. }
  set (maxW := maxOf (k_width k0) (map k_width rest)) in *.
  set (maxH := maxOf (k_height k0) (map k_height rest)) in *.
  assert (HmaxW : 0 < maxW).
  { apply (CutSheetFacts.maxOf_positive k_width), (Hwf k0). now left. }
  assert (Hle : maxW <= usableWidth) by (apply maxOf_widths_le; exact Hfit).
  destruct (perRowOf usableWidth gap maxW) as [perRow|] eqn:E; [|discriminate].
  injection H as <-.
  destruct (perRow_fits usableWidth gap maxW perRow Hgap HmaxW Hle E)
    as [Hp Hrow].
  intros k Hk.
  apply (CutSheetFacts.mapi_from_In (placeAt margin gap maxW maxH perRow)
           (k0 :: rest) 0%nat) in Hk.
  destruct Hk as (i & a & Ha & ->).
  unfold placeAt; cbn [place_key k_x k_width].
  pose proof (Z.mod_pos_bound (Z.of_nat i) perRow ltac:(lia)) as [Hc0 Hc1].
  assert (Hw : k_width a <= maxW)
    by (apply (CutSheetFacts.maxOf_upper k_width); exact Ha).
  assert (H0 : 0 <= inject_Z (Z.of_nat i mod perRow)).
  { change 0 with (inject_Z 0). rewrite <- Zle_Qle. exact Hc0. }
  assert (H1 : inject_Z (Z.of_nat i mod perRow) + 1 <= inject_Z perRow).
  { change 1 with (inject_Z 1). rewrite <- inject_Z_plus, <- Zle_Qle. lia. }
  set (c := inject_Z (Z.of_nat i mod perRow)) in *.
  set (p := inject_Z perRow) in *. clearbody c p.
  split; nra.
Qed.

(** When every key is no wider than the printable width, the cut sheet
    keeps every key between the left margin and the right margin, in the
    exporter's copy of the reflow and in the canvas's. *)
Theorem cut_sheet_within_printable_width (project : ProjectModel) :
  (forall k, In k (keys (layout project)) -> wellFormedKey k) ->
  (forall k, In k (keys (layout project)) ->
             k_width k <= pageWidth project - marginMm (paper project) * 2) ->
  exists cut shown,
    buildCutProject project = Some cut /\
    derivedKeys view_cut project = Some shown /\
    withinWidth (marginMm (paper project))
                (pageWidth project - marginMm (paper project))
                (keys (layout cut)) /\
    withinWidth (marginMm (paper project))
                (pageWidth project - marginMm (paper project)) shown.
Proof.
  intros Hwf Hfit.
  set (margin := marginMm (paper project)) in *.
  set (usable := pageWidth project - margin * 2) in *.
  pose proof (sortBy_perm key_leb (keys (layout project))) as Hperm.
  assert (Hin : forall k, In k (sortBy key_leb (keys (layout project))) ->
                          In k (keys (layout project))).
  { intros k Hk.
    eapply Permutation_in; [apply Permutation_sym, Hperm | exact Hk]. }
  assert (Hwf' : forall k, In k (sortBy key_leb (keys (layout project))) ->
                           wellFormedKey k) by auto.
  assert (Hfit' : forall k, In k (sortBy key_leb (keys (layout project))) ->
                            k_width k <= usable) by auto.
  destruct (CutSheetFacts.arrange_reflowed 0.3 margin usable _ _
              ltac:(lra) Hperm Hwf') as (out1 & E1 & _).
  destruct (CutSheetFacts.arrange_reflowed 0.8 margin usable _ _
              ltac:(lra) Hperm Hwf') as (out2 & E2 & _).
  pose proof (arrange_within 0.3 margin usable _ out1 ltac:(lra) Hwf' Hfit' E1)
    as W1.
  pose proof (arrange_within 0.8 margin usable _ out2 ltac:(lra) Hwf' Hfit' E2)
    as W2.
  assert (Hlimit : forall ks, withinWidth margin (margin + usable) ks ->
                              withinWidth margin (pageWidth project - margin) ks).
  { intros ks W k Hk. destruct (W k Hk). unfold usable in *. split; lra. }
  unfold buildCutProject, derivedKeys. fold margin usable. rewrite E1, E2.
  destruct (sortBy key_leb (keys (layout project))) as [|k0 rest] eqn:E.
  - injection E1 as <-. injection E2 as <-.
    apply Permutation_sym, Permutation_nil in Hperm.
    exists project, []. split; [reflexivity|]. split; [reflexivity|].
    split; [rewrite Hperm|]; intros k [].
  - eexists _, out2. split; [reflexivity|]. split; [reflexivity|].
    split; apply Hlimit; assumption.
Qed.

Lemma cut_sheet_within_printable_width_witness :
  let project := Samples.projectOf "demo" Samples.threeKeys in
  exists cut shown,
    buildCutProject project = Some cut /\
    derivedKeys view_cut project = Some shown /\
    withinWidth (marginMm (paper project))
                (pageWidth project - marginMm (paper project))
                (keys (layout cut)) /\
    withinWidth (marginMm (paper project))
                (pageWidth project - marginMm (paper project)) shown.
Proof.
  intros project.
  apply (cut_sheet_within_printable_width project).
  - intros k Hk. simpl in Hk.
    destruct Hk as [<-|[<-|[<-|[]]]]; split; reflexivity.
  - intros k Hk. simpl in Hk.
    destruct Hk as [<-|[<-|[<-|[]]]]; vm_compute; discriminate.
Defined.

End CutSheetMore.

Module CutSheetFixed.
Import CutSheet.

(** Sorting a list whose neighbours are in order returns the list. *)
Lemma sortBy_mapi_from {A B : Type} (leb : B -> B -> bool)
    (f : nat -> A -> B) l :
  (forall i a b, leb (f i a) (f (S i) b) = true) ->
  forall idx, sortBy leb (mapi_from f idx l) = mapi_from f idx l.
Proof.
  intros Hadj. induction l as [|a l IH]; intros idx; [reflexivity|].
  cbn [mapi_from sortBy]. rewrite IH.
  destruct l as [|b l]; [reflexivity|].
  cbn [mapi_from insert_sorted]. now rewrite Hadj.
Qed.

Lemma mapi_from_twice {A : Type} (f : nat -> A -> A) l :
  (forall i a, f i (f i a) = f i a) ->
  forall idx, mapi_from f idx (mapi_from f idx l) = mapi_from f idx l.
Proof.
  intros H. induction l as [|a l IH]; intros idx; [reflexivity|].
  cbn [mapi_from]. now rewrite H, IH.
Qed.

Lemma mapi_from_widths (f : nat -> KeyModel -> KeyModel) (g : KeyModel -> Q) l :
  (forall i a, g (f i a) = g a) ->
  forall idx, map g (mapi_from f idx l) = map g l.
Proof.
  intros H. induction l as [|a l IH]; intros idx; [reflexivity|].
  cbn [mapi_from map]. now rewrite H, IH.
Qed.

(** The cell after cell [i]: the next column of the row, or the first
    column of the next row. *)
Lemma next_cell (i p : Z) :
  (1 <= p)%Z -> (0 <= i)%Z ->
  ((i + 1) / p = i / p /\ (i + 1) mod p = i mod p + 1)%Z \/
  ((i + 1) / p = i / p + 1 /\ (i + 1) mod p = 0)%Z.
Proof.
  intros Hp Hi.
  pose proof (Z.div_mod i p ltac:(lia)) as E.
  pose proof (Z.mod_pos_bound i p ltac:(lia)) as [Hm0 Hm1].
  destruct (Z.eq_dec (i mod p + 1) p) as [Hlast|Hmid].
  - right.
    assert (Hi1 : (i + 1 = (i / p + 1) * p + 0)%Z) by nia.
    split.
    + symmetry. apply (Z.div_unique_pos (i + 1) p (i / p + 1) 0); lia.
    + symmetry. apply (Z.mod_unique_pos (i + 1) p (i / p + 1) 0); lia.
  - left.
    assert (Hi1 : (i + 1 = p * (i / p) + (i mod p + 1))%Z) by lia.
    split.
    + symmetry. apply (Z.div_unique_pos (i + 1) p (i / p) (i mod p + 1)); lia.
    + symmetry. apply (Z.mod_unique_pos (i + 1) p (i / p) (i mod p + 1)); lia.
Qed.

Lemma placeAt_in_order margin gap maxW maxH perRow i a b :
  (1 <= perRow)%Z -> 0 < maxW + gap -> 0 < maxH + gap ->
  key_leb (placeAt margin gap maxW maxH perRow i a)
          (placeAt margin gap maxW maxH perRow (S i) b) = true.
Proof.
  intros Hp Hw Hh. unfold key_leb, placeAt. cbn [place_key k_x k_y].
  rewrite Nat2Z.inj_succ. unfold Z.succ.
  destruct (next_cell (Z.of_nat i) perRow Hp ltac:(lia)) as [[Hd Hm]|[Hd Hm]];
    rewrite Hd, Hm.
  - rewrite inject_Z_plus. change (inject_Z 1) with 1.
    set (r := inject_Z (Z.of_nat i / perRow)).
    set (c := inject_Z (Z.of_nat i mod perRow)). clearbody r c.
    assert (E : Qeq_bool (margin + r * (maxH + gap)
                          - (margin + r * (maxH + gap))) 0 = true)
      by (apply Qeq_bool_iff; ring).
    rewrite E. apply Qle_bool_iff. nra.
  - rewrite inject_Z_plus. change (inject_Z 1) with 1. change (inject_Z 0) with 0.
    set (r := inject_Z (Z.of_nat i / perRow)).
    set (c := inject_Z (Z.of_nat i mod perRow)). clearbody r c.
    destruct (Qeq_bool (margin + r * (maxH + gap)
                        - (margin + (r + 1) * (maxH + gap))) 0) eqn:E.
    + apply Qeq_bool_iff in E. nra.
    + apply Qle_bool_iff. nra.
Qed.

(** An arranged list is in sorted order and arranges to itself. *)
Lemma arrange_fixed gap margin usableWidth sorted output :
  0 <= gap ->
  (forall k, In k sorted -> wellFormedKey k) ->
  arrange gap margin usableWidth sorted = Some output ->
  sortBy key_leb output = output /\
  arrange gap margin usableWidth output = Some output.
Proof.
  intros Hgap Hwf H. unfold arrange in H.
  destruct sorted as [|k0 rest].
  { injection H as <-. split; reflexivity. }
  set (maxW := maxOf (k_width k0) (map k_width rest)) in *.
  set (maxH := maxOf (k_height k0) (map k_height rest)) in *.
  assert (HmaxW : 0 < maxW).
  { apply (CutSheetFacts.maxOf_positive k_width), (Hwf k0). now left. }
  assert (HmaxH : 0 < maxH).
  { apply (CutSheetFacts.maxOf_positive k_height), (Hwf k0). now left. }
  destruct (perRowOf usableWidth gap maxW) as [perRow|] eqn:E; [|discriminate].
  destruct (CutSheetFacts.perRowOf_defined usableWidth gap maxW Hgap HmaxW)
    as (perRow' & E' & Hp).
  assert (perRow' = perRow) by congruence. subst perRow'.
  set (f := placeAt margin gap maxW maxH perRow) in *.
  injection H as <-. split.
  - apply (sortBy_mapi_from key_leb f (k0 :: rest)). intros i a b.
    apply placeAt_in_order; [exact Hp | lra | lra].
  - cbn [mapi_from]. unfold arrange.
    rewrite (mapi_from_widths f k_width rest) by reflexivity.
    rewrite (mapi_from_widths f k_height rest) by reflexivity.
    change (k_width (f 0%nat k0)) with (k_width k0).
    change (k_height (f 0%nat k0)) with (k_height k0).
    fold maxW maxH. rewrite E. fold f. f_equal.
    apply (mapi_from_twice f (k0 :: rest)). reflexivity.
Qed.

(** The cut sheet of a cut sheet is the same cut sheet: reflowing the
    reflowed keys changes no key, in the exporter's copy of the reflow and
    in the canvas's. *)
Theorem cut_sheet_reflow_idempotent (project : ProjectModel) :
  (forall k, In k (keys (layout project)) -> wellFormedKey k) ->
  exists cut shown,
    buildCutProject project = Some cut /\
    derivedKeys view_cut project = Some shown /\
    (exists again, buildCutProject cut = Some again /\
                   keys (layout again) = keys (layout cut)) /\
    derivedKeys view_cut (set_layout project (set_keys (layout project) shown))
    = Some shown.
Proof.
  intros Hwf.
  set (margin := marginMm (paper project)).
  set (usable := pageWidth project - margin * 2).
  pose proof (sortBy_perm key_leb (keys (layout project))) as Hperm.
  assert (Hwf' : forall k, In k (sortBy key_leb (keys (layout project))) ->
                           wellFormedKey k).
  { intros k Hk. apply Hwf.
    eapply Permutation_in; [apply Permutation_sym, Hperm | exact Hk]. }
  destruct (CutSheetFacts.arrange_reflowed 0.3 margin usable _ _
              ltac:(lra) Hperm Hwf') as (out1 & E1 & _).
  destruct (CutSheetFacts.arrange_reflowed 0.8 margin usable _ _
              ltac:(lra) Hperm Hwf') as (out2 & E2 & _).
  destruct (arrange_fixed 0.3 margin usable _ out1 ltac:(lra) Hwf' E1)
    as [S1 A1].
  destruct (arrange_fixed 0.8 margin usable _ out2 ltac:(lra) Hwf' E2)
    as [S2 A2].
  assert (Hshown : derivedKeys view_cut
                     (set_layout project (set_keys (layout project) out2))
                   = Some out2).
  { unfold derivedKeys. cbn [set_layout set_keys layout keys paper].
    unfold pageWidth. cbn [set_layout paper]. rewrite S2. exact A2. }
  unfold buildCutProject at 1. unfold derivedKeys at 1.
  fold margin usable. rewrite E1, E2.
  destruct (sortBy key_leb (keys (layout project))) as [|k0 rest] eqn:E.
  - injection E1 as <-. injection E2 as <-.
    apply Permutation_sym, Permutation_nil in Hperm.
    exists project, []. split; [reflexivity|]. split; [reflexivity|].
    split; [|exact Hshown].
    exists project. split; [|reflexivity].
    unfold buildCutProject. now rewrite Hperm.
  - eexists _, out2. split; [reflexivity|]. split; [reflexivity|].
    split; [|exact Hshown].
    unfold buildCutProject. cbn [set_layout layout keys paper].
    unfold pageWidth. cbn [set_layout paper].
    fold (pageWidth project). fold margin usable. rewrite S1, A1.
    destruct out1 as [|o1 out1]; eexists; split; reflexivity.
Qed.

Lemma cut_sheet_reflow_idempotent_witness :
  let project := Samples.projectOf "demo" Samples.threeKeys in
  exists cut shown,
    buildCutProject project = Some cut /\
    derivedKeys view_cut project = Some shown /\
    (exists again, buildCutProject cut = Some again /\
                   keys (layout again) = keys (layout cut)) /\
    derivedKeys view_cut (set_layout project (set_keys (layout project) shown))
    = Some shown.
Proof.
  intros project.
  apply (cut_sheet_reflow_idempotent project).
  intros k Hk. simpl in Hk.
  destruct Hk as [<-|[<-|[<-|[]]]]; split; reflexivity.
Defined.

End CutSheetFixed.

(** ** The three renderers against each other *)

Module RendererFacts.

(** The rectangle the PDF exporter gives an element is the rectangle the
    SVG exporter gives it, carried to the PDF page: converted to points
    and measured up from the bottom of the page, for every key, element
    and padding. *)
Theorem pdf_elementBox_is_svg_elementBox (pageHeight margin : Q)
    (key : KeyModel) (el : KeyElement) :
  Box_eq (Pdf.elementBox (Pdf.keyFrame pageHeight margin key) key el)
         (toPdfBox pageHeight
            (Svg.elementBox (margin + k_x key) (margin + k_y key) key el)).
Proof.
  unfold Box_eq, toPdfBox, Pdf.elementBox, Pdf.keyFrame, Svg.elementBox,
    mmToPoints, MM_PER_INCH, POINTS_PER_INCH.
  cbn [box_x box_y box_w box_h Pdf.originX Pdf.originY].
  repeat split; field.
Qed.

(** The canvas draws an element in the placer's rectangle, scaled to
    pixels, exactly when the padding in force for the element is the
    key's: an element without a padding of its own, or with the key's. *)
Theorem canvas_elementBox_placer_iff (dpi : Q) (key : KeyModel)
    (el : KeyElement) :
  0 < dpi ->
  Box_eq (Canvas.elementBox dpi key el)
         {| box_x := mmToPixels (box_x (placerBox key el)) dpi;
            box_y := mmToPixels (box_y (placerBox key el)) dpi;
            box_w := mmToPixels (box_w (placerBox key el)) dpi;
            box_h := mmToPixels (box_h (placerBox key el)) dpi |}
  <-> effectivePadding key el == k_padding key.
Proof.
  intros Hdpi.
  unfold Box_eq, Canvas.elementBox, placerBox, mmToPixels, MM_PER_INCH.
  cbn [box_x box_y box_w box_h].
  set (p := effectivePadding key el). set (kp := k_padding key).
  set (ex := orElse (el_x el) 0). set (ey := orElse (el_y el) 0).
  set (ew := orElse (el_width el) (k_width key)).
  set (eh := orElse (el_height el) (k_height key)).
  clearbody p kp ex ey ew eh.
  split.
  - intros (Hx & _).
    assert (E : (ex + kp) / 25.4 * dpi - (ex + p) / 25.4 * dpi
                == (kp - p) * (dpi / 25.4)) by field.
    assert (Hz : (kp - p) * (dpi / 25.4) == 0) by (rewrite <- E, Hx; ring).
    apply Qmult_integral in Hz. destruct Hz as [Hz|Hz]; [lra|].
    exfalso. revert Hz. qdiv. lra.
  - intros Hp. repeat split; rewrite Hp; field.
Qed.

Lemma canvas_elementBox_placer_iff_witness :
  Box_eq (Canvas.elementBox 96 Samples.thinPaddedKey Samples.paddedLabel)
         {| box_x := mmToPixels
                       (box_x (placerBox Samples.thinPaddedKey
                                         Samples.paddedLabel)) 96;
            box_y := mmToPixels
                       (box_y (placerBox Samples.thinPaddedKey
                                         Samples.paddedLabel)) 96;
            box_w := mmToPixels
                       (box_w (placerBox Samples.thinPaddedKey
                                         Samples.paddedLabel)) 96;
            box_h := mmToPixels
                       (box_h (placerBox Samples.thinPaddedKey
                                         Samples.paddedLabel)) 96 |}
  <-> effectivePadding Samples.thinPaddedKey Samples.paddedLabel
      == k_padding Samples.thinPaddedKey.
Proof.
  apply (canvas_elementBox_placer_iff 96 Samples.thinPaddedKey
           Samples.paddedLabel).
  reflexivity.
Defined.

End RendererFacts.

(** ** Key outlines beyond the ISO enter scenario *)

Module OutlineMore.

(** The L listed from its far side: [yb <= ym <= yt]. *)
Lemma ellOutline_inside_rev xl xr xm yt ym yb p :
  yb <= ym -> ym <= yt -> xl <= xr -> xm <= xr ->
  inside (ellOutline xl xr xm yt ym yb) p = true
  <-> (ym <= pt_y p /\ pt_y p < yt /\ xl <= pt_x p /\ pt_x p < xr)
      \/ (yb <= pt_y p /\ pt_y p < ym /\ xm <= pt_x p /\ pt_x p < xr).
Proof.
  intros Hy1 Hy2 Hx1 Hx2. unfold inside, ellOutline, edges.
  cbn [edges_from filter fst snd].
  rewrite (OutlineFacts.crosses_horizontal p (mkPoint xl yt)) by (simpl; lra).
  rewrite (OutlineFacts.crosses_horizontal p (mkPoint xr yb)) by (simpl; lra).
  rewrite (OutlineFacts.crosses_horizontal p (mkPoint xm ym)) by (simpl; lra).
  rewrite (OutlineFacts.crosses_vertical p (mkPoint xr yt)) by (simpl; lra).
  rewrite (OutlineFacts.crosses_vertical p (mkPoint xm yb)) by (simpl; lra).
  rewrite (OutlineFacts.crosses_vertical p (mkPoint xl ym)) by (simpl; lra).
  cbn [pt_x pt_y mkPoint].
  destruct p as [px py]; cbn [pt_x pt_y].
  split_tests; cbn; split; intros Hin;
    first [ discriminate Hin | reflexivity | (exfalso; lra)
          | (exfalso; destruct Hin as [Hin|Hin]; lra)
          | (left; lra) | (right; lra) ].
Qed.

Lemma ellOutline_bbox_rev xl xr xm yt ym yb :
  xl <= xm -> xm <= xr -> yb <= ym -> ym <= yt ->
  sixVerticesIn (ellOutline xl xr xm yt ym yb) (xr - xl) (yt - yb).
Proof.
  intros Hx1 Hx2 Hy1 Hy2. split; [reflexivity|].
  eexists. split; [reflexivity|].
  unfold bbox_width, bbox_height; cbn [fold_left bbox_add ellOutline mkPoint
    pt_x pt_y min_x min_y max_x max_y].
  split; split_tests; lra.
Qed.

(** An L whose inner corner lies left of its left edge: the bounding box
    reaches out to the corner. *)
Lemma ellOutline_bbox_overhang xl xr xm yt ym yb :
  xm <= xl -> xl <= xr -> yt <= ym -> ym <= yb ->
  sixVerticesIn (ellOutline xl xr xm yt ym yb) (xr - xm) (yb - yt).
Proof.
  intros Hx1 Hx2 Hy1 Hy2. split; [reflexivity|].
  eexists. split; [reflexivity|].
  unfold bbox_width, bbox_height; cbn [fold_left bbox_add ellOutline mkPoint
    pt_x pt_y min_x min_y max_x max_y].
  split; split_tests; lra.
Qed.

Lemma Qmin_le_l a b : Qmin a b <= a.
Proof. unfold Qmin. destruct (Qlt_le_dec b a); lra. Qed.

Lemma Qmin_pos a b : 0 < a -> 0 < b -> 0 < Qmin a b.
Proof. intros Ha Hb. unfold Qmin. destruct (Qlt_le_dec b a); lra. Qed.

(** A big enter key of any positive size: the SVG exporter and the canvas
    list six vertices whose bounding box is the key's own, and the outline
    encloses the bottom half of the height over the full width together
    with the top half over the right-hand strip, which is 20.25 mm wide
    and never wider than the key. *)
Theorem big_enter_outline_region (key : KeyModel) (p : Point) :
  k_keyType key = Some big_enter ->
  0 < k_width key -> 0 < k_height key ->
  (forall x y,
      sixVerticesIn (Svg.outline x y key) (k_width key) (k_height key) /\
      (inside (Svg.outline x y key) p = true
       <-> bigEnterRegion x y (k_width key) (k_height key)
             (Qmin (k_width key) 20.25) p)) /\
  (forall dpi effectiveScale,
      0 < dpi -> 0 < effectiveScale ->
      sixVerticesIn (Canvas.outline dpi effectiveScale key)
        (Canvas.wPx dpi effectiveScale key)
        (Canvas.hPx dpi effectiveScale key) /\
      (inside (Canvas.outline dpi effectiveScale key) p = true
       <-> bigEnterRegion 0 0 (Canvas.wPx dpi effectiveScale key)
             (Canvas.hPx dpi effectiveScale key)
             (Qmin (Canvas.wPx dpi effectiveScale key)
                   (mmToPixels 20.25 dpi * effectiveScale)) p)).
Proof.
  intros Hty Hw Hh. split.
  - intros x y. unfold Svg.outline. rewrite Hty.
    set (w := k_width key) in *. set (h := k_height key) in *.
    pose proof (Qmin_le_l w 20.25) as Hm1.
    pose proof (Qmin_pos w 20.25 Hw ltac:(lra)) as Hm2.
    set (topW := Qmin w 20.25) in *. clearbody topW w h.
    change (sixVerticesIn
              (ellOutline x (x + w) (x + w - topW) (y + h) (y + h / 2) y) w h /\
            (inside (ellOutline x (x + w) (x + w - topW) (y + h) (y + h / 2) y)
               p = true <-> bigEnterRegion x y w h topW p)).
    split.
    + destruct (ellOutline_bbox_rev x (x + w) (x + w - topW)
                  (y + h) (y + h / 2) y)
        as (Hlen & b & Hb & Hbw & Hbh); try (qdiv; lra).
      split; [exact Hlen|]. exists b. split; [exact Hb|]. split; lra.
    + rewrite ellOutline_inside_rev by (qdiv; lra).
      unfold bigEnterRegion. tauto.
  - intros dpi effectiveScale Hdpi Hs. unfold Canvas.outline. rewrite Hty.
    assert (Hwp : 0 < Canvas.wPx dpi effectiveScale key).
    { apply Qmult_lt_0_compat; [now apply OutlineFacts.mmToPixels_pos | exact Hs]. }
    assert (Hhp : 0 < Canvas.hPx dpi effectiveScale key).
    { apply Qmult_lt_0_compat; [now apply OutlineFacts.mmToPixels_pos | exact Hs]. }
    assert (Hu : 0 < mmToPixels 20.25 dpi * effectiveScale).
    { apply Qmult_lt_0_compat;
        [apply OutlineFacts.mmToPixels_pos; lra | exact Hs]. }
    set (w := Canvas.wPx dpi effectiveScale key) in *.
    set (h := Canvas.hPx dpi effectiveScale key) in *.
    pose proof (Qmin_le_l w (mmToPixels 20.25 dpi * effectiveScale)) as Hm1.
    pose proof (Qmin_pos w _ Hwp Hu) as Hm2.
    set (topW := Qmin w (mmToPixels 20.25 dpi * effectiveScale)) in *.
    clearbody topW w h.
    change (sixVerticesIn (ellOutline 0 w (w - topW) h (h / 2) 0) w h /\
            (inside (ellOutline 0 w (w - topW) h (h / 2) 0) p = true
             <-> bigEnterRegion 0 0 w h topW p)).
    split.
    + destruct (ellOutline_bbox_rev 0 w (w - topW) h (h / 2) 0)
        as (Hlen & b & Hb & Hbw & Hbh); try (qdiv; lra).
      split; [exact Hlen|]. exists b. split; [exact Hb|]. split; lra.
    + rewrite ellOutline_inside_rev by (qdiv; lra).
      unfold bigEnterRegion. qdiv.
      split; (intros [H|H]; [left|right]); lra.
Qed.

Lemma big_enter_outline_region_witness :
  sixVerticesIn (Svg.outline 6 6 MoreSamples.bigEnterKey) 33.75 27 /\
  (inside (Svg.outline 6 6 MoreSamples.bigEnterKey) (mkPoint 10 30) = true
   <-> bigEnterRegion 6 6 33.75 27 (Qmin 33.75 20.25) (mkPoint 10 30)).
Proof.
  refine (proj1 (big_enter_outline_region MoreSamples.bigEnterKey
                   (mkPoint 10 30) eq_refl _ _) 6 6); reflexivity.
Defined.

(** An ISO enter key of any positive size: the bounding box of its six
    vertices is as high as the key and as wide as the larger of the key's
    width and half its height.  The strip is not clamped to the key, so
    on a key narrower than half its height the outline reaches out to the
    left of the key. *)
Theorem iso_enter_outline_bbox (key : KeyModel) :
  k_keyType key = Some iso_enter ->
  0 < k_width key -> 0 < k_height key ->
  (forall x y,
      sixVerticesIn (Svg.outline x y key)
        (Qmax (k_width key) (k_height key / 2)) (k_height key)) /\
  (forall dpi effectiveScale,
      0 < dpi -> 0 < effectiveScale ->
      sixVerticesIn (Canvas.outline dpi effectiveScale key)
        (Qmax (Canvas.wPx dpi effectiveScale key)
              (Canvas.hPx dpi effectiveScale key / 2))
        (Canvas.hPx dpi effectiveScale key)).
Proof.
  intros Hty Hw Hh.
  assert (Hell : forall x y w h, 0 < w -> 0 < h ->
            sixVerticesIn
              (ellOutline x (x + w) (x + w - h / 2) y (y + h / 2) (y + h))
              (Qmax w (h / 2)) h).
  { intros x y w h Hw' Hh'. unfold Qmax.
    destruct (Qlt_le_dec w (h / 2)) as [Hn|Hn].
    - destruct (ellOutline_bbox_overhang x (x + w) (x + w - h / 2)
                  y (y + h / 2) (y + h))
        as (Hlen & b & Hb & Hbw & Hbh); try (revert Hn; qdiv; intros; lra).
      split; [exact Hlen|]. exists b. split; [exact Hb|].
      split; [rewrite Hbw; ring | rewrite Hbh; ring].
    - destruct (OutlineFacts.ellOutline_bbox x (x + w) (x + w - h / 2)
                  y (y + h / 2) (y + h))
        as (Hlen & b & Hb & Hbw & Hbh); try (revert Hn; qdiv; intros; lra).
      split; [exact Hlen|]. exists b. split; [exact Hb|].
      split; [rewrite Hbw; ring | rewrite Hbh; ring]. }
  split.
  - intros x y. unfold Svg.outline. rewrite Hty.
    exact (Hell x y (k_width key) (k_height key) Hw Hh).
  - intros dpi effectiveScale Hdpi Hs. unfold Canvas.outline. rewrite Hty.
    assert (Hwp : 0 < Canvas.wPx dpi effectiveScale key).
    { apply Qmult_lt_0_compat; [now apply OutlineFacts.mmToPixels_pos | exact Hs]. }
    assert (Hhp : 0 < Canvas.hPx dpi effectiveScale key).
    { apply Qmult_lt_0_compat; [now apply OutlineFacts.mmToPixels_pos | exact Hs]. }
    set (w := Canvas.wPx dpi effectiveScale key) in *.
    set (h := Canvas.hPx dpi effectiveScale key) in *. clearbody w h.
    split; [reflexivity|].
    assert (Eb : bbox [Canvas.pt 0 0; Canvas.pt w 0; Canvas.pt w h;
                       Canvas.pt (w - h / 2) h; Canvas.pt (w - h / 2) (h / 2);
                       Canvas.pt 0 (h / 2)]
                 = Some (fold_left bbox_add
                           [mkPoint w 0; mkPoint w h; mkPoint (w - h / 2) h;
                            mkPoint (w - h / 2) (h / 2); mkPoint 0 (h / 2)]
                           {| min_x := 0; min_y := 0; max_x := 0; max_y := 0 |}))
      by reflexivity.
    eexists. split; [exact Eb|].
    unfold Qmax.
    unfold bbox_width, bbox_height; cbn [fold_left bbox_add mkPoint
      pt_x pt_y min_x min_y max_x max_y].
    split; split_tests; qdiv; lra.
Qed.

Lemma iso_enter_outline_bbox_witness :
  sixVerticesIn (Svg.outline 6 6 MoreSamples.tallIsoKey)
    (Qmax 10 (27 / 2)) 27.
Proof.
  refine (proj1 (iso_enter_outline_bbox MoreSamples.tallIsoKey
                   eq_refl _ _) 6 6); reflexivity.
Defined.

End OutlineMore.

(** ** The outline of an enter key on the PDF page *)

Module PdfOutlineFacts.

Section OnThePage.
Variables (pageHeight margin : Q) (key : KeyModel) (p : Point).
Hypothesis Hw : 0 < k_width key.
Hypothesis Hh : 0 < k_height key.

Let x := margin + k_x key.
Let y := margin + k_y key.
Let f := Pdf.keyFrame pageHeight margin key.

(** The region the six PDF vertices of an ISO enter enclose, in page
    millimetres with y pointing down. *)
Lemma pdf_iso_enter_on_page :
  k_keyType key = Some iso_enter ->
  inside (Pdf.rawOutline f key) (toPdfPoint pageHeight p) = true
  <-> (y + k_height key / 2 < pt_y p /\ pt_y p <= y + k_height key /\
       x <= pt_x p /\ pt_x p < x + k_width key)
      \/ (y < pt_y p /\ pt_y p <= y + k_height key / 2 /\
          x + k_width key - k_height key / 2 <= pt_x p /\
          pt_x p < x + k_width key).
Proof.
  intros Hty.
  assert (E : Pdf.rawOutline f key
              = ellOutline (Pdf.originX f) (Pdf.originX f + Pdf.keyWidthPt f)
                  (Pdf.originX f + Pdf.keyWidthPt f
                   - mmToPoints (k_height key / 2))
                  (Pdf.originY f)
                  (Pdf.originY f + mmToPoints (k_height key / 2))
                  (Pdf.originY f + Pdf.keyHeightPt f))
    by (unfold Pdf.rawOutline; rewrite Hty; reflexivity).
  rewrite E.
  rewrite OutlineFacts.ellOutline_inside
    by (unfold f, Pdf.keyFrame, mmToPoints, MM_PER_INCH, POINTS_PER_INCH;
        cbn [Pdf.originX Pdf.originY Pdf.keyWidthPt Pdf.keyHeightPt];
        qdiv; lra).
  unfold ellRegion, toPdfPoint, f, x, y, Pdf.keyFrame, mmToPoints,
    MM_PER_INCH, POINTS_PER_INCH.
  cbn [Pdf.originX Pdf.originY Pdf.keyWidthPt Pdf.keyHeightPt pt_x pt_y mkPoint].
  qdiv. split; (intros [H|H]; [left|right]); lra.
Qed.

Lemma pdf_big_enter_on_page :
  k_keyType key = Some big_enter ->
  inside (Pdf.rawOutline f key) (toPdfPoint pageHeight p) = true
  <-> (y < pt_y p /\ pt_y p <= y + k_height key / 2 /\
       x <= pt_x p /\ pt_x p < x + k_width key)
      \/ (y + k_height key / 2 < pt_y p /\ pt_y p <= y + k_height key /\
          x + k_width key - Qmin (k_width key) 20.25 <= pt_x p /\
          pt_x p < x + k_width key).
Proof.
  intros Hty.
  assert (E : Pdf.rawOutline f key
              = ellOutline (Pdf.originX f) (Pdf.originX f + Pdf.keyWidthPt f)
                  (Pdf.originX f + Pdf.keyWidthPt f
                   - mmToPoints (Qmin (k_width key) 20.25))
                  (Pdf.originY f + Pdf.keyHeightPt f)
                  (Pdf.originY f + mmToPoints (k_height key / 2))
                  (Pdf.originY f))
    by (unfold Pdf.rawOutline; rewrite Hty; reflexivity).
  rewrite E.
  pose proof (OutlineMore.Qmin_le_l (k_width key) 20.25) as Hm1.
  pose proof (OutlineMore.Qmin_pos (k_width key) 20.25 Hw ltac:(lra)) as Hm2.
  set (topW := Qmin (k_width key) 20.25) in *. clearbody topW.
  rewrite OutlineMore.ellOutline_inside_rev
    by (unfold f, Pdf.keyFrame, mmToPoints, MM_PER_INCH, POINTS_PER_INCH;
        cbn [Pdf.originX Pdf.originY Pdf.keyWidthPt Pdf.keyHeightPt];
        qdiv; lra).
  unfold toPdfPoint, f, x, y, Pdf.keyFrame, mmToPoints,
    MM_PER_INCH, POINTS_PER_INCH.
  cbn [Pdf.originX Pdf.originY Pdf.keyWidthPt Pdf.keyHeightPt pt_x pt_y mkPoint].
  qdiv. split; (intros [H|H]; [left|right]); lra.
Qed.

Lemma svg_iso_enter_on_page :
  k_keyType key = Some iso_enter ->
  inside (Svg.outline x y key) p = true
  <-> isoEnterRegion x y (k_width key) (k_height key) p.
Proof.
  intros Hty. unfold Svg.outline. rewrite Hty.
  change (inside (ellOutline x (x + k_width key)
                    (x + k_width key - k_height key / 2)
                    y (y + k_height key / 2) (y + k_height key)) p = true
          <-> isoEnterRegion x y (k_width key) (k_height key) p).
  rewrite OutlineFacts.ellOutline_inside by (qdiv; lra).
  unfold ellRegion, isoEnterRegion. tauto.
Qed.

Lemma svg_big_enter_on_page :
  k_keyType key = Some big_enter ->
  inside (Svg.outline x y key) p = true
  <-> bigEnterRegion x y (k_width key) (k_height key)
        (Qmin (k_width key) 20.25) p.
Proof.
  intros Hty. unfold Svg.outline. rewrite Hty.
  pose proof (OutlineMore.Qmin_le_l (k_width key) 20.25) as Hm1.
  pose proof (OutlineMore.Qmin_pos (k_width key) 20.25 Hw ltac:(lra)) as Hm2.
  set (topW := Qmin (k_width key) 20.25) in *. clearbody topW.
  change (inside (ellOutline x (x + k_width key) (x + k_width key - topW)
                    (y + k_height key) (y + k_height key / 2) y) p = true
          <-> bigEnterRegion x y (k_width key) (k_height key) topW p).
  rewrite OutlineMore.ellOutline_inside_rev by (qdiv; lra).
  unfold bigEnterRegion. tauto.
Qed.

End OnThePage.

Lemma bool_true_or_not (b : bool) : b = true \/ b <> true.
Proof. destruct b; [now left | right; discriminate]. Qed.

(** The six vertices the PDF exporter lists for an enter key are those of
    the SVG exporter with the key's top and bottom exchanged: take a point
    of the page within the key's bounding box and off its midline; right
    of the strip's left edge both outlines contain it, left of that edge
    exactly one of them does. *)
Theorem pdf_enter_outline_upside_down (pageHeight margin : Q)
    (key : KeyModel) (p : Point) :
  let x := margin + k_x key in
  let y := margin + k_y key in
  let svg := inside (Svg.outline x y key) p in
  let pdf := inside (Pdf.rawOutline (Pdf.keyFrame pageHeight margin key) key)
               (toPdfPoint pageHeight p) in
  k_keyType key = Some iso_enter \/ k_keyType key = Some big_enter ->
  0 < k_width key -> 0 < k_height key ->
  x < pt_x p -> pt_x p < x + k_width key ->
  y < pt_y p -> pt_y p < y + k_height key ->
  ~ pt_y p == y + k_height key / 2 ->
  (x + k_width key - stripWidth key <= pt_x p -> svg = true /\ pdf = true) /\
  (pt_x p < x + k_width key - stripWidth key -> svg = negb pdf).
Proof.
  intros x y svg pdf Hty Hw Hh Hx1 Hx2 Hy1 Hy2 Hmid.
  assert (Hhalf : pt_y p < y + k_height key / 2
                  \/ y + k_height key / 2 < pt_y p).
  { destruct (Qlt_le_dec (pt_y p) (y + k_height key / 2)) as [Hl|Hl];
      [now left|].
    right. apply Qle_lteq in Hl. destruct Hl as [Hl|Hl]; [exact Hl|].
    exfalso. apply Hmid. now symmetry. }
  unfold stripWidth.
  destruct Hty as [Hty|Hty]; rewrite Hty.
  - pose proof (svg_iso_enter_on_page margin key p Hw Hh Hty) as Hs.
    pose proof (pdf_iso_enter_on_page pageHeight margin key p Hw Hh Hty) as Hp.
    fold x y in Hs, Hp. fold svg in Hs. fold pdf in Hp.
    unfold isoEnterRegion in Hs. clearbody svg pdf. clear Hmid.
    revert Hs Hp Hhalf. qdiv. intros Hs Hp Hhalf.
    split; intros Hstrip.
    + split; [apply Hs | apply Hp];
        destruct Hhalf; [left | right | right | left]; lra.
    + destruct (bool_true_or_not svg) as [Es|Es],
               (bool_true_or_not pdf) as [Ep|Ep].
      * exfalso. apply Hs in Es. apply Hp in Ep.
        destruct Es as [Es|Es], Ep as [Ep|Ep]; lra.
      * destruct svg, pdf; try reflexivity; congruence.
      * destruct svg, pdf; try reflexivity; congruence.
      * exfalso. destruct Hhalf as [Hl|Hl].
        -- apply Es, Hs. left. lra.
        -- apply Ep, Hp. left. lra.
  - pose proof (svg_big_enter_on_page margin key p Hw Hh Hty) as Hs.
    pose proof (pdf_big_enter_on_page pageHeight margin key p Hw Hh Hty) as Hp.
    fold x y in Hs, Hp. fold svg in Hs. fold pdf in Hp.
    unfold bigEnterRegion in Hs. clearbody svg pdf. clear Hmid.
    set (topW := Qmin (k_width key) 20.25) in *. clearbody topW.
    revert Hs Hp Hhalf. qdiv. intros Hs Hp Hhalf.
    split; intros Hstrip.
    + split; [apply Hs | apply Hp];
        destruct Hhalf; [right | left | left | right]; lra.
    + destruct (bool_true_or_not svg) as [Es|Es],
               (bool_true_or_not pdf) as [Ep|Ep].
      * exfalso. apply Hs in Es. apply Hp in Ep.
        destruct Es as [Es|Es], Ep as [Ep|Ep]; lra.
      * destruct svg, pdf; try reflexivity; congruence.
      * destruct svg, pdf; try reflexivity; congruence.
      * exfalso. destruct Hhalf as [Hl|Hl].
        -- apply Ep, Hp. left. lra.
        -- apply Es, Hs. left. lra.
Qed.

Lemma pdf_enter_outline_upside_down_witness :
  inside (Svg.outline (6 + 0) (6 + 0) Samples.isoEnterKey) (mkPoint 8 10)
  = negb (inside (Pdf.rawOutline (Pdf.keyFrame 297 6 Samples.isoEnterKey)
                    Samples.isoEnterKey)
            (toPdfPoint 297 (mkPoint 8 10))).
Proof.
  refine (proj2 (pdf_enter_outline_upside_down 297 6 Samples.isoEnterKey
                   (mkPoint 8 10) (or_introl eq_refl) _ _ _ _ _ _ _) _);
    try reflexivity.
  intros H; discriminate H.
Defined.

End PdfOutlineFacts.

(** ** The image fit on an image of positive size *)

Module ImageFitMore.
Import JSNum ImageFit.

Lemma div_fin a b : 0 < b -> div (Fin a) (Fin b) = Fin (a / b).
Proof.
  intros Hb. unfold div. destruct (Qeq_bool b 0) eqn:E; [|reflexivity].
  apply Qeq_bool_iff in E. lra.
Qed.

Lemma Qdiv_pos a b : 0 < a -> 0 < b -> 0 < a / b.
Proof.
  intros Ha Hb. unfold Qdiv. apply Qmult_lt_0_compat; [exact Ha|].
  now apply Qinv_lt_0_compat.
Qed.

Lemma Qdiv_cancel a b : 0 < b -> a / b * b == a.
Proof. intros Hb. field. lra. Qed.

Lemma drawSize_fitted fit aw ah iw ih :
  0 < aw -> 0 < ah -> 0 < iw -> 0 < ih ->
  fit <> fit_other ->
  exists dw dh,
    drawSize fit (Fin aw) (Fin ah) (Fin iw) (Fin ih) = (Fin dw, Fin dh) /\
    fitted fit aw ah iw ih dw dh.
Proof.
  intros Haw Hah Hiw Hih Hfit. unfold drawSize.
  rewrite !div_fin by assumption.
  pose proof (Qdiv_pos iw ih Hiw Hih) as Hr.
  pose proof (Qdiv_cancel iw ih Hih) as Er.
  pose proof (Qdiv_cancel aw ah Hah) as Ea.
  pose proof (Qdiv_cancel aw (iw / ih) Hr) as Ed.
  pose proof (Qdiv_pos aw (iw / ih) Haw Hr) as Hd.
  set (r := iw / ih) in *. set (a := aw / ah) in *.
  destruct fit; [| |congruence]; unfold gt, lt;
    destruct (Qlt_le_dec _ _) as [Hc|Hc]; cbn [mul];
    rewrite ?div_fin by exact Hr; set (d := aw / r) in *;
    eexists _, _; (split; [reflexivity|]); unfold fitted;
    clearbody r a d.
  - split; [nra|]. split; [right; reflexivity|]. split; [nra|lra].
  - split; [nra|]. split; [left; reflexivity|]. split; [lra|nra].
  - split; [nra|]. split; [right; reflexivity|]. split; [nra|lra].
  - split; [nra|]. split; [left; reflexivity|]. split; [lra|nra].
Qed.

(** An image of positive size in a rectangle of positive size, under
    [contain] or [cover], in exact arithmetic: the drawn size keeps the
    image's proportions and matches the rectangle on one side; under
    [contain] the drawn rectangle lies within the available one, under
    [cover] it covers it, whatever the alignment; and the alignment fixes
    the edge, or the centre, the two rectangles share. *)
Theorem image_fit_positive_image (fit : Fit) (alignX : option AlignX)
    (alignY : option AlignY) (x y aw ah iw ih : Q) :
  0 < aw -> 0 < ah -> 0 < iw -> 0 < ih -> fit <> fit_other ->
  exists ox oy dw dh,
    imageFit fit alignX alignY (Fin x) (Fin y) (Fin aw) (Fin ah)
             (Fin iw) (Fin ih)
    = {| offsetX := Fin ox; offsetY := Fin oy;
         drawW := Fin dw; drawH := Fin dh |} /\
    fitted fit aw ah iw ih dw dh /\
    placedIn fit x y aw ah ox oy dw dh /\
    alignedX (nullish alignX ax_center) x aw ox dw /\
    alignedY (nullish alignY ay_center) y ah oy dh.
Proof.
  intros Haw Hah Hiw Hih Hfit.
  destruct (drawSize_fitted fit aw ah iw ih Haw Hah Hiw Hih Hfit)
    as (dw & dh & E & Hf).
  unfold imageFit. rewrite E.
  assert (H2 : 0 < 2) by lra.
  destruct alignX as [[]|], alignY as [[]|];
    cbn [nullish sub neg add]; rewrite ?(div_fin _ 2 H2);
    cbn [add]; eexists _, _, dw, dh; (split; [reflexivity|]);
    (split; [exact Hf|]);
    destruct Hf as (_ & _ & Hf);
    (destruct fit; [| |congruence]);
    unfold placedIn, alignedX, alignedY; destruct Hf as [Hf1 Hf2];
    qdiv; repeat split; lra.
Qed.

Lemma image_fit_positive_image_witness :
  exists ox oy dw dh,
    imageFit contain (Some ax_right) None (Fin 1) (Fin 1) (Fin 10) (Fin 10)
             (Fin 40) (Fin 20)
    = {| offsetX := Fin ox; offsetY := Fin oy;
         drawW := Fin dw; drawH := Fin dh |} /\
    fitted contain 10 10 40 20 dw dh /\
    placedIn contain 1 1 10 10 ox oy dw dh /\
    alignedX (nullish (Some ax_right) ax_center) 1 10 ox dw /\
    alignedY (nullish None ay_center) 1 10 oy dh.
Proof.
  apply (image_fit_positive_image contain (Some ax_right) None 1 1 10 10 40 20);
    try reflexivity.
  discriminate.
Defined.

Lemma mmToPoints_pos mm : 0 < mm -> 0 < mmToPoints mm.
Proof.
  intros H. unfold mmToPoints, MM_PER_INCH, POINTS_PER_INCH. qdiv. lra.
Qed.

(** Vertical alignment of an image in the PDF exporter, whose y axis
    points up: with [alignY] bottom the drawn image ends at the upper edge
    of the element's rectangle on the page, and with [alignY] top it
    starts at the rectangle's lower edge.  The rectangle is the one the
    SVG exporter gives the element, carried to the PDF page. *)
Theorem pdf_image_alignY_edges (pageHeight margin : Q) (key : KeyModel)
    (el : KeyElement) (i : ImageProps) (imgW imgH : Q) :
  let b := Svg.elementBox (margin + k_x key) (margin + k_y key) key el in
  let d := Pdf.imageDrawn (Pdf.keyFrame pageHeight margin key) key el i
             imgW imgH in
  0 < box_w b -> 0 < box_h b -> 0 < imgW -> 0 < imgH ->
  fit i <> fit_other ->
  exists oy dh,
    offsetY d = Fin oy /\ drawH d = Fin dh /\ 0 < dh /\
    (el_alignY el = Some ay_bottom ->
     oy + dh == mmToPoints (pageHeight - box_y b)) /\
    (el_alignY el = Some ay_top ->
     oy == mmToPoints (pageHeight - (box_y b + box_h b))).
Proof.
  intros b d Hbw Hbh Hiw Hih Hfit.
  set (pb := Pdf.elementBox (Pdf.keyFrame pageHeight margin key) key el) in *.
  assert (Ey : box_y pb == mmToPoints (pageHeight - box_y b - box_h b)).
  { unfold pb, b, Pdf.elementBox, Pdf.keyFrame, Svg.elementBox, mmToPoints,
      MM_PER_INCH, POINTS_PER_INCH.
    cbn [box_y box_h Pdf.originY]. field. }
  assert (Ew : box_w pb == mmToPoints (box_w b)) by reflexivity.
  assert (Eh : box_h pb == mmToPoints (box_h b)) by reflexivity.
  assert (Hpw : 0 < box_w pb) by (rewrite Ew; now apply mmToPoints_pos).
  assert (Hph : 0 < box_h pb) by (rewrite Eh; now apply mmToPoints_pos).
  destruct (drawSize_fitted (fit i) (box_w pb) (box_h pb) imgW imgH
              Hpw Hph Hiw Hih Hfit) as (dw & dh & E & Hf).
  assert (Hdh : 0 < dh).
  { destruct Hf as (Hasp & Hside & _).
    destruct (Qlt_le_dec 0 dh) as [Hp|Hn]; [exact Hp|exfalso].
    destruct Hside as [Hs|Hs]; [|lra].
    assert (0 < dw * imgH) by (rewrite Hs; now apply Qmult_lt_0_compat).
    nra. }
  unfold d, Pdf.imageDrawn, imageFit. fold pb. rewrite E.
  assert (H2 : 0 < 2) by lra.
  destruct (el_alignY el) as [[]|];
    cbn [nullish sub neg add offsetY drawH]; rewrite ?(div_fin _ 2 H2);
    cbn [add]; eexists _, dh; (split; [reflexivity|]);
    (split; [reflexivity|]); (split; [exact Hdh|]);
    (split; intros Hal; try discriminate Hal).
  - rewrite Ey. unfold mmToPoints, MM_PER_INCH, POINTS_PER_INCH. field.
  - rewrite Ey, Eh. unfold mmToPoints, MM_PER_INCH, POINTS_PER_INCH. field.
Qed.

Lemma pdf_image_alignY_edges_witness :
  let key := MoreSamples.bottomImageKey in
  let el := MoreSamples.bottomImage in
  let b := Svg.elementBox (6 + k_x key) (6 + k_y key) key el in
  let d := Pdf.imageDrawn (Pdf.keyFrame 297 6 key) key el
             (Samples.imageProps contain) 40 20 in
  exists oy dh,
    offsetY d = Fin oy /\ drawH d = Fin dh /\ 0 < dh /\
    (el_alignY el = Some ay_bottom ->
     oy + dh == mmToPoints (297 - box_y b)) /\
    (el_alignY el = Some ay_top ->
     oy == mmToPoints (297 - (box_y b + box_h b))).
Proof.
  intros key el.
  apply (pdf_image_alignY_edges 297 6 key el (Samples.imageProps contain)
           40 20); try reflexivity.
  discriminate.
Defined.

End ImageFitMore.

(** ** The SVG markup: escaping loses nothing, and elements come in z-order *)

Module MarkupFacts.
Import SvgMarkup.
Open Scope string_scope.

Lemma escapeChar_plain a :
  special a = false -> escapeChar a = String a EmptyString.
Proof.
  intros E. pose proof (EscapeFacts.special_false a E) as (E1 & E2 & E3 & E4 & E5).
  unfold escapeChar. now rewrite E1, E2, E3, E4, E5.
Qed.

Lemma escapeChar_head a :
  special a = true -> exists r, escapeChar a = String "&" r.
Proof.
  intros E. apply EscapeFacts.special_true in E.
  destruct E as [-> | [-> | [-> | [-> | ->]]]]; eexists; reflexivity.
Qed.

Lemma special_amp : special "&" = true.
Proof. reflexivity. Qed.

(** Two texts with the same escaped form are the same text: no entity is
    the beginning of another, and none begins like a plain character. *)
Theorem escapeHtml_injective (s1 s2 : string) :
  escapeHtml s1 = escapeHtml s2 -> s1 = s2.
Proof.
  revert s2. induction s1 as [|a s1 IH]; intros [|b s2] H.
  - reflexivity.
  - exfalso. rewrite EscapeFacts.escapeHtml_cons in H.
    destruct (special b) eqn:Eb.
    + destruct (escapeChar_head b Eb) as (r & Er). rewrite Er in H.
      discriminate H.
    + rewrite (escapeChar_plain b Eb) in H. discriminate H.
  - exfalso. rewrite EscapeFacts.escapeHtml_cons in H.
    destruct (special a) eqn:Ea.
    + destruct (escapeChar_head a Ea) as (r & Er). rewrite Er in H.
      discriminate H.
    + rewrite (escapeChar_plain a Ea) in H. discriminate H.
  - rewrite !EscapeFacts.escapeHtml_cons in H.
    destruct (special a) eqn:Ea, (special b) eqn:Eb.
    + apply EscapeFacts.special_true in Ea, Eb.
      destruct Ea as [-> | [-> | [-> | [-> | ->]]]];
        destruct Eb as [-> | [-> | [-> | [-> | ->]]]];
        cbn in H; try discriminate H;
        f_equal; apply IH; congruence.
    + exfalso. destruct (escapeChar_head a Ea) as (r & Er).
      rewrite Er, (escapeChar_plain b Eb) in H.
      cbn in H. injection H as Hb _. subst b.
      rewrite special_amp in Eb. discriminate Eb.
    + exfalso. destruct (escapeChar_head b Eb) as (r & Er).
      rewrite Er, (escapeChar_plain a Ea) in H.
      cbn in H. injection H as Ha _. subst a.
      rewrite special_amp in Ea. discriminate Ea.
    + rewrite (escapeChar_plain a Ea), (escapeChar_plain b Eb) in H.
      cbn in H. injection H as -> Ht. f_equal. now apply IH.
Qed.

Lemma escapeHtml_injective_witness : "a<b" = "a<b".
Proof.
  apply (escapeHtml_injective "a<b" "a<b"). reflexivity.
Defined.

Lemma zIndex_leb_true a b : zIndex_leb a b = true <-> el_zIndex a <= el_zIndex b.
Proof. unfold zIndex_leb. rewrite Qle_bool_iff. split; intros; lra. Qed.

Lemma zIndex_leb_false a b : zIndex_leb a b = false -> el_zIndex b < el_zIndex a.
Proof.
  intros H. destruct (Qlt_le_dec (el_zIndex b) (el_zIndex a)) as [Hl|Hl];
    [exact Hl|].
  apply zIndex_leb_true in Hl. congruence.
Qed.

Local Abbreviation byLevel := (fun a b => el_zIndex a <= el_zIndex b).

Lemma insert_sorted_levels a l :
  StronglySorted byLevel l ->
  StronglySorted byLevel (insert_sorted zIndex_leb a l).
Proof.
  intros Hs. induction Hs as [|b l Hs IH Hb]; cbn [insert_sorted].
  - constructor; constructor.
  - destruct (zIndex_leb a b) eqn:E.
    + apply zIndex_leb_true in E. constructor.
      * now constructor.
      * constructor; [exact E|].
        eapply Forall_impl; [|exact Hb]. cbn. intros c Hc. lra.
    + apply zIndex_leb_false in E. constructor; [exact IH|].
      eapply Permutation_Forall; [apply insert_sorted_perm|].
      constructor; [lra | exact Hb].
Qed.

Lemma sortBy_levels l : StronglySorted byLevel (sortBy zIndex_leb l).
Proof.
  induction l as [|a l IH]; cbn [sortBy]; [constructor|].
  now apply insert_sorted_levels.
Qed.

Lemma StronglySorted_zOrdered l : StronglySorted byLevel l -> zOrdered l.
Proof.
  intros Hs. induction Hs as [|a l Hs IH Ha]; intros i j x y Hij Hi Hj.
  - destruct i; discriminate Hi.
  - destruct j as [|j]; [lia|]. cbn [nth_error] in Hj.
    destruct i as [|i].
    + cbn in Hi. injection Hi as <-.
      rewrite Forall_forall in Ha. apply Ha. eapply nth_error_In, Hj.
    + cbn [nth_error] in Hi. apply (IH i j); [lia | exact Hi | exact Hj].
Qed.

Lemma atLevel_insert z a l :
  atLevel z (insert_sorted zIndex_leb a l) = atLevel z (a :: l).
Proof.
  induction l as [|b l IH]; [reflexivity|]. cbn [insert_sorted].
  destruct (zIndex_leb a b) eqn:E; [reflexivity|].
  apply zIndex_leb_false in E.
  unfold atLevel in *. cbn [filter] in *. rewrite IH.
  destruct (Qeq_bool (el_zIndex a) z) eqn:Ea,
           (Qeq_bool (el_zIndex b) z) eqn:Eb; try reflexivity.
  apply Qeq_bool_iff in Ea, Eb. lra.
Qed.

Lemma atLevel_sortBy z l : atLevel z (sortBy zIndex_leb l) = atLevel z l.
Proof.
  induction l as [|a l IH]; [reflexivity|]. cbn [sortBy].
  rewrite atLevel_insert. unfold atLevel in *. cbn [filter]. now rewrite IH.
Qed.

(** The markup of a key is its group tag, its outline, the markup of its
    elements taken in ascending z-order, and the closing tag: every
    element once, a lower level before a higher one, and the elements of
    one level in the order the key holds them. *)
Theorem svg_elements_in_z_order (show : Q -> string) (margin : Q)
    (key : KeyModel) :
  exists tag ordered,
    keyParts show margin key
    = tag :: outlineMarkup show (margin + k_x key) (margin + k_y key) key
      :: flat_map (elementParts show (margin + k_x key) (margin + k_y key) key)
           ordered
         ++ ["</g>"] /\
    Permutation (k_elements key) ordered /\
    zOrdered ordered /\
    forall z, atLevel z ordered = atLevel z (k_elements key).
Proof.
  eexists _, (sortBy zIndex_leb (k_elements key)).
  split; [reflexivity|]. split; [apply sortBy_perm|].
  split; [apply StronglySorted_zOrdered, sortBy_levels|].
  intros z. apply atLevel_sortBy.
Qed.

End MarkupFacts.

(** ** store.ts: moving keys *)

Module MoveFacts.
Import History Store CutSheet.

Lemma Forall2_compose {A : Type} (P Q R : A -> A -> Prop) l1 l2 l3 :
  (forall a b c, P a b -> Q b c -> R a c) ->
  Forall2 P l1 l2 -> Forall2 Q l2 l3 -> Forall2 R l1 l3.
Proof.
  intros H H12. revert l3. induction H12 as [|a b l1 l2 Hab _ IH]; intros l3 H23.
  - inversion H23. constructor.
  - inversion H23 as [|b' c l2' l3' Hbc Hrest]; subst.
    constructor; [now apply (H a b c) | now apply IH].
Qed.

Lemma same_but_position_refl k : same_but_position k k.
Proof. repeat split. Qed.

Lemma updateFirst_movedOnly id x y ks :
  Forall2 (movedOnly (fun i => String.eqb i id)) ks
          (updateFirst id (fun k => set_position k x y) ks).
Proof.
  induction ks as [|k ks IH]; [constructor|]. cbn [updateFirst].
  destruct (String.eqb (k_id k) id) eqn:E.
  - constructor.
    + split; [repeat split|]. split; [reflexivity|].
      cbn beta. rewrite E. discriminate.
    + clear IH. induction ks as [|q ks IH]; constructor; [|exact IH].
      split; [apply same_but_position_refl|]. split; reflexivity.
  - constructor; [|exact IH].
    split; [apply same_but_position_refl|]. split; reflexivity.
Qed.

Lemma fold_movedOnly positions ks :
  Forall2 (movedOnly (includes (map pos_id positions))) ks
    (fold_left
       (fun ks pos =>
          updateFirst (pos_id pos)
            (fun k => set_position k (pos_x pos) (pos_y pos)) ks)
       positions ks).
Proof.
  revert ks. induction positions as [|pos positions IH]; intros ks.
  - cbn [fold_left]. induction ks as [|q ks IHk]; constructor; [|exact IHk].
    split; [apply same_but_position_refl|]. split; reflexivity.
  - cbn [fold_left].
    eapply Forall2_compose;
      [| apply (updateFirst_movedOnly (pos_id pos) (pos_x pos) (pos_y pos))
       | apply IH ].
    intros a b c (Sab & Rab & Nab) (Sbc & Rbc & Nbc).
    destruct Sab as (I1 & W1 & H1 & T1 & P1 & C1 & B1 & E1).
    destruct Sbc as (I2 & W2 & H2 & T2 & P2 & C2 & B2 & E2).
    split; [repeat split; congruence|]. split; [congruence|].
    cbn [map includes existsb]. fold (includes (map pos_id positions) (k_id a)).
    intros Hn. apply orb_false_elim in Hn. destruct Hn as [Hn1 Hn2].
    rewrite <- (Nab Hn1). apply Nbc. rewrite <- I1. exact Hn2.
Qed.

Local Abbreviation moveStep :=
  (fun ks pos =>
     updateFirst (pos_id pos)
       (fun k => set_position k (pos_x pos) (pos_y pos)) ks).

Lemma fold_move_other id positions ks :
  ~ In id (map pos_id positions) ->
  findKey id (fold_left moveStep positions ks) = findKey id ks.
Proof.
  revert ks. induction positions as [|pos positions IH]; intros ks Hn;
    [reflexivity|].
  cbn [fold_left]. rewrite IH by (intros H; apply Hn; now right).
  apply StoreFacts.findKey_updateFirst_other; [reflexivity|].
  intros ->. apply Hn. now left.
Qed.

Lemma fold_move_named positions ks pos k :
  NoDup (map pos_id positions) -> In pos positions ->
  findKey (pos_id pos) ks = Some k ->
  findKey (pos_id pos) (fold_left moveStep positions ks)
  = Some (set_position k (pos_x pos) (pos_y pos)).
Proof.
  revert ks. induction positions as [|p0 positions IH]; intros ks Hnd Hin Hk;
    [destruct Hin|].
  cbn [map] in Hnd. inversion Hnd as [|? ? Hfresh Hnd']; subst.
  cbn [fold_left]. destruct Hin as [->|Hin].
  - rewrite fold_move_other by exact Hfresh.
    rewrite StoreFacts.findKey_updateFirst_same by reflexivity.
    now rewrite Hk.
  - apply IH; [exact Hnd' | exact Hin|].
    rewrite StoreFacts.findKey_updateFirst_other; [exact Hk | reflexivity|].
    intros E. apply Hfresh. rewrite <- E. now apply in_map.
Qed.

(** Dropping keys at new positions: the layout keeps its keys in their
    order, each with everything but x and y as before, and the keys that
    no position names as they were; when no two positions name the same
    key, the first key of each named identifier is at the position given
    for it. *)
Theorem moveSelectedKeys_moves_named_keys (positions : list Position)
    (now : string) (s : EditorState) :
  NoDup (map pos_id positions) ->
  let before := keys (layout (project s)) in
  let after := keys (layout (project (moveSelectedKeys positions now s))) in
  Forall2 (movedOnly (includes (map pos_id positions))) before after /\
  forall pos k,
    In pos positions -> findKey (pos_id pos) before = Some k ->
    findKey (pos_id pos) after
    = Some (set_position k (pos_x pos) (pos_y pos)).
Proof.
  intros Hnd before after. split.
  - apply fold_movedOnly.
  - intros pos k Hin Hk. now apply fold_move_named.
Qed.

Lemma moveSelectedKeys_moves_named_keys_witness :
  let positions := [ {| pos_id := "a"%string; pos_x := 5; pos_y := 7 |} ] in
  let s := MoreSamples.twoKeyState in
  let before := keys (layout (project s)) in
  let after :=
    keys (layout (project (moveSelectedKeys positions "now"%string s))) in
  Forall2 (movedOnly (includes (map pos_id positions))) before after /\
  forall pos k,
    In pos positions -> findKey (pos_id pos) before = Some k ->
    findKey (pos_id pos) after
    = Some (set_position k (pos_x pos) (pos_y pos)).
Proof.
  intros positions s.
  apply (moveSelectedKeys_moves_named_keys positions "now"%string s).
  repeat constructor. intros [].
Defined.

End MoveFacts.

(** ** importers.ts: the matrix and split templates *)

Module LayoutFacts.
Import Layouts.

Lemma ForallOrdPairs_app {A : Type} (R : A -> A -> Prop) l1 l2 :
  ForallOrdPairs R l1 -> ForallOrdPairs R l2 ->
  (forall a b, In a l1 -> In b l2 -> R a b) ->
  ForallOrdPairs R (l1 ++ l2).
Proof.
  intros H1 H2 H12. induction H1 as [|a l1 Ha H1 IH]; [exact H2|].
  cbn [app]. constructor.
  - apply Forall_app. split; [exact Ha|].
    apply Forall_forall. intros b Hb. apply H12; [now left | exact Hb].
  - apply IH. intros x y Hx Hy. apply H12; [now right | exact Hy].
Qed.

Lemma ForallOrdPairs_nth {A : Type} (R : A -> A -> Prop) l :
  ForallOrdPairs R l ->
  forall i j a b,
    (i < j)%nat -> nth_error l i = Some a -> nth_error l j = Some b -> R a b.
Proof.
  intros H. induction H as [|x l Hx H IH]; intros i j a b Hij Hi Hj.
  - destruct i; discriminate Hi.
  - destruct j as [|j]; [lia|]. cbn [nth_error] in Hj. destruct i as [|i].
    + cbn in Hi. injection Hi as <-.
      rewrite Forall_forall in Hx. apply Hx. eapply nth_error_In, Hj.
    + cbn [nth_error] in Hi. apply (IH i j); [lia | exact Hi | exact Hj].
Qed.

Lemma ForallOrdPairs_weaken {A : Type} (R S : A -> A -> Prop) l :
  (forall a b, R a b -> S a b) ->
  ForallOrdPairs R l -> ForallOrdPairs S l.
Proof.
  intros HRS H. induction H as [|a l Ha H IH]; constructor; [|exact IH].
  eapply Forall_impl; [|exact Ha]. intros b. apply HRS.
Qed.

Lemma UNIT_MM_pos : 0 < UNIT_MM.
Proof. reflexivity. Qed.

Lemma GAP_MM_pos : 0 < GAP_MM.
Proof. reflexivity. Qed.

Lemma rowKeys_length fresh n x y row :
  length (rowKeys fresh n x y row) = length row.
Proof.
  revert n x. induction row as [|cell row IH]; intros n x; [reflexivity|].
  cbn [rowKeys length]. now rewrite IH.
Qed.

(** One row: every key on the row's line, at most one unit high, and
    each key a gap after the one before. *)
Lemma rowKeys_in_line fresh row :
  Forall unitCell row ->
  forall n x y,
    Forall (fun k => x <= k_x k /\ k_y k = y /\ k_height k <= UNIT_MM)
           (rowKeys fresh n x y row) /\
    ForallOrdPairs (fun a b => k_x a + k_width a + GAP_MM <= k_x b)
                   (rowKeys fresh n x y row).
Proof.
  intros Hrow. induction Hrow as [|cell row Hcell _ IH]; intros n x y.
  - split; constructor.
  - destruct Hcell as (Hu & Hh0 & Hh1).
    destruct (IH (S n) (x + (cellWidth cell + GAP_MM)) y) as [Hall Hord].
    pose proof UNIT_MM_pos as HU. pose proof GAP_MM_pos as HG.
    assert (Hw : 0 < cellWidth cell)
      by (unfold cellWidth; now apply Qmult_lt_0_compat).
    cbn [rowKeys]. split.
    + constructor.
      * cbn. split; [lra|]. split; [reflexivity|].
        unfold cellHeight. nra.
      * eapply Forall_impl; [|exact Hall]. cbn beta.
        intros k (Hx & Hy & Hh). split; [lra|]. split; assumption.
    + constructor; [|exact Hord].
      eapply Forall_impl; [|exact Hall]. cbn.
      intros k (Hx & _). lra.
Qed.

Lemma matrixRows_length fresh rowDefs :
  forall n r startX startY,
    length (matrixRows fresh n r startX startY rowDefs)
    = length (concat rowDefs).
Proof.
  induction rowDefs as [|row rowDefs IH]; intros n r startX startY;
    [reflexivity|].
  cbn [matrixRows concat]. now rewrite !length_app, rowKeys_length, IH.
Qed.

Lemma matrixRows_clear fresh rowDefs :
  Forall (Forall unitCell) rowDefs ->
  forall n r startX startY,
    Forall (fun k => startY + inject_Z (Z.of_nat r) * STEP_MM <= k_y k)
           (matrixRows fresh n r startX startY rowDefs) /\
    ForallOrdPairs (clearBefore GAP_MM)
                   (matrixRows fresh n r startX startY rowDefs).
Proof.
  intros Hrows. induction Hrows as [|row rowDefs Hrow _ IH];
    intros n r startX startY.
  - split; constructor.
  - set (y := startY + inject_Z (Z.of_nat r) * STEP_MM).
    destruct (rowKeys_in_line fresh row Hrow n startX y) as [Hline Hord].
    destruct (IH (n + length row)%nat (S r) startX startY) as [Hbelow Hrest].
    assert (Hnext : startY + inject_Z (Z.of_nat (S r)) * STEP_MM
                    == y + UNIT_MM + GAP_MM).
    { unfold y, STEP_MM. rewrite Nat2Z.inj_succ. unfold Z.succ.
      rewrite inject_Z_plus. change (inject_Z 1) with 1. ring. }
    pose proof UNIT_MM_pos as HU. pose proof GAP_MM_pos as HG.
    cbn [matrixRows]. fold y. split.
    + apply Forall_app. split.
      * eapply Forall_impl; [|exact Hline]. cbn beta.
        intros k (_ & Hy & _). rewrite Hy. lra.
      * eapply Forall_impl; [|exact Hbelow]. cbn beta. intros k Hk. lra.
    + apply ForallOrdPairs_app.
      * eapply ForallOrdPairs_weaken; [|exact Hord].
        intros a b Hab. now left.
      * exact Hrest.
      * intros a b Ha Hb. right.
        rewrite Forall_forall in Hline, Hbelow.
        destruct (Hline a Ha) as (_ & Hy & Hh). specialize (Hbelow b Hb).
        rewrite Hy. lra.
Qed.

(** A matrix of cells of positive width, each at most one unit high, gives
    one key per cell, row by row, and every key ends at least a gap
    before each later one begins: to its left on the same row, above it
    otherwise. *)
Theorem matrix_template_keys_clear (fresh : nat -> string)
    (rowDefs : list (list CellDef)) (startX startY : Q) :
  Forall (Forall unitCell) rowDefs ->
  let made := buildMatrixTemplate fresh rowDefs startX startY in
  length made = length (concat rowDefs) /\
  forall i j ki kj,
    (i < j)%nat -> nth_error made i = Some ki -> nth_error made j = Some kj ->
    clearBefore GAP_MM ki kj /\ ~ CutSheet.overlap ki kj.
Proof.
  intros Hrows made. split; [apply matrixRows_length|].
  intros i j ki kj Hij Hi Hj.
  destruct (matrixRows_clear fresh rowDefs Hrows 0 0 startX startY)
    as [_ Hord].
  pose proof (ForallOrdPairs_nth _ _ Hord i j ki kj Hij Hi Hj) as Hc.
  split; [exact Hc|].
  pose proof GAP_MM_pos as HG.
  intros (H1 & H2 & H3 & H4). destruct Hc as [Hc|Hc]; lra.
Qed.

Lemma matrix_template_keys_clear_witness :
  let made := buildMatrixTemplate MoreSamples.freshId ARROW_CLUSTER 0 0 in
  length made = length (concat ARROW_CLUSTER) /\
  forall i j ki kj,
    (i < j)%nat -> nth_error made i = Some ki -> nth_error made j = Some kj ->
    clearBefore GAP_MM ki kj /\ ~ CutSheet.overlap ki kj.
Proof.
  apply (matrix_template_keys_clear MoreSamples.freshId ARROW_CLUSTER 0 0).
  repeat (apply Forall_cons || apply Forall_nil);
    (split; [reflexivity|]); (split; [reflexivity|]);
    intros H; discriminate H.
Defined.

Lemma mapi_from_nth {A B : Type} (f : nat -> A -> B) l :
  forall idx n a,
    nth_error l n = Some a ->
    nth_error (CutSheet.mapi_from f idx l) n = Some (f (idx + n)%nat a).
Proof.
  induction l as [|x l IH]; intros idx n a H.
  - destruct n; discriminate H.
  - destruct n as [|n]; cbn [CutSheet.mapi_from nth_error] in *.
    + injection H as <-. now rewrite Nat.add_0_r.
    + rewrite (IH (S idx) n a H). f_equal. f_equal. lia.
Qed.

Lemma splitTemplate_length fresh first rest size width :
  length (splitTemplate fresh first rest size width)
  = (2 * length (first :: rest))%nat.
Proof.
  unfold splitTemplate.
  rewrite length_app, !CutSheetFacts.mapi_from_length. lia.
Qed.

(** The two keys made from the [i]-th entry of the table. *)
Lemma splitTemplate_pair fresh first rest size width i pos :
  nth_error (first :: rest) i = Some pos ->
  let made := splitTemplate fresh first rest size width in
  let n := length (first :: rest) in
  let m := mirrorLineOf first rest size width in
  nth_error made i = Some (halfKey (fresh i) size pos) /\
  nth_error made (n + i)
  = Some (halfKey (fresh (n + i)%nat) size (mirrored m size pos)).
Proof.
  intros Hpos made n m. unfold made, splitTemplate.
  assert (Hi : (i < length (first :: rest))%nat)
    by (apply nth_error_Some; congruence).
  split.
  - rewrite nth_error_app1 by (now rewrite CutSheetFacts.mapi_from_length).
    exact (mapi_from_nth (fun i pos => halfKey (fresh i) size pos)
             (first :: rest) 0%nat i pos Hpos).
  - rewrite nth_error_app2 by (rewrite CutSheetFacts.mapi_from_length; lia).
    rewrite CutSheetFacts.mapi_from_length.
    replace (n + i - length (first :: rest))%nat with i by (unfold n; lia).
    exact (mapi_from_nth
             (fun i pos => halfKey (fresh i) size
                             (mirrored (mirrorLineOf first rest size width)
                                       size pos))
             (first :: rest) (length (first :: rest)) i pos Hpos).
Qed.

(** The split template holds two keys for each of the eighteen entries
    of its table, the left-hand one where the entry says and the
    right-hand one eighteen places later: on the same line, of the same
    size, its centre as far to the right of the mirror line as the
    left-hand key's centre is to its left, and turned the other way. *)
Theorem cheapino_right_half_mirrors_left (fresh : nat -> string)
    (keySizeMm paperWidthMm : Q) :
  let left := MIRYOKU_LEFT_first :: MIRYOKU_LEFT_rest in
  let m := mirrorLineOf MIRYOKU_LEFT_first MIRYOKU_LEFT_rest
             keySizeMm paperWidthMm in
  let made := buildCheapinoTemplate fresh keySizeMm paperWidthMm in
  length made = 36%nat /\
  forall i pos,
    nth_error left i = Some pos ->
    exists l r,
      nth_error made i = Some l /\ nth_error made (18 + i) = Some r /\
      k_x l = hp_x pos /\ k_y l = hp_y pos /\ k_y r = hp_y pos /\
      k_width l = keySizeMm /\ k_height l = keySizeMm /\
      k_width r = keySizeMm /\ k_height r = keySizeMm /\
      (k_x r + keySizeMm / 2) - m == m - (k_x l + keySizeMm / 2) /\
      k_rotation l = Some (hp_rotation pos) /\
      exists turned, k_rotation r = Some turned /\ turned == - hp_rotation pos.
Proof.
  intros left m made. split.
  - unfold made, buildCheapinoTemplate. now rewrite splitTemplate_length.
  - intros i pos Hpos.
    destruct (splitTemplate_pair fresh MIRYOKU_LEFT_first MIRYOKU_LEFT_rest
                keySizeMm paperWidthMm i pos Hpos) as [Hl Hr].
    eexists _, _. split; [exact Hl|]. split; [exact Hr|].
    cbn [halfKey createKey mirrored k_x k_y k_width k_height k_rotation
         in_x in_y in_width in_height in_rotation nullish hp_x hp_y
         hp_rotation].
    repeat (split; [reflexivity|]).
    split; [fold m; qdiv; ring|]. split; [reflexivity|].
    eexists. split; [reflexivity|].
    destruct (Qeq_bool (hp_rotation pos) 0) eqn:E; [|reflexivity].
    apply Qeq_bool_iff in E. rewrite E. reflexivity.
Qed.

Lemma table_max_x :
  maxOf (hp_x MIRYOKU_LEFT_first) (map hp_x MIRYOKU_LEFT_rest) == 116.
Proof. reflexivity. Qed.

(** On paper at least twice the key size plus 133.75 mm wide, the mirror
    line is not pulled in, and every key of the right half begins at
    least 23.5 mm after every key of the left half ends. *)
Theorem cheapino_halves_apart (fresh : nat -> string)
    (keySizeMm paperWidthMm : Q) :
  2 * keySizeMm + 133.75 <= paperWidthMm ->
  let made := buildCheapinoTemplate fresh keySizeMm paperWidthMm in
  forall i j l r,
    (i < 18)%nat -> (j < 18)%nat ->
    nth_error made i = Some l -> nth_error made (18 + j) = Some r ->
    k_x l + k_width l + 23.5 <= k_x r.
Proof.
  intros Hwide made i j l r Hi Hj Hl Hr.
  set (left := MIRYOKU_LEFT_first :: MIRYOKU_LEFT_rest).
  destruct (nth_error left i) as [pi|] eqn:Ei;
    [|apply nth_error_None in Ei; cbn in Ei; lia].
  destruct (nth_error left j) as [pj|] eqn:Ej;
    [|apply nth_error_None in Ej; cbn in Ej; lia].
  destruct (splitTemplate_pair fresh MIRYOKU_LEFT_first MIRYOKU_LEFT_rest
              keySizeMm paperWidthMm i pi Ei) as [Hl' _].
  destruct (splitTemplate_pair fresh MIRYOKU_LEFT_first MIRYOKU_LEFT_rest
              keySizeMm paperWidthMm j pj Ej) as [_ Hr'].
  change (length (MIRYOKU_LEFT_first :: MIRYOKU_LEFT_rest)) with 18%nat in Hr'.
  unfold made, buildCheapinoTemplate in Hl, Hr.
  rewrite Hl' in Hl. rewrite Hr' in Hr.
  injection Hl as <-. injection Hr as <-.
  cbn [halfKey createKey mirrored k_x k_width in_x in_width hp_x].
  assert (Hpi : hp_x pi <= 116).
  { rewrite <- table_max_x.
    apply nth_error_In in Ei. destruct Ei as [<-|Ei].
    - apply CutSheetFacts.maxOf_ge_init.
    - apply CutSheetFacts.maxOf_ge_in. now apply in_map. }
  assert (Hpj : hp_x pj <= 116).
  { rewrite <- table_max_x.
    apply nth_error_In in Ej. destruct Ej as [<-|Ej].
    - apply CutSheetFacts.maxOf_ge_init.
    - apply CutSheetFacts.maxOf_ge_in. now apply in_map. }
  assert (Hm : mirrorLineOf MIRYOKU_LEFT_first MIRYOKU_LEFT_rest
                 keySizeMm paperWidthMm == 116 + keySizeMm + 11.75).
  { unfold mirrorLineOf. pose proof table_max_x as Hmax.
    set (mx := maxOf (hp_x MIRYOKU_LEFT_first) (map hp_x MIRYOKU_LEFT_rest))
      in *. clearbody mx.
    unfold Qmin. destruct (Qlt_le_dec _ _); lra. }
  rewrite Hm. lra.
Qed.

Lemma cheapino_halves_apart_witness :
  let made := buildCheapinoTemplate MoreSamples.freshId DEFAULT_KEY_SIZE 210 in
  exists l r,
    nth_error made 0 = Some l /\ nth_error made 18 = Some r /\
    k_x l + k_width l + 23.5 <= k_x r.
Proof.
  intros made. eexists _, _.
  split; [reflexivity|]. split; [reflexivity|].
  refine (cheapino_halves_apart MoreSamples.freshId DEFAULT_KEY_SIZE 210
            _ 0%nat 0%nat _ _ _ _ eq_refl eq_refl).
  - intros H; discriminate H.
  - lia.
  - lia.
Defined.

End LayoutFacts.

(** ** exporters.ts: colours for the PDF *)

Module ColourFacts.
Import Colour.
Open Scope string_scope.

Ltac each_char c H :=
  destruct c as [[] [] [] [] [] [] [] []]; cbv in H;
  first [discriminate H | reflexivity].

Lemma hexDigit_range c d : hexDigit c = Some d -> (0 <= d < 16)%Z.
Proof.
  intros H. destruct c as [[] [] [] [] [] [] [] []]; cbv in H;
    first [discriminate H | injection H as <-; lia].
Qed.

Lemma hexDigit_trimStart c d r :
  hexDigit c = Some d -> trimStart (String c r) = String c r.
Proof. intros H. each_char c H. Qed.

Lemma hexDigit_stripSign c d r :
  hexDigit c = Some d -> stripSign (String c r) = (false, String c r).
Proof. intros H. each_char c H. Qed.

Lemma hexDigit_not_x c d : hexDigit c = Some d -> c <> "x"%char /\ c <> "X"%char.
Proof.
  intros H. split; intros ->; discriminate H.
Qed.

Lemma hexDigit_stripPrefix c1 c2 d2 r :
  hexDigit c2 = Some d2 ->
  stripPrefix (String c1 (String c2 r)) = String c1 (String c2 r).
Proof.
  intros H. unfold stripPrefix.
  destruct (hexDigit_not_x c2 d2 H) as [Hx HX].
  destruct c1 as [[] [] [] [] [] [] [] []]; try reflexivity.
  destruct c2 as [[] [] [] [] [] [] [] []]; try reflexivity; congruence.
Qed.

Lemma removeFirst_hash r : removeFirst "#" (String "#" r) = r.
Proof. reflexivity. Qed.

(** What [parseInt] makes of a string that starts with two digits. *)
Lemma parseInt16_digits c1 c2 d1 d2 r :
  hexDigit c1 = Some d1 -> hexDigit c2 = Some d2 ->
  parseInt16 (String c1 (String c2 r))
  = let '(v, n) := digitsValue (16 * d1 + d2) 2 r in
    if (13 <? n)%nat then beyondExact else integer v.
Proof.
  intros H1 H2. unfold parseInt16.
  rewrite (hexDigit_trimStart c1 d1 _ H1), (hexDigit_stripSign c1 d1 _ H1).
  rewrite (hexDigit_stripPrefix c1 c2 d2 r H2).
  cbn [digitsValue]. rewrite H1. cbn [digitsValue]. rewrite H2.
  replace (16 * (16 * 0 + d1) + d2)%Z with (16 * d1 + d2)%Z by lia.
  destruct (digitsValue (16 * d1 + d2) 2 r) as [v n] eqn:E.
  assert (Hn : (2 <= n)%nat).
  { clear -E. revert E. generalize (16 * d1 + d2)%Z. generalize 2%nat.
    induction r as [|a r IH]; intros k acc E; cbn [digitsValue] in E.
    - injection E as _ <-. lia.
    - destruct (hexDigit a).
      + apply IH in E. lia.
      + injection E as _ <-. lia. }
  destruct n as [|n]; [lia|]. reflexivity.
Qed.

Lemma byte_of z : Z.land z 255 = (z mod 256)%Z.
Proof. exact (Z.land_ones z 8 ltac:(lia)). Qed.

Lemma toInt32_small z :
  (0 <= z < 2 ^ 31)%Z -> toInt32 (integer z) = Some z.
Proof.
  intros Hz. unfold toInt32. f_equal.
  rewrite Z.mod_small by lia. lia.
Qed.

(** A colour written as six hexadecimal digits after a hash gives the
    three bytes the digits spell, each over 255. *)
Theorem rgbFromHex_six_digits (c1 c2 c3 c4 c5 c6 : ascii)
    (d1 d2 d3 d4 d5 d6 : Z) :
  hexDigit c1 = Some d1 -> hexDigit c2 = Some d2 -> hexDigit c3 = Some d3 ->
  hexDigit c4 = Some d4 -> hexDigit c5 = Some d5 -> hexDigit c6 = Some d6 ->
  rgbFromHex
    (String "#" (String c1 (String c2 (String c3 (String c4
       (String c5 (String c6 EmptyString)))))))
  = Some (bytes (16 * d1 + d2) (16 * d3 + d4) (16 * d5 + d6)).
Proof.
  intros H1 H2 H3 H4 H5 H6.
  pose proof (hexDigit_range _ _ H1). pose proof (hexDigit_range _ _ H2).
  pose proof (hexDigit_range _ _ H3). pose proof (hexDigit_range _ _ H4).
  pose proof (hexDigit_range _ _ H5). pose proof (hexDigit_range _ _ H6).
  unfold rgbFromHex. rewrite removeFirst_hash.
  rewrite (parseInt16_digits c1 c2 d1 d2 _ H1 H2).
  cbn [digitsValue]. rewrite H3. cbn [digitsValue]. rewrite H4.
  cbn [digitsValue]. rewrite H5. cbn [digitsValue]. rewrite H6.
  cbn [digitsValue Nat.ltb Nat.leb].
  set (v := (16 * (16 * (16 * (16 * (16 * d1 + d2) + d3) + d4) + d5) + d6)%Z).
  assert (Hv : (0 <= v < 2 ^ 24)%Z) by (unfold v; lia).
  rewrite toInt32_small by lia.
  rewrite !byte_of, !Z.shiftr_div_pow2 by lia.
  unfold bytes. f_equal.
  assert (E1 : ((v / 2 ^ 16) mod 256 = 16 * d1 + d2)%Z).
  { unfold v. change (2 ^ 16)%Z with 65536%Z.
    Z.div_mod_to_equations. lia. }
  assert (E2 : ((v / 2 ^ 8) mod 256 = 16 * d3 + d4)%Z).
  { unfold v. change (2 ^ 8)%Z with 256%Z.
    Z.div_mod_to_equations. lia. }
  assert (E3 : (v mod 256 = 16 * d5 + d6)%Z).
  { unfold v. Z.div_mod_to_equations. lia. }
  now rewrite E1, E2, E3.
Qed.

Lemma rgbFromHex_six_digits_witness :
  rgbFromHex "#1e293b" = Some (bytes (16 * 1 + 14) (16 * 2 + 9) (16 * 3 + 11)).
Proof.
  apply (rgbFromHex_six_digits "1" "e" "2" "9" "3" "b" 1 14 2 9 3 11);
    reflexivity.
Defined.

(** The three-digit short form is not expanded: its digits are read as
    one number below 4096, so the red byte is 0, the green byte is the
    first digit and the blue byte is spelt by the other two. *)
Theorem rgbFromHex_three_digits (c1 c2 c3 : ascii) (d1 d2 d3 : Z) :
  hexDigit c1 = Some d1 -> hexDigit c2 = Some d2 -> hexDigit c3 = Some d3 ->
  rgbFromHex (String "#" (String c1 (String c2 (String c3 EmptyString))))
  = Some (bytes 0 d1 (16 * d2 + d3)).
Proof.
  intros H1 H2 H3.
  pose proof (hexDigit_range _ _ H1). pose proof (hexDigit_range _ _ H2).
  pose proof (hexDigit_range _ _ H3).
  unfold rgbFromHex. rewrite removeFirst_hash.
  rewrite (parseInt16_digits c1 c2 d1 d2 _ H1 H2).
  cbn [digitsValue]. rewrite H3. cbn [digitsValue Nat.ltb Nat.leb].
  set (v := (16 * (16 * d1 + d2) + d3)%Z).
  assert (Hv : (0 <= v < 2 ^ 12)%Z) by (unfold v; lia).
  rewrite toInt32_small by lia.
  rewrite !byte_of, !Z.shiftr_div_pow2 by lia.
  unfold bytes. f_equal.
  assert (E1 : ((v / 2 ^ 16) mod 256 = 0)%Z).
  { unfold v. change (2 ^ 16)%Z with 65536%Z.
    Z.div_mod_to_equations. lia. }
  assert (E2 : ((v / 2 ^ 8) mod 256 = d1)%Z).
  { unfold v. change (2 ^ 8)%Z with 256%Z.
    Z.div_mod_to_equations. lia. }
  assert (E3 : (v mod 256 = 16 * d2 + d3)%Z).
  { unfold v. Z.div_mod_to_equations. lia. }
  now rewrite E1, E2, E3.
Qed.

Lemma rgbFromHex_three_digits_witness :
  rgbFromHex "#fa0" = Some (bytes 0 15 (16 * 10 + 0)).
Proof.
  apply (rgbFromHex_three_digits "f" "a" "0" 15 10 0); reflexivity.
Defined.

(** A text that does not start like a number, such as a colour name
    whose first letter is beyond f, is read as NaN and gives black. *)
Theorem rgbFromHex_name_is_black (c : ascii) (r : string) :
  opensNumber c = false ->
  rgbFromHex (String c r) = Some (bytes 0 0 0).
Proof.
  intros H.
  destruct c as [[] [] [] [] [] [] [] []]; cbv in H;
    first [discriminate H | reflexivity].
Qed.

Lemma rgbFromHex_name_is_black_witness :
  rgbFromHex "transparent" = Some (bytes 0 0 0).
Proof.
  apply (rgbFromHex_name_is_black "t" "ransparent"). reflexivity.
Defined.

End ColourFacts.
